(** * CircuitSimulator: netlist compiler and simulation-result decoder

    A shallow embedding of [server/utils/simple-spice.ts] (net normaliser,
    quantity parser, node allocator, device emitter, netlist assembler), of
    [parseSI] of [server/utils/units.ts], and of the decoding half of
    [server/utils/ngspice-interface.ts] (operating-point scan, transient
    decoders, row tokenizer, analytic fallback, result assembly), followed by
    the properties established about them.

    Conventions of the embedding
    - a JavaScript string is the list of its UTF-16 code units ([str]);
    - a regular expression is a term of [Regex.re], matched by backtracking
      in the order of [RegExp] (greedy and lazy quantifiers, groups, [^] and
      [$], the flags [i] and [g]);
    - a JavaScript object used as a dictionary is an association list kept in
      the order in which [Object.keys] enumerates it ([obj]);
    - numbers read from text are exact decimals [m * 10^e] ([Num]) and the
      numbers of a decoded result exact rationals ([QNum]); binary64 rounding
      is not modelled, overflow to [Infinity] is;
    - the closure state of [makeEmitter] (the shared [netToNodeMap]) is passed
      explicitly; what the engine process did is an argument ([Outcome]);
      logging is left out, and nothing in the modelled code throws. *)

From Stdlib Require Import List String Ascii Bool Arith NArith ZArith QArith.
From Stdlib Require Import Qabs Lia Permutation.
Import ListNotations.

Set Implicit Arguments.

(* ================================================================== *)
(** * The JavaScript runtime used by the two files *)
(* ================================================================== *)

Module Js.

Local Open Scope N_scope.

(** A UTF-16 code unit and a string. *)
Definition char := N.
Definition str := list char.

(** ASCII literal to string. *)
Definition js (s : string) : str :=
  List.map N_of_ascii (list_ascii_of_string s).
Arguments js s%_string.

Fixpoint eqb_str (a b : str) : bool :=
  match a, b with
  | [], [] => true
  | x :: a', y :: b' => (x =? y) && eqb_str a' b'
  | _, _ => false
  end.

(** Truthiness of a string: [!!s]. *)
Definition truthy (s : str) : bool :=
  match s with [] => false | _ => true end.

(** [a || b] on strings, with [undefined] as [None]. *)
Definition or_else (a : option str) (b : str) : str :=
  match a with
  | Some s => if truthy s then s else b
  | None => b
  end.

(** ** Character classes *)

Definition in_range (lo hi c : char) : bool := (lo <=? c) && (c <=? hi).

Definition isDigit (c : char) : bool := in_range 48 57 c.
Definition isLower (c : char) : bool := in_range 97 122 c.
Definition isUpper (c : char) : bool := in_range 65 90 c.
Definition isAlpha (c : char) : bool := isLower c || isUpper c.
(** [\w] *)
Definition isWord (c : char) : bool := isAlpha c || isDigit c || (c =? 95).

(** WhiteSpace and LineTerminator of ECMAScript: what [trim] strips and what
    [\s] matches. *)
Definition isWhiteSpace (c : char) : bool :=
  in_range 9 13 c || (c =? 32) || (c =? 160) || (c =? 5760)
  || in_range 8192 8202 c || (c =? 8232) || (c =? 8233) || (c =? 8239)
  || (c =? 8287) || (c =? 12288) || (c =? 65279).

(** LineTerminator: what [.] does not match. *)
Definition isLineTerminator (c : char) : bool :=
  (c =? 10) || (c =? 13) || (c =? 8232) || (c =? 8233).

(** ** String methods *)

Fixpoint dropWhile (p : char -> bool) (s : str) : str :=
  match s with
  | [] => []
  | c :: s' => if p c then dropWhile p s' else s
  end.

Fixpoint takeWhile (p : char -> bool) (s : str) : str :=
  match s with
  | [] => []
  | c :: s' => if p c then c :: takeWhile p s' else []
  end.

Definition trimStart (s : str) : str := dropWhile isWhiteSpace s.
Definition trimEnd (s : str) : str := rev (dropWhile isWhiteSpace (rev s)).
Definition trim (s : str) : str := trimEnd (trimStart s).

(** [toUpperCase] / [toLowerCase] on the ASCII letters.  Other code units are
    kept: the two files only compare the result with ASCII words, and no
    non-ASCII character maps into the letters of those words. *)
Definition upperChar (c : char) : char := if isLower c then c - 32 else c.
Definition lowerChar (c : char) : char := if isUpper c then c + 32 else c.
Definition toUpperCase (s : str) : str := List.map upperChar s.
Definition toLowerCase (s : str) : str := List.map lowerChar s.

Fixpoint startsWith (p s : str) : bool :=
  match p, s with
  | [], _ => true
  | x :: p', y :: s' => (x =? y) && startsWith p' s'
  | _ :: _, [] => false
  end.

(** [s.includes(p)] *)
Fixpoint includes (p s : str) : bool :=
  startsWith p s || match s with [] => false | _ :: s' => includes p s' end.

(** [s.split(sep)] for a one-character separator string. *)
Fixpoint split_char (sep : char) (s : str) : list str :=
  match s with
  | [] => [[]]
  | c :: s' =>
      if c =? sep then [] :: split_char sep s'
      else match split_char sep s' with
           | [] => [[c]]
           | w :: ws => (c :: w) :: ws
           end
  end.

(** [xs.join(sep)] *)
Fixpoint join (sep : str) (xs : list str) : str :=
  match xs with
  | [] => []
  | [x] => x
  | x :: xs' => x ++ sep ++ join sep xs'
  end.

(** ** Objects used as dictionaries

    Own string keys are enumerated array indices first, in ascending numeric
    order, then the other keys in insertion order.  The association list of an
    [obj] is kept in that order. *)

Definition obj (V : Type) := list (str * V).

Fixpoint digitsValue (acc : N) (s : str) : N :=
  match s with
  | [] => acc
  | c :: s' => digitsValue (10 * acc + (c - 48)) s'
  end.

(** The array index a key denotes, if it is a canonical numeric string below
    2^32 - 1. *)
Definition arrayIndex (k : str) : option N :=
  match k with
  | [] => None
  | c :: k' =>
      if forallb isDigit k && (negb (c =? 48) || match k' with [] => true | _ => false end)
      then (if (List.length k <=? 10)%nat && (digitsValue 0 k <? 4294967295)
            then Some (digitsValue 0 k) else None)
      else None
  end.

Section Obj.
Variable V : Type.

Fixpoint lookup (k : str) (o : obj V) : option V :=
  match o with
  | [] => None
  | (k', v) :: o' => if eqb_str k k' then Some v else lookup k o'
  end.

(** [k in o] *)
Definition has (k : str) (o : obj V) : bool :=
  match lookup k o with Some _ => true | None => false end.

Fixpoint update (k : str) (v : V) (o : obj V) : obj V :=
  match o with
  | [] => []
  | (k', v') :: o' =>
      if eqb_str k k' then (k', v) :: o' else (k', v') :: update k v o'
  end.

(** Does a new key [k] come before the existing key [k'] ? *)
Definition precedes (k k' : str) : bool :=
  match arrayIndex k, arrayIndex k' with
  | Some i, Some j => i <? j
  | Some _, None => true
  | None, _ => false
  end.

Fixpoint insert_new (k : str) (v : V) (o : obj V) : obj V :=
  match o with
  | [] => [(k, v)]
  | (k', v') :: o' =>
      if precedes k k' then (k, v) :: o else (k', v') :: insert_new k v o'
  end.

(** [o[k] = v] *)
Definition put (k : str) (v : V) (o : obj V) : obj V :=
  if has k o then update k v o else insert_new k v o.

Definition keys (o : obj V) : list str := List.map fst o.
Definition values (o : obj V) : list V := List.map snd o.
End Obj.

(** ** Numbers

    A number read from text is [NaN], an infinity, or the exact decimal
    [m * 10^e]; a finite value is kept with [m] free of trailing zeros.  The
    rounding of binary64 is not modelled; a magnitude that binary64 rounds to
    [Infinity] (at least 2^1024 - 2^970) is. *)

Inductive Num : Set :=
| NaN
| Inf (neg : bool)
| Fin (m e : Z).

Fixpoint digitsOf (fuel : nat) (n : N) (acc : str) : str :=
  match fuel with
  | O => acc
  | S f =>
      let acc' := (48 + n mod 10) :: acc in
      if n <? 10 then acc' else digitsOf f (n / 10) acc'
  end.

(** Decimal digits of a natural number. *)
Definition N_toString (n : N) : str :=
  digitsOf (S (N.to_nat (N.log2 n))) n [].

Fixpoint strip10 (fuel : nat) (m e : Z) : Z * Z :=
  match fuel with
  | O => (m, e)
  | S f =>
      if (m mod 10 =? 0)%Z then strip10 f (m / 10)%Z (e + 1)%Z else (m, e)
  end.

Definition overflowBound : Z := (2 ^ 1024 - 2 ^ 970)%Z.

(** Does [|m| * 10^e] reach the overflow bound?  [m] is not zero. *)
Definition overflows (m e : Z) : bool :=
  let a := Z.abs m in
  let d := Z.of_nat (List.length (N_toString (Z.to_N a))) in
  if (d + e <=? 308)%Z then false
  else if (310 <=? d + e)%Z then true
  else if (0 <=? e)%Z then (overflowBound <=? a * 10 ^ e)%Z
  else (overflowBound * 10 ^ (- e) <=? a)%Z.

(** The number [m * 10^e]. *)
Definition mkFin (m e : Z) : Num :=
  if (m =? 0)%Z then Fin 0 0
  else if overflows m e then Inf (m <? 0)%Z
  else let (m', e') := strip10 (S (Z.to_nat (Z.log2 (Z.abs m)))) m e in
       Fin m' e'.

Definition ofN (n : N) : Num := mkFin (Z.of_N n) 0.

(** [Number.isFinite] *)
Definition isFinite (x : Num) : bool :=
  match x with Fin _ _ => true | _ => false end.

(** [x * y] *)
Definition mul (x y : Num) : Num :=
  match x, y with
  | NaN, _ | _, NaN => NaN
  | Inf a, Inf b => Inf (xorb a b)
  | Inf a, Fin m _ => if (m =? 0)%Z then NaN else Inf (xorb a (m <? 0)%Z)
  | Fin m _, Inf b => if (m =? 0)%Z then NaN else Inf (xorb (m <? 0)%Z b)
  | Fin m1 e1, Fin m2 e2 => mkFin (m1 * m2) (e1 + e2)
  end.

(** [String(x)] for a number: Number::toString of ECMAScript, on the exact
    decimal digits of the value. *)
Definition Num_toString (x : Num) : str :=
  match x with
  | NaN => js "NaN"
  | Inf neg => (if neg then js "-" else []) ++ js "Infinity"
  | Fin m e =>
      if (m =? 0)%Z then js "0"
      else
        let s := N_toString (Z.abs_N m) in
        let k := Z.of_nat (List.length s) in
        let n := (k + e)%Z in
        let body :=
          if ((k <=? n) && (n <=? 21))%Z then s ++ repeat 48 (Z.to_nat (n - k))
          else if ((0 <? n) && (n <=? 21))%Z
          then firstn (Z.to_nat n) s ++ js "." ++ skipn (Z.to_nat n) s
          else if ((-6 <? n) && (n <=? 0))%Z
          then js "0." ++ repeat 48 (Z.to_nat (- n)) ++ s
          else
            let x := (n - 1)%Z in
            let xs := (if (x <? 0)%Z then js "-" else js "+")
                        ++ N_toString (Z.abs_N x) in
            match s with
            | [] => []
            | [d] => [d] ++ js "e" ++ xs
            | d :: ds => [d] ++ js "." ++ ds ++ js "e" ++ xs
            end in
        (if (m <? 0)%Z then js "-" else []) ++ body
  end.

(** *** Numeric literals in strings *)

Definition scanSign (s : str) : bool * str :=
  match s with
  | 45 :: s' => (true, s')
  | 43 :: s' => (false, s')
  | _ => (false, s)
  end.

(** ExponentPart, when one is there and well formed. *)
Definition scanExponent (s : str) : Z * str :=
  match s with
  | c :: s1 =>
      if (c =? 101) || (c =? 69) then
        let (neg, s2) := scanSign s1 in
        match takeWhile isDigit s2 with
        | [] => (0%Z, s)
        | ds => let v := Z.of_N (digitsValue 0 ds) in
                ((if neg then - v else v)%Z, dropWhile isDigit s2)
        end
      else (0%Z, s)
  | [] => (0%Z, s)
  end.

(** The longest prefix of [s] that is a StrDecimalLiteral, its value and the
    rest of [s]. *)
Definition scanDecimalLiteral (s : str) : option (Num * str) :=
  let (neg, s1) := scanSign s in
  if startsWith (js "Infinity") s1 then Some (Inf neg, skipn 8 s1)
  else
    let ip := takeWhile isDigit s1 in
    let s2 := dropWhile isDigit s1 in
    let (fp, s3) :=
      match s2 with
      | 46 :: t =>
          match ip, takeWhile isDigit t with
          | [], [] => ([], s2)
          | _, ds => (ds, dropWhile isDigit t)
          end
      | _ => ([], s2)
      end in
    match ip ++ fp with
    | [] => None
    | ds =>
        let (x, s4) := scanExponent s3 in
        let m := Z.of_N (digitsValue 0 ds) in
        Some (mkFin (if neg then - m else m) (x - Z.of_nat (List.length fp)), s4)
    end.

Definition radixDigit (radix : N) (c : char) : option N :=
  let v := if isDigit c then Some (c - 48)
           else if in_range 97 102 c then Some (c - 87)
           else if in_range 65 70 c then Some (c - 55)
           else None in
  match v with
  | Some d => if d <? radix then Some d else None
  | None => None
  end.

Fixpoint radixValue (radix : N) (acc : N) (s : str) : option N :=
  match s with
  | [] => Some acc
  | c :: s' =>
      match radixDigit radix c with
      | Some d => radixValue radix (radix * acc + d) s'
      | None => None
      end
  end.

(** NonDecimalIntegerLiteral: [0x..], [0o..], [0b..]. *)
Definition scanNonDecimal (s : str) : option Num :=
  match s with
  | 48 :: p :: (_ :: _) as ds =>
      let radix := if (p =? 120) || (p =? 88) then Some 16
                   else if (p =? 111) || (p =? 79) then Some 8
                   else if (p =? 98) || (p =? 66) then Some 2
                   else None in
      match radix with
      | Some r => match radixValue r 0 ds with
                  | Some v => Some (ofN v)
                  | None => None
                  end
      | None => None
      end
  | _ => None
  end.

(** [Number(s)] *)
Definition Number (s : str) : Num :=
  match trim s with
  | [] => Fin 0 0
  | t =>
      match scanNonDecimal t with
      | Some v => v
      | None =>
          match scanDecimalLiteral t with
          | Some (v, []) => v
          | _ => NaN
          end
      end
  end.

(** [parseFloat(s)] *)
Definition parseFloat (s : str) : Num :=
  match scanDecimalLiteral (trimStart s) with
  | Some (v, _) => v
  | None => NaN
  end.

(** [parseInt(s)] with no radix argument. *)
Definition parseInt (s : str) : Num :=
  let (neg, s1) := scanSign (trimStart s) in
  let (radix, s2) :=
    match s1 with
    | 48 :: p :: t => if (p =? 120) || (p =? 88) then (16, t) else (10, s1)
    | _ => (10, s1)
    end in
  let ds := takeWhile (fun c => match radixDigit radix c with
                                | Some _ => true | None => false end) s2 in
  match ds, radixValue radix 0 ds with
  | _ :: _, Some v => mkFin (if neg then - Z.of_N v else Z.of_N v) 0
  | _, _ => NaN
  end.

End Js.


(* ================================================================== *)
(** * Regular expressions, as [RegExp] matches them *)
(* ================================================================== *)

Module Regex.
Import Js.
Local Open Scope N_scope.

(** The fragment of the pattern language the two files use.  A quantifier is
    greedy or lazy; [Group i] is the [i]-th capturing group; [Bol] and [Eol]
    are [^] and [$] without the [m] flag. *)
Inductive re : Type :=
| Eps
| Chr (p : char -> bool)
| Seq (a b : re)
| Alt (a b : re)
| Star (greedy : bool) (a : re)
| Group (i : nat) (a : re)
| Bol
| Eol.

Definition ch (c : char) : re := Chr (N.eqb c).
(** A pattern character under the [i] flag. *)
Definition chi (c : char) : re := Chr (fun x => upperChar x =? upperChar c).
Definition cls (p : char -> bool) : re := Chr p.
Definition ncls (p : char -> bool) : re := Chr (fun c => negb (p c)).
Definition dot : re := ncls isLineTerminator.
Definition plus (g : bool) (a : re) : re := Seq a (Star g a).
Definition opt (a : re) : re := Alt a Eps.
Definition seqs (rs : list re) : re := fold_right Seq Eps rs.
Definition lit (s : string) : re := seqs (List.map ch (js s)).
Definition liti (s : string) : re := seqs (List.map chi (js s)).
Arguments lit s%_string.
Arguments liti s%_string.

(** One point of a match in progress: the position reached, the input that
    is left, and the groups captured so far (latest first). *)
Record mstate : Type := MState {
  pos : nat;
  rest : str;
  caps : list (nat * str)
}.

(** The ways of iterating [step] from [st], in the order backtracking tries
    them.  An iteration that consumes nothing is not repeated, so [fuel]
    above the number of code units left is never used up. *)
Fixpoint iterate (step : mstate -> list mstate) (greedy : bool)
                 (fuel : nat) (st : mstate) : list mstate :=
  match fuel with
  | O => [st]
  | S f =>
      let more :=
        flat_map (fun st' => if (pos st <? pos st')%nat
                             then iterate step greedy f st' else [])
                 (step st) in
      if greedy then more ++ [st] else st :: more
  end.

(** All the ways [r] matches at [st], in backtracking order. *)
Fixpoint run (r : re) (st : mstate) : list mstate :=
  match r with
  | Eps => [st]
  | Chr p =>
      match rest st with
      | c :: s' => if p c then [MState (S (pos st)) s' (caps st)] else []
      | [] => []
      end
  | Seq a b => flat_map (run b) (run a st)
  | Alt a b => run a st ++ run b st
  | Star g a => iterate (run a) g (S (List.length (rest st))) st
  | Group i a =>
      List.map (fun st' =>
                  MState (pos st') (rest st')
                         ((i, firstn (pos st' - pos st) (rest st)) :: caps st'))
               (run a st)
  | Bol => if (pos st =? 0)%nat then [st] else []
  | Eol => match rest st with [] => [st] | _ => [] end
  end.

(** The result of a successful match. *)
Record match_result : Type := MatchResult {
  index : nat;
  matched : str;
  last : nat;
  after : str;
  groups : list (nat * str)
}.

(** [m[i]] for a group that took part in the match. *)
Fixpoint group (i : nat) (gs : list (nat * str)) : str :=
  match gs with
  | [] => []
  | (j, s) :: gs' => if (i =? j)%nat then s else group i gs'
  end.

(** The match of [r] anchored at position [p], where [s] is the input from
    [p] on. *)
Definition matchAt (r : re) (p : nat) (s : str) : option match_result :=
  match run r (MState p s []) with
  | st :: _ =>
      Some (MatchResult p (firstn (pos st - p) s) (pos st) (rest st) (caps st))
  | [] => None
  end.

(** The leftmost match at or after position [p]. *)
Fixpoint searchFrom (r : re) (p : nat) (s : str) : option match_result :=
  match matchAt r p s with
  | Some m => Some m
  | None =>
      match s with
      | [] => None
      | _ :: s' => searchFrom r (S p) s'
      end
  end.

(** [s.match(r)] and [r.exec(s)] without the [g] flag. *)
Definition exec (r : re) (s : str) : option match_result := searchFrom r 0 s.

(** [r.test(s)] *)
Definition test (r : re) (s : str) : bool :=
  match exec r s with Some _ => true | None => false end.

(** The matches from position [p] on.  Each round leaves fewer code units,
    so [fuel] above their number is never used up. *)
Fixpoint matchAllFrom (r : re) (fuel : nat) (p : nat) (s : str) : list str :=
  match fuel with
  | O => []
  | S f =>
      match searchFrom r p s with
      | None => []
      | Some m =>
          matched m ::
          (if (last m =? index m)%nat
           then match after m with
                | [] => []
                | _ :: s' => matchAllFrom r f (S (last m)) s'
                end
           else matchAllFrom r f (last m) (after m))
      end
  end.

(** [s.match(r) || []] with the [g] flag: every match, left to right. *)
Definition matchAll (r : re) (s : str) : list str :=
  matchAllFrom r (S (List.length s)) 0 s.

(** [s.split(r)] for a pattern without groups: [cur] holds, reversed, the
    code units between the end of the last separator and position [q]. *)
Fixpoint splitFrom (r : re) (fuel : nat) (q : nat) (cur : str) (s : str)
  : list str :=
  match fuel with
  | O => [rev cur ++ s]
  | S f =>
      match s with
      | [] => [rev cur]
      | c :: s' =>
          match matchAt r q s with
          | None => splitFrom r f (S q) (c :: cur) s'
          | Some m =>
              if (last m =? q)%nat && (match cur with [] => true | _ => false end)
              then splitFrom r f (S q) (c :: cur) s'
              else rev cur :: splitFrom r f (last m) [] (after m)
          end
      end
  end.

Definition split (r : re) (s : str) : list str :=
  match s with
  | [] => match matchAt r 0 [] with Some _ => [] | None => [[]] end
  | _ => splitFrom r (2 * List.length s + 1) 0 [] s
  end.

(** The input from position [p] on without the matches; [fuel] as in
    [matchAllFrom]. *)
Fixpoint removeAllFrom (r : re) (fuel : nat) (p : nat) (s : str) : str :=
  match fuel with
  | O => s
  | S f =>
      match searchFrom r p s with
      | None => s
      | Some m =>
          firstn (index m - p) s ++
          (if (last m =? index m)%nat
           then match after m with
                | [] => []
                | c :: s' => c :: removeAllFrom r f (S (last m)) s'
                end
           else removeAllFrom r f (last m) (after m))
      end
  end.

(** [s.replace(r, empty)] with the [g] flag: every match is deleted. *)
Definition removeAll (r : re) (s : str) : str :=
  removeAllFrom r (S (List.length s)) 0 s.

(** [s.replace(r, empty)] without the [g] flag: the first match is deleted. *)
Definition removeFirst (r : re) (s : str) : str :=
  match exec r s with
  | None => s
  | Some m => firstn (index m) s ++ after m
  end.

End Regex.

(* ================================================================== *)
(** * server/utils/simple-spice.ts *)
(* ================================================================== *)

Module SimpleSpice.
Import Js Regex.
Local Open Scope N_scope.

(** ** Config *)

Definition DISPLAY_ONLY_TYPES : list str :=
  [js "oscilloscope"; js "node"; js "label"; js "measurement"; js "multimeter"].

(** [DISPLAY_ONLY_TYPES.has(x)] *)
Definition isDisplayOnly (x : str) : bool :=
  existsb (eqb_str x) DISPLAY_ONLY_TYPES.

Definition NetToNodeMap := obj N.

(** [OHM_CHARS = /[Ω]/g], the class; the [g] flag is in [removeAll]. *)
Definition OHM_CHARS : re := ch 937.

Definition normalizeNet (raw : option str) : str :=
  match raw with
  | None => []
  | Some r =>
      if negb (truthy r) then []
      else
        let s := trim r in
        let upper := toUpperCase s in
        if eqb_str upper (js "0") || eqb_str upper (js "GND")
           || eqb_str upper (js "GROUND") || eqb_str upper (js "AGND")
           || eqb_str upper (js "DGND")
        then js "0"
        else s
  end.

(** ** Quantities *)

(** The code units of the suffix class [[a-zA-Zµ]]. *)
Definition isSuffixChar (c : char) : bool := isAlpha c || (c =? 181).

(** [[+-]] and [[eE]] *)
Definition isSignChar (c : char) : bool := (c =? 43) || (c =? 45).
Definition isExpChar (c : char) : bool := (c =? 101) || (c =? 69).

(** The pattern of [parseValue], anchored at both ends: group 1 is an
    optional sign, [\d*\.?\d+] and an optional exponent [[eE][+-]?\d+]; group
    2 is a run of suffix letters [[a-zA-Zµ]]. *)
Definition valuePattern : re :=
  let sign := opt (cls isSignChar) in
  let digits1 := plus true (cls isDigit) in
  seqs [Bol;
        Group 1 (seqs [sign; Star true (cls isDigit); opt (ch 46); digits1;
                       opt (seqs [cls isExpChar; sign; digits1])]);
        Group 2 (Star true (cls isSuffixChar));
        Eol].

(** The factor of a lower-cased suffix. *)
Definition multiplier (suffix : str) : Num :=
  if eqb_str suffix (js "t") then Fin 1 12
  else if eqb_str suffix (js "g") then Fin 1 9
  else if eqb_str suffix (js "meg") then Fin 1 6
  else if eqb_str suffix (js "k") then Fin 1 3
  else if eqb_str suffix (js "m") then Fin 1 (-3)
  else if eqb_str suffix (js "u") || eqb_str suffix [181] then Fin 1 (-6)
  else if eqb_str suffix (js "n") then Fin 1 (-9)
  else if eqb_str suffix (js "p") then Fin 1 (-12)
  else if eqb_str suffix (js "f") then Fin 1 (-15)
  else Fin 1 0.

(** [parseValue(val, fallback)], for a value that is a string or absent. *)
Definition parseValue (val : option str) (fallback : Num) : Num :=
  match val with
  | None => fallback
  | Some v =>
      let s := removeAll OHM_CHARS (trim v) in
      let s := removeAll (plus true (cls isWhiteSpace)) (removeAll (ch 95) s) in
      match exec valuePattern s with
      | None =>
          let n := Number s in
          if isFinite n then n else fallback
      | Some m =>
          let numStr := group 1 (groups m) in
          let suffixRaw := group 2 (groups m) in
          let num := Number numStr in
          if negb (isFinite num) then fallback
          else
            let suffix := toLowerCase suffixRaw in
            mul num (multiplier suffix)
      end
  end.

(** ** Emitter helpers *)

(** [Math.max(...used)] for node indices. *)
Definition Math_max (used : list N) : N := fold_right N.max 0 used.

(** [touch(netName)] on the shared map: the node and the map afterwards. *)
Definition touch (netToNodeMap : NetToNodeMap) (netName : option str)
  : N * NetToNodeMap :=
  let n := normalizeNet (Some (or_else netName [])) in
  if negb (truthy n) || eqb_str n (js "0") then (0, netToNodeMap)
  else
    match lookup n netToNodeMap with
    | None =>
        let used := values netToNodeMap in
        let next := match used with
                    | [] => 1
                    | _ => Math_max used + 1
                    end in
        (next, put n next netToNodeMap)
    | Some i => (i, netToNodeMap)
    end.

(** [nodesOf(...names)]: the names are touched left to right. *)
Fixpoint nodesOf (netToNodeMap : NetToNodeMap) (names : list (option str))
  : list N * NetToNodeMap :=
  match names with
  | [] => ([], netToNodeMap)
  | n :: names' =>
      let (i, m1) := touch netToNodeMap n in
      let (nodes, m2) := nodesOf m1 names' in
      (i :: nodes, m2)
  end.

Definition sp : str := js " ".

(** The device line [<letter><ref> <nodes...> <tail>]. *)
Definition deviceLine (letter : str) (ref : str) (nodes : list N) (tail : str)
  : str :=
  letter ++ ref ++ sp ++ join sp (List.map N_toString nodes ++ [tail]).

Module E.
Definition res (m : NetToNodeMap) (ref a b : str) (value : option str) :=
  let (ns, m') := nodesOf m [Some a; Some b] in
  let ohms := parseValue value (Fin 1 3) in
  (deviceLine (js "R") ref ns (Num_toString ohms), m').

Definition cap (m : NetToNodeMap) (ref a b : str) (value : option str) :=
  let (ns, m') := nodesOf m [Some a; Some b] in
  let f := parseValue value (Fin 1 (-6)) in
  (deviceLine (js "C") ref ns (Num_toString f), m').

Definition diode (m : NetToNodeMap) (ref a b : str) (model : str) :=
  let (ns, m') := nodesOf m [Some a; Some b] in
  (deviceLine (js "D") ref ns model, m').

Definition vsource (m : NetToNodeMap) (ref p n : str) (value : option str) :=
  let (ns, m') := nodesOf m [Some p; Some n] in
  let v := parseValue value (Fin 5 0) in
  (js "V" ++ ref ++ sp ++ join sp (List.map N_toString ns)
      ++ js " DC " ++ Num_toString v, m').

Definition npn (m : NetToNodeMap) (ref c b e : str) (model : str) :=
  let (ns, m') := nodesOf m [Some c; Some b; Some e] in
  (deviceLine (js "Q") ref ns model, m').

Definition opamp (m : NetToNodeMap) (ref out neg pos vcc vee : str)
                 (model : str) :=
  let (ns, m') := nodesOf m [Some out; Some neg; Some pos; Some vcc; Some vee] in
  (deviceLine (js "X") ref ns model, m').
End E.

(** ** Main entry *)

Record Pin : Type := {
  net : str;
  polarity : option str;
  pin_comment : option str
}.

Record SimpleCircuitComponent : Type := {
  id : str;
  ref : str;
  kind : str;
  model : option str;
  type : option str;
  value : option str;
  pins : option (obj Pin);
  comment : option str
}.

(** [comp.pins?.[p]?.net] *)
Definition pinNet (comp : SimpleCircuitComponent) (p : string) : option str :=
  match pins comp with
  | None => None
  | Some ps => option_map net (lookup (js p) ps)
  end.
Arguments pinNet comp p%_string.

(** [a && b && ...] on optional strings. *)
Definition allTruthy (xs : list (option str)) : bool :=
  forallb (fun x => match x with Some s => truthy s | None => false end) xs.

Definition get (x : option str) : str :=
  match x with Some s => s | None => [] end.

(** Transistor model selection. *)
Definition pickBjtModel (component : SimpleCircuitComponent) : str :=
  let m := toUpperCase (or_else (model component) []) in
  if includes (js "BC549") m then js "BC549"
  else if includes (js "BC337") m then js "BC337"
  else if eqb_str (toUpperCase (ref component)) (js "Q4") then js "BC549"
  else js "BC337".

(** The state of the loop over the components. *)
Record GenState : Type := {
  netToNodeMap : NetToNodeMap;
  lines : list str
}.

Definition push (st : GenState) (r : str * NetToNodeMap) : GenState :=
  {| netToNodeMap := snd r; lines := lines st ++ [fst r] |}.

(** The inner loop of [case "node"]: each further net is normalised and, if it
    is neither blank nor ground, its entry is overwritten with the primary
    node. *)
Fixpoint mergeSecondary (m : NetToNodeMap) (primaryNode : N) (nets : list str)
  : NetToNodeMap :=
  match nets with
  | [] => m
  | x :: nets' =>
      let secondaryNet := normalizeNet (Some x) in
      let m' := if truthy secondaryNet && negb (eqb_str secondaryNet (js "0"))
                then put secondaryNet primaryNode m else m in
      mergeSecondary m' primaryNode nets'
  end.

(** The [switch (comp.kind)] of the loop body. *)
Definition emitKind (st : GenState) (comp : SimpleCircuitComponent) : GenState :=
  let m := netToNodeMap st in
  let k := kind comp in
  if eqb_str k (js "resistor") then
    let a := pinNet comp "1" in
    let b := pinNet comp "2" in
    if allTruthy [a; b]
    then push st (E.res m (or_else (Some (ref comp)) (js "R?")) (get a) (get b)
                        (Some (match value comp with Some v => v | None => js "1k" end)))
    else st
  else if eqb_str k (js "capacitor") then
    let a := pinNet comp "1" in
    let b := pinNet comp "2" in
    if allTruthy [a; b]
    then push st (E.cap m (or_else (Some (ref comp)) (js "C?")) (get a) (get b)
                        (Some (match value comp with Some v => v | None => js "1u" end)))
    else st
  else if eqb_str k (js "led") || eqb_str k (js "diode") then
    let a := pinNet comp "1" in
    let b := pinNet comp "2" in
    if allTruthy [a; b]
    then push st (E.diode m (or_else (Some (ref comp)) (js "D?")) (get a) (get b)
                          (or_else (model comp) (js "D1N4148")))
    else st
  else if eqb_str k (js "battery") then
    let p := pinNet comp "2" in
    let n := pinNet comp "1" in
    if allTruthy [p; n]
    then push st (E.vsource m (or_else (Some (ref comp)) (js "V?")) (get p) (get n)
                            (Some (match value comp with Some v => v | None => js "5" end)))
    else st
  else if eqb_str k (js "transistor") then
    let c := pinNet comp "C" in
    let b := pinNet comp "B" in
    let e := pinNet comp "E" in
    if allTruthy [c; b; e]
    then push st (E.npn m (or_else (Some (ref comp)) (js "Q?")) (get c) (get b) (get e)
                        (pickBjtModel comp))
    else st
  else if eqb_str k (js "node") then
    match pins comp with
    | Some ps =>
        let connectedNets := filter truthy (List.map net (values ps)) in
        match connectedNets with
        | primaryNet :: (_ :: _) as others =>
            let (primaryNode, m1) := touch m (Some primaryNet) in
            {| netToNodeMap := mergeSecondary m1 primaryNode others;
               lines := lines st |}
        | _ => st
        end
    | None => st
    end
  else st.

(** The body of [for (const comp of components)]. *)
Definition emitComponent (st : GenState) (comp : SimpleCircuitComponent)
  : GenState :=
  if isDisplayOnly (kind comp) || isDisplayOnly (or_else (type comp) [])
  then st
  else emitKind st comp.

(** The state after the loop: [makeEmitter] has reserved ground, the title
    and a blank line are pushed, then the components are visited in order. *)
Definition emitAll (components : list SimpleCircuitComponent) : GenState :=
  fold_left emitComponent components
            {| netToNodeMap := put (js "0") 0 []; lines := [js "Simple Circuit"; []] |}.

Definition noiseLines (m : NetToNodeMap) : list str :=
  match lookup (js "Q1E") m with
  | Some q1eNode =>
      [js "DNOISE 0 " ++ N_toString q1eNode
          ++ js " DZ6V8    ; Zener emulates avalanche breakdown";
       [];
       js "* Transient noise at Q1E node (deterministic sine for NGSpice compatibility)";
       js "VNOISE " ++ N_toString q1eNode ++ js " 0 SIN(0 0.001 1000)"]
  | None => []
  end.

(** The [v(n)] of every entry with a node above 0, in enumeration order. *)
Definition nodeList (m : NetToNodeMap) : list str :=
  List.map (fun e => js "v(" ++ N_toString (snd e) ++ js ")")
           (filter (fun e => 0 <? snd e) m).

Definition generateSimpleSpiceNetlist (components : list SimpleCircuitComponent)
  : str * NetToNodeMap :=
  let st := emitAll components in
  let m := netToNodeMap st in
  let all :=
    lines st
    ++ [[];
        js "* Zener-assisted avalanche breakdown at emitter node";
        js "* Q1 creates BE breakdown ~6-8V, zener provides realistic breakdown for noise"]
    ++ noiseLines m
    ++ [[];
        js "* --- BJT models ---";
        js ".model BC337 NPN (IS=1e-14 BF=200 VAF=100 NF=1 RB=100 RE=1 RC=1 CJE=5p VJE=0.7 CJC=3p VJC=0.3 TF=0.3n TR=10n KF=2e-14 AF=1)";
        js ".model BC549 NPN (IS=1e-14 BF=300 VAF=150 NF=1 RB=150 RE=1 RC=1 CJE=6p VJE=0.7 CJC=3p VJC=0.3 TF=0.25n TR=8n KF=5e-15 AF=1)";
        [];
        js "* --- Zener models ---";
        js ".model DZ6V8 D (IS=1e-14 N=1 BV=6.8 IBV=10u RS=10 KF=0 AF=1)";
        js ".model DZ4V7 D (IS=1e-14 N=1 BV=4.7 IBV=10u RS=10 KF=0 AF=1)";
        [];
        js "* Solver options for convergence stability";
        js ".options reltol=1e-3 abstol=1e-12 vntol=1e-6";
        js ".options gmin=1e-12 itl1=100 itl2=50";
        js ".options temp=27 tnom=27";
        [];
        js "* Analysis";
        js ".control";
        js "set filetype=ascii";
        js "op";
        js "print all";
        [];
        js "* Transient analysis with proper timestep for noise";
        js "tran 0.1us 5ms uic";
        js "wrdata tran.csv time " ++ join sp (nodeList m);
        js "print time " ++ join sp (nodeList m);
        js ".endc";
        js ".end"] in
  (join [10] all, m).

End SimpleSpice.

(* ================================================================== *)
(** * server/utils/units.ts *)
(* ================================================================== *)

Module Units.
Import Js Regex.
Local Open Scope N_scope.

(** A character of a class under the [i] flag: the code units with the same
    upper case, and for the capital omega also the small one (the ohm sign
    U+2126 has no upper case of its own and is not matched). *)
Definition sameLetter (x c : char) : bool :=
  (upperChar x =? upperChar c) || ((x =? 937) && (c =? 969)).

(** The class of the pattern that strips one trailing unit character,
    [[Ω Ohm|ohm|F|H|V|A]] with the flag [i]: a class, so its members are the
    single characters written in it, the bars included. *)
Definition isUnitClassChar (c : char) : bool :=
  existsb (fun x => sameLetter x c)
          (937 :: js "Ohm|ohm|F|H|V|A").

(** The own properties of the table [map]. *)
Definition siMap : obj Num :=
  [([], Fin 1 0);
   (js "k", Fin 1 3); (js "K", Fin 1 3);
   (js "m", Fin 1 (-3)); (js "M", Fin 1 6);
   (js "u", Fin 1 (-6)); ([181], Fin 1 (-6)); ([956], Fin 1 (-6));
   (js "n", Fin 1 (-9)); (js "N", Fin 1 (-9));
   (js "p", Fin 1 (-12)); (js "P", Fin 1 (-12));
   (js "f", Fin 1 (-15)); (js "F", Fin 1 (-15));
   (js "a", Fin 1 (-18)); (js "A", Fin 1 (-18));
   (js "g", Fin 1 9); (js "G", Fin 1 9);
   (js "t", Fin 1 12); (js "T", Fin 1 12)].

(** The properties [map] inherits from [Object.prototype] whose names a
    suffix can spell: functions, which as factors give [NaN]. *)
Definition inheritedNames : list str :=
  [js "constructor"; js "hasOwnProperty"; js "isPrototypeOf";
   js "propertyIsEnumerable"; js "toLocaleString"; js "toString";
   js "valueOf"].

(** [map[k]], as a factor; [None] for [undefined]. *)
Definition mapAt (k : str) : option Num :=
  match lookup k siMap with
  | Some v => Some v
  | None => if existsb (eqb_str k) inheritedNames then Some NaN else None
  end.

(** The number pattern of [parseSI], anchored at both ends: group 1 is an
    optional sign, [\d*\.?\d+] and an optional exponent with a small [e];
    group 2 is a run of letters and the two mu signs. *)
Definition siPattern : re :=
  let sign := opt (cls (fun c => (c =? 45) || (c =? 43))) in
  let digits1 := plus true (cls isDigit) in
  seqs [Bol;
        Group 1 (seqs [sign; Star true (cls isDigit); opt (ch 46); digits1;
                       opt (seqs [ch 101; sign; digits1])]);
        Group 2 (Star true (cls (fun c => isAlpha c || (c =? 181) || (c =? 956))));
        Eol].

(** [parseSI(raw)] *)
Definition parseSI (raw : option str) : Num :=
  match raw with
  | None => NaN
  | Some r =>
      if negb (truthy r) then NaN
      else
        let s0 := trim r in
        (* commas and spaces, then one trailing unit character, then every
           omega and every ohm or ohms *)
        let s := removeAll (plus true (cls (fun c => (c =? 44) || (c =? 32)))) s0 in
        let s := removeFirst (Seq (cls isUnitClassChar) Eol) s in
        let s := removeAll (Alt (cls (sameLetter 937))
                                (Seq (liti "ohm") (opt (chi 115)))) s in
        match exec siPattern s with
        | None => NaN
        | Some m =>
            let num := parseFloat (group 1 (groups m)) in
            let suf := group 2 (groups m) in
            let l := toLowerCase suf in
            let factor :=
              match mapAt l with
              | Some f => f
              | None => match mapAt suf with
                        | Some f => f
                        | None => Fin 1 0
                        end
              end in
            mul num factor
        end
  end.

End Units.

(* ================================================================== *)
(** * server/utils/ngspice-interface.ts : decoding the engine output *)
(* ================================================================== *)

Module NgSpice.
Import Js Regex.
Local Open Scope N_scope.

(** ** Numbers of the decoded result

    The result holds numbers read from text and one quotient
    ([voltage / resistance]); they are kept as exact rationals, with the
    same treatment of overflow as [Num]. *)

Inductive QNum : Set :=
| QNaN
| QInf (neg : bool)
| QFin (q : Q).

Definition mkQ (q : Q) : QNum :=
  if Qle_bool (inject_Z overflowBound) (Qabs q)
  then QInf (negb (Qle_bool 0 q))
  else QFin (Qred q).

Definition ofNum (x : Num) : QNum :=
  match x with
  | NaN => QNaN
  | Inf b => QInf b
  | Fin m e => QFin (Qred (inject_Z m * Qpower (inject_Z 10) e))
  end.

Definition zero : QNum := QFin 0.

(** [x / y] (the sign of a zero divisor is not tracked: it is taken
    positive). *)
Definition div (x y : QNum) : QNum :=
  match x, y with
  | QNaN, _ | _, QNaN => QNaN
  | QInf _, QInf _ => QNaN
  | QInf a, QFin q => QInf (xorb a (negb (Qle_bool 0 q)))
  | QFin _, QInf _ => zero
  | QFin p, QFin q =>
      if Qeq_bool q 0
      then (if Qeq_bool p 0 then QNaN else QInf (negb (Qle_bool 0 p)))
      else mkQ (p / q)
  end.

(** [Number.isFinite(x) ? x : 0] *)
Definition finiteOrZero (x : Num) : QNum :=
  if isFinite x then ofNum x else zero.

(** ** The result *)

Record TransientData : Type := {
  time : list QNum;
  voltages : obj (list QNum);
  currents : obj (list QNum)
}.

(** [NgSpiceResult]; [acData] and [noiseData] are never set by the file. *)
Record NgSpiceResult : Type := {
  success : bool;
  operatingPoint : option (obj QNum);
  netToNodeMap : option (obj N);
  transientData : option TransientData;
  error : option str
}.

(** ** Patterns *)

Definition ws : re := cls isWhiteSpace.
Definition digit : re := cls isDigit.
Definition notChar (c : char) : re := ncls (N.eqb c).

(** The class [[-\d.e+-]], without and with the [i] flag. *)
Definition isNumChar (c : char) : bool :=
  (c =? 45) || isDigit c || (c =? 46) || (c =? 101) || (c =? 43).
Definition isNumCharI (c : char) : bool := isNumChar c || (c =? 69).

(** [/v\(([^)]+)\)\s*=\s*([-\d.e+-]+)/i] *)
Definition reVoltageEq : re :=
  seqs [chi 118; ch 40; Group 1 (plus true (notChar 41)); ch 41;
        Star true ws; ch 61; Star true ws; Group 2 (plus true (cls isNumCharI))].

(** [/V\(([^)]+)\)\s+([-\d.e+-]+)/] *)
Definition reVoltageCol : re :=
  seqs [ch 86; ch 40; Group 1 (plus true (notChar 41)); ch 41;
        plus true ws; Group 2 (plus true (cls isNumChar))].

(** [/i\(([^)]+)\)\s*=\s*([-\d.e+-]+)/i] *)
Definition reCurrentEq : re :=
  seqs [chi 105; ch 40; Group 1 (plus true (notChar 41)); ch 41;
        Star true ws; ch 61; Star true ws; Group 2 (plus true (cls isNumCharI))].

(** [/([^#\s]+)#branch\s+([-\d.e+-]+)/] *)
Definition reBranch : re :=
  seqs [Group 1 (plus true (ncls (fun c => (c =? 35) || isWhiteSpace c)));
        lit "#branch"; plus true ws; Group 2 (plus true (cls isNumChar))].

(** [/^V\w+\s+(\d+)\s+(\d+)\s+DC\s+([\d.]+)/] *)
Definition reVsourceLine : re :=
  seqs [Bol; ch 86; plus true (cls isWord); plus true ws;
        Group 1 (plus true digit); plus true ws;
        Group 2 (plus true digit); plus true ws; lit "DC"; plus true ws;
        Group 3 (plus true (cls (fun c => isDigit c || (c =? 46))))].

(** [/^R\w+\s+(\d+)\s+(\d+)\s+([\d.]+k?)/] *)
Definition reResistorLine : re :=
  seqs [Bol; ch 82; plus true (cls isWord); plus true ws;
        Group 1 (plus true digit); plus true ws;
        Group 2 (plus true digit); plus true ws;
        Group 3 (Seq (plus true (cls (fun c => isDigit c || (c =? 46))))
                     (opt (ch 107)))].

(** The end of a block: [(?:\n\n|\n$)]. *)
Definition blockEnd : re := Alt (Seq (ch 10) (ch 10)) (Seq (ch 10) Eol).

(** [[\s\S]*?] *)
Definition lazyAny : re := Star false (cls (fun _ => true)).

(** The custom print format: a header [Index  time  v(n) ...], a line of
    dashes, then group 1, the rows up to the end of the block (flag [i]). *)
Definition reCustomFormat : re :=
  seqs [liti "Index"; plus true ws; liti "time"; plus true ws;
        chi 118; ch 40; plus true digit; ch 41;
        Star true (cls (fun c => isWhiteSpace c || isWord c
                                 || (c =? 40) || (c =? 41)));
        ch 10; plus true (ch 45); ch 10; Group 1 lazyAny; blockEnd].

(** [/plotname:\s*Transient Analysis/i] *)
Definition rePlotname : re :=
  seqs [liti "plotname:"; Star true ws; liti "Transient Analysis"].

(** [/Variables:\s*\n([\s\S]*?)\nValues:/i] *)
Definition reVariables : re :=
  seqs [liti "Variables:"; Star true ws; ch 10; Group 1 lazyAny;
        ch 10; liti "Values:"].

(** [/Values:\s*\n([\s\S]*?)(?:\n\n|\n$)/i] *)
Definition reValues : re :=
  seqs [liti "Values:"; Star true ws; ch 10; Group 1 lazyAny; blockEnd].

(** [/\r?\n/] and [/\s+/] *)
Definition reNewline : re := Seq (opt (ch 13)) (ch 10).
Definition reSpaces : re := plus true ws.

(** [/^\d+\s+([^\s]+)\s+/] *)
Definition reVarLine : re :=
  seqs [Bol; plus true digit; plus true ws;
        Group 1 (plus true (ncls isWhiteSpace)); plus true ws].

(** [/^v\((\d+)\)$/] *)
Definition reVoltageName : re :=
  seqs [Bol; ch 118; ch 40; Group 1 (plus true digit); ch 41; Eol].

(** A leading run of digits (group 1, [\d+]) and the rest of the line
    (group 2, [.*]), anchored at both ends. *)
Definition reIndexRest : re :=
  seqs [Bol; Group 1 (plus true digit); Group 2 (Star true dot); Eol].

(** An optional sign [[+-]?], then [\d+\.\d+] or else [\d+\.?\d*], then an
    optional exponent [e[+-]?\d+]; flags [i] and [g]. *)
Definition numRe : re :=
  let sign := opt (cls (fun c => (c =? 43) || (c =? 45))) in
  seqs [sign;
        Alt (seqs [plus true digit; ch 46; plus true digit])
            (seqs [plus true digit; opt (ch 46); Star true digit]);
        opt (seqs [chi 101; sign; plus true digit])].

(** ** Row tokenizer and custom format *)

Record Tokens : Type := {
  index : Num;
  tokens : list Num
}.

Definition tokenizeConcatenatedLine (line : str) : option Tokens :=
  let s := trim line in
  if negb (truthy s) then None
  else
    match exec reIndexRest s with
    | None => None
    | Some m =>
        let index := Number (group 1 (groups m)) in
        let rest := group 2 (groups m) in
        let matches := matchAll numRe rest in
        let values := filter isFinite (List.map Number matches) in
        Some {| index := index; tokens := values |}
    end.

(** [voltages[k].push(v)], creating the array when the key is absent. *)
Definition pushAt (k : str) (v : QNum) (o : obj (list QNum)) : obj (list QNum) :=
  match lookup k o with
  | Some xs => put k (xs ++ [v]) o
  | None => put k [v] o
  end.

(** [if (!o[k]) o[k] = []] *)
Definition ensure (k : str) (o : obj (list QNum)) : obj (list QNum) :=
  match lookup k o with
  | Some _ => o
  | None => put k [] o
  end.

(** [if (o[k]) o[k].push(0)] *)
Definition padAt (k : str) (o : obj (list QNum)) : obj (list QNum) :=
  match lookup k o with
  | Some xs => put k (xs ++ [zero]) o
  | None => o
  end.

(** The numbers [lo, lo+1, ..., lo+n-1] as keys. *)
Definition keyRange (lo : nat) (n : nat) : list str :=
  List.map (fun i => N_toString (N.of_nat i)) (seq lo n).

Record CustomState : Type := {
  c_time : list QNum;
  c_voltages : obj (list QNum);
  pointCount : nat;
  maxNodeCount : nat
}.

(** One row of the custom format. *)
Definition customRow (st : CustomState) (line : str) : CustomState :=
  let trimmed := trim line in
  if negb (truthy trimmed) || startsWith (js "Index") trimmed then st
  else
    match tokenizeConcatenatedLine trimmed with
    | Some {| tokens := timeVal :: (_ :: _) as nodeVoltages |} =>
        if isFinite timeVal then
          let nodeCount := List.length nodeVoltages in
          let grown := (maxNodeCount st <? nodeCount)%nat in
          let maxNodeCount' := if grown then nodeCount else maxNodeCount st in
          let v0 := if grown
                    then fold_left (fun o k => ensure k o)
                                   (keyRange 1 nodeCount) (c_voltages st)
                    else c_voltages st in
          let v1 := fold_left (fun o kv => pushAt (fst kv) (finiteOrZero (snd kv)) o)
                              (combine (keyRange 1 nodeCount) nodeVoltages) v0 in
          let v2 := fold_left (fun o k => padAt k o)
                              (keyRange (S nodeCount) (maxNodeCount' - nodeCount))
                              v1 in
          {| c_time := c_time st ++ [ofNum timeVal];
             c_voltages := v2;
             pointCount := S (pointCount st);
             maxNodeCount := maxNodeCount' |}
        else st
    | _ => st
    end.

Definition parseCustomTransientFormat (dataLines : str) : option TransientData :=
  let st := fold_left customRow (split reNewline dataLines)
                      {| c_time := []; c_voltages := [];
                         pointCount := 0; maxNodeCount := 0 |} in
  if (100 <? pointCount st)%nat
  then Some {| time := c_time st; voltages := c_voltages st; currents := [] |}
  else None.

(** ** Variables / Values format *)

(** [xs.findIndex(p)], [None] for -1. *)
Fixpoint findIndex (p : str -> bool) (xs : list str) : option nat :=
  match xs with
  | [] => None
  | x :: xs' => if p x then Some O
                else option_map S (findIndex p xs')
  end.

(** [cols[i]], [None] when out of range ([Number(undefined)] is [NaN]). *)
Definition NumberAt (cols : list str) (i : nat) : Num :=
  match nth_error cols i with
  | Some c => Number c
  | None => NaN
  end.

Definition parseTransientData (output : str) : option TransientData :=
  match exec reCustomFormat output with
  | Some customFormatMatch =>
      parseCustomTransientFormat (group 1 (groups customFormatMatch))
  | None =>
      if negb (test rePlotname output) then None
      else
        match exec reVariables output, exec reValues output with
        | Some varsBlockMatch, Some valuesBlockMatch =>
            let varLines :=
              filter truthy
                     (List.map trim (split reNewline (group 1 (groups varsBlockMatch)))) in
            let indexToName :=
              flat_map (fun line =>
                          match exec reVarLine line with
                          | Some m => [toLowerCase (group 1 (groups m))]
                          | None => []
                          end) varLines in
            match findIndex (fun n => eqb_str n (js "time")) indexToName with
            | None => None
            | Some timeIdx =>
                let voltageIndices : obj nat :=
                  fold_left (fun o ni =>
                               match exec reVoltageName (fst ni) with
                               | Some m => put (group 1 (groups m)) (snd ni) o
                               | None => o
                               end)
                            (combine indexToName (seq 0 (List.length indexToName)))
                            [] in
                let voltages0 : obj (list QNum) :=
                  fold_left (fun o e => put (fst e) [] o) voltageIndices [] in
                let row (acc : list QNum * obj (list QNum)) (r : str) :=
                  let cols := split reSpaces (trim r) in
                  if negb (List.length cols =? List.length indexToName)%nat then acc
                  else
                    let t := NumberAt cols timeIdx in
                    if negb (isFinite t) then acc
                    else
                      (fst acc ++ [ofNum t],
                       fold_left (fun o e =>
                                    pushAt (fst e) (finiteOrZero (NumberAt cols (snd e))) o)
                                 voltageIndices (snd acc)) in
                let (time, voltages) :=
                  fold_left row (split reNewline (group 1 (groups valuesBlockMatch)))
                            ([], voltages0) in
                Some {| time := time; voltages := voltages; currents := [] |}
            end
        | _, _ => None
        end
  end.

(** ** Operating point *)

(** The part of a result [parseNgSpiceOutput] fills in. *)
Record PartialResult : Type := {
  p_operatingPoint : option (obj QNum);
  p_transientData : option TransientData
}.

(** One line of the operating-point scan: the first pattern that matches
    sets its entry. *)
Definition scanLine (operatingPoint : obj QNum) (line : str) : obj QNum :=
  let entry (prefix : string) (m : match_result) :=
    put (js prefix ++ group 1 (groups m))
        (ofNum (parseFloat (group 2 (groups m)))) operatingPoint in
  match exec reVoltageEq line with
  | Some m => entry "v_"%string m
  | None =>
  match exec reVoltageCol line with
  | Some m => entry "v_"%string m
  | None =>
  match exec reCurrentEq line with
  | Some m => entry "i_"%string m
  | None =>
  match exec reBranch line with
  | Some m => entry "i_"%string m
  | None => operatingPoint
  end end end end.

Definition parseNgSpiceOutput (output : str) : PartialResult :=
  let operatingPoint := fold_left scanLine (split_char 10 output) [] in
  match operatingPoint with
  | [] => {| p_operatingPoint := None; p_transientData := None |}
  | _ => {| p_operatingPoint := Some operatingPoint;
            p_transientData := parseTransientData output |}
  end.

(** ** Analytic fallback *)

Record Source : Type := { value : Num; pos_node : Num; neg_node : Num }.
Record Resistor : Type := { r_value : Num; node1 : Num; node2 : Num }.

(** The scan of the deck: the last voltage-source line and the last resistor
    line that match. *)
Definition scanDeckLine (acc : option Source * option Resistor) (line : str)
  : option Source * option Resistor :=
  let trimmed := trim line in
  let voltage_source :=
    match exec reVsourceLine trimmed with
    | Some vMatch =>
        Some {| value := parseFloat (group 3 (groups vMatch));
                pos_node := parseInt (group 1 (groups vMatch));
                neg_node := parseInt (group 2 (groups vMatch)) |}
    | None => fst acc
    end in
  let resistor :=
    match exec reResistorLine trimmed with
    | Some rMatch =>
        let v := parseFloat (group 3 (groups rMatch)) in
        let v := if includes (js "k") (group 3 (groups rMatch))
                 then mul v (Fin 1 3) else v in
        Some {| r_value := v;
                node1 := parseInt (group 1 (groups rMatch));
                node2 := parseInt (group 2 (groups rMatch)) |}
    | None => snd acc
    end in
  (voltage_source, resistor).

Definition scanDeck (netlist : str) : option Source * option Resistor :=
  fold_left scanDeckLine (split_char 10 netlist) (None, None).

(** [performBasicCircuitAnalysis()], given [this.lastNetlist]. *)
Definition performBasicCircuitAnalysis (lastNetlist : option str)
  : obj QNum * TransientData :=
  match lastNetlist with
  | None => ([], {| time := []; voltages := []; currents := [] |})
  | Some netlist =>
      let '(operatingPoint, voltages, currents) :=
        match scanDeck netlist with
        | (Some voltage_source, Some resistor) =>
            let voltage := ofNum (value voltage_source) in
            let resistance := ofNum (r_value resistor) in
            let current := div voltage resistance in
            let p := Num_toString (pos_node voltage_source) in
            let n := Num_toString (neg_node voltage_source) in
            (put (js "i_vv1") current
                 (put (js "v_" ++ n) zero (put (js "v_" ++ p) voltage [])),
             put n [zero; zero] (put p [voltage; voltage] []),
             put (js "vv1") [current; current] [])
        | _ => ([], [], [])
        end in
      (operatingPoint,
       {| time := [zero; QFin (1 # 1000)];
          voltages := voltages; currents := currents |})
  end.

(** ** Result assembly *)

Definition Z_toString (z : Z) : str :=
  (if (z <? 0)%Z then js "-" else []) ++ N_toString (Z.abs_N z).

Definition fromFallback (lastNetlist : option str) : NgSpiceResult :=
  let (operatingPoint, transientData) := performBasicCircuitAnalysis lastNetlist in
  {| success := true;
     operatingPoint := Some operatingPoint;
     netToNodeMap := None;
     transientData := Some transientData;
     error := None |}.

(** The [close] handler of [runNgSpice]. *)
Definition onClose (lastNetlist : option str) (code : Z) (stdout stderr : str)
  : NgSpiceResult :=
  if negb (code =? 0)%Z then
    {| success := false; operatingPoint := None; netToNodeMap := None;
       transientData := None;
       error := Some (js "NGSpice exited with code " ++ Z_toString code
                         ++ js ": " ++ stderr) |}
  else
    let result := parseNgSpiceOutput stdout in
    let transientData := parseTransientData stdout in
    let attached :=
      match transientData with
      | Some td => if (2 <? List.length (time td))%nat then Some td
                   else p_transientData result
      | None => p_transientData result
      end in
    match p_operatingPoint result with
    | None | Some [] => fromFallback lastNetlist
    | Some operatingPoint =>
        {| success := true;
           operatingPoint := Some operatingPoint;
           netToNodeMap := None;
           transientData := attached;
           error := None |}
    end.

(** What the engine process did: it closed with an exit code and its two
    output streams, or it could not be started. *)
Inductive Outcome : Type :=
| Closed (code : Z) (stdout stderr : str)
| SpawnError (message : str).

Definition runNgSpice (lastNetlist : option str) (o : Outcome) : NgSpiceResult :=
  match o with
  | Closed code stdout stderr => onClose lastNetlist code stdout stderr
  | SpawnError message =>
      {| success := false; operatingPoint := None; netToNodeMap := None;
         transientData := None;
         error := Some (js "Failed to start NGSpice: " ++ message) |}
  end.

(** [simulate(components)], for an engine run with outcome [o]. *)
Definition simulate (components : list SimpleSpice.SimpleCircuitComponent)
                    (o : Outcome) : NgSpiceResult :=
  let (netlist, map) := SimpleSpice.generateSimpleSpiceNetlist components in
  let result := runNgSpice (Some netlist) o in
  if success result
  then {| success := success result;
          operatingPoint := operatingPoint result;
          netToNodeMap := Some map;
          transientData := transientData result;
          error := error result |}
  else result.

End NgSpice.

(* ================================================================== *)
(** * Sample circuits and engine outputs *)
(* ================================================================== *)

Module Examples.
Import Js SimpleSpice.

Definition pin (n : string) : Pin :=
  {| net := js n; polarity := None; pin_comment := None |}.

(** A component with the given kind, reference, value and pin table (pin
    label, net name). *)
Definition part (k r : string) (v : option string) (ps : list (string * string))
  : SimpleCircuitComponent :=
  {| id := js r; ref := js r; kind := js k; model := None; type := None;
     value := option_map js v;
     pins := Some (fold_left (fun o p => put (js (fst p)) (pin (snd p)) o) ps []);
     comment := None |}.

(** A resistor between net A and ground. *)
Definition R1 : SimpleCircuitComponent :=
  part "resistor" "R1" (Some "1k"%string) [("1", "A"); ("2", "GND")]%string.

(** A junction bridging the nets A and B. *)
Definition N1 : SimpleCircuitComponent :=
  part "node" "N1" None [("1", "A"); ("2", "B")]%string.

(** A 5 V source and a 1 kilo-ohm resistor across it. *)
Definition V1 : SimpleCircuitComponent :=
  part "battery" "V1" (Some "5"%string) [("1", "GND"); ("2", "VCC")]%string.
Definition R2 : SimpleCircuitComponent :=
  part "resistor" "R2" (Some "1k"%string) [("1", "VCC"); ("2", "GND")]%string.

(** A second resistor across the source. *)
Definition R4 : SimpleCircuitComponent :=
  part "resistor" "R4" (Some "1k"%string) [("1", "VCC"); ("2", "GND")]%string.

(** The 5 V source without a reference. *)
Definition Vanon : SimpleCircuitComponent :=
  part "battery" "" (Some "5"%string) [("1", "GND"); ("2", "VCC")]%string.

(** A resistor whose first pin carries a net name of two spaces. *)
Definition Rblank : SimpleCircuitComponent :=
  part "resistor" "R3" (Some "1k"%string) [("1", "  "); ("2", "OUT")]%string.

(** An engine output with nothing to decode. *)
Definition noData : str := js "Warning: singular matrix".

(** The row quoted in [parseCustomTransientFormat]. *)
Definition concatenatedRow : str :=
  js "4999994.999830e-024.999830e-025.000000e+00".

(** An engine output with one operating-point line and a transient block, in
    the Variables / Values format, of a single row. *)
Definition shortTransient : str :=
  js "v(1) = 5.000000e+00
Plotname: Transient Analysis
Variables:
0 time time
1 v(1) voltage
Values:
0.0 5.0
".

End Examples.

(* ================================================================== *)
(** * Vocabulary of the properties *)
(* ================================================================== *)

Module Spec.
Import Js SimpleSpice.
Local Open Scope N_scope.

(** ** The node map *)

(** The index [touch] gives to a name it has not seen. *)
Definition nextIndex (m : NetToNodeMap) : N :=
  match values m with
  | [] => 1
  | used => Math_max used + 1
  end.

(** The invariant of the map while it is built: ground is node 0, no key
    and no index occurs twice, and the indices are those below the number
    of entries. *)
Definition Inv (m : NetToNodeMap) : Prop :=
  lookup (js "0") m = Some 0
  /\ NoDup (keys m)
  /\ NoDup (values m)
  /\ forall v, In v (values m) <-> v < N.of_nat (List.length m).

(** ** Emitted kinds *)

(** The pins the loop reads for a kind it emits, in the order their nets are
    touched. *)
Definition requiredPins (k : str) : option (list string) :=
  if eqb_str k (js "resistor") then Some ["1"; "2"]%string
  else if eqb_str k (js "capacitor") then Some ["1"; "2"]%string
  else if eqb_str k (js "led") || eqb_str k (js "diode") then Some ["1"; "2"]%string
  else if eqb_str k (js "battery") then Some ["2"; "1"]%string
  else if eqb_str k (js "transistor") then Some ["C"; "B"; "E"]%string
  else None.

(** ** Quantities *)

(** A sign: nothing, [+] or [-]. *)
Definition isSign (s : str) : Prop := s = [] \/ s = js "+" \/ s = js "-".

Definition allDigits (s : str) : Prop := forallb isDigit s = true.

(** A fraction: nothing, or a point and at least one digit. *)
Definition isFraction (fr : str) : Prop :=
  fr = [] \/ exists fd, fd <> [] /\ allDigits fd /\ fr = 46 :: fd.

(** An exponent: nothing, or [e] or [E], a sign and at least one digit. *)
Definition isExponent (ex : str) : Prop :=
  ex = [] \/
  exists c sg xd, (c = 101 \/ c = 69) /\ isSign sg /\ xd <> [] /\ allDigits xd
                  /\ ex = c :: sg ++ xd.

(** A numeric mantissa string: sign, integer digits, fraction, exponent,
    with a digit before or after the point. *)
Inductive Mantissa : str -> Prop :=
| mantissa sgn ip fr ex :
    isSign sgn -> allDigits ip -> isFraction fr -> (ip <> [] \/ fr <> []) ->
    isExponent ex ->
    Mantissa (sgn ++ ip ++ fr ++ ex).

(** The suffixes with a factor other than 1, lower-cased, and the power of
    ten of each. *)
Definition siTable : list (str * Z) :=
  [(js "t", 12); (js "g", 9); (js "meg", 6); (js "k", 3); (js "m", -3);
   (js "u", -6); ([181%N], -6); (js "n", -9); (js "p", -12); (js "f", -15)]%Z.

(** The first character of [s], if any, is not in the class [p]. *)
Definition headNot (p : char -> bool) (s : str) : Prop :=
  match s with
  | [] => True
  | c :: _ => p c = false
  end.

(** A step of a match moves the position by what it takes off the input. *)
Definition conserves (st st' : Regex.mstate) : Prop :=
  (Regex.pos st' + List.length (Regex.rest st')
   = Regex.pos st + List.length (Regex.rest st))%nat.

(** The first way a pattern matches: the head of the list of [Regex.run]. *)
Definition heads (l : list Regex.mstate) (st : Regex.mstate) : Prop :=
  exists t, l = st :: t.

(** The code units [parseValue] removes before it matches: white space, the
    ohm sign and the underscore. *)
Definition isNoise (c : char) : bool :=
  isWhiteSpace c || (c =? 937) || (c =? 95).

Definition quiet (s : str) : Prop :=
  forallb (fun c => negb (isNoise c)) s = true.


(** ** Results *)

(** No strategy decodes anything that is accepted: the operating-point scan
    of the output finds nothing, and [parseTransientData] gives no series of
    more than two time points. *)
Definition decodesNothing (stdout : str) : bool :=
  match NgSpice.p_operatingPoint (NgSpice.parseNgSpiceOutput stdout) with
  | None => true
  | Some _ => false
  end
  && match NgSpice.parseTransientData stdout with
     | Some td => (List.length (NgSpice.time td) <=? 2)%nat
     | None => true
     end.

(** A line of a DC voltage source, and a line of a resistor. *)
Definition isSourceLine (l : str) : bool :=
  startsWith (js "V") l && includes (js " DC ") l.
Definition isResistorLine (l : str) : bool := startsWith (js "R") l.

(** The deck is one DC voltage source and one resistor: the loop has written
    two device lines, one of each, and there are no noise devices. *)
Definition oneSourceOneResistor (comps : list SimpleCircuitComponent) : bool :=
  let st := emitAll comps in
  match skipn 2 (lines st), noiseLines (netToNodeMap st) with
  | [a; b], [] =>
      (isSourceLine a && isResistorLine b) || (isResistorLine a && isSourceLine b)
  | _, _ => false
  end.

End Spec.

(* ================================================================== *)
(** * server/utils/ngspice-interface.ts : the deck handed to the engine *)
(* ================================================================== *)

Module Runner.
Import Js Regex.
Local Open Scope N_scope.

(** The pattern of [ensureSingleEnd], with the flag [i]: an optional line
    feed, the card [.end], white space up to the end of the text. *)
Definition reTrailingEnd : re :=
  seqs [opt (ch 10); chi 46; chi 101; chi 110; chi 100;
        Star true (cls isWhiteSpace); Eol].

(** [ensureSingleEnd(src)] of [runNgSpice]. *)
Definition ensureSingleEnd (src : str) : str :=
  let noTrailingEnd := removeFirst reTrailingEnd src in
  trimEnd noTrailingEnd ++ 10 :: js ".end" ++ [10].

End Runner.

(* ================================================================== *)
(** * server/routes/ngspice-simulation.ts *)
(* ================================================================== *)

Module Route.
Import Js NgSpice.
Local Open Scope N_scope.

Record AcData : Type := {
  frequency : list QNum;
  magnitude : obj (list QNum);
  phase : obj (list QNum)
}.

Record NoiseData : Type := {
  n_frequency : list QNum;
  outputNoise : list QNum;
  inputNoise : list QNum
}.

(** The [data] of a successful answer. *)
Record SimulationData : Type := {
  d_operatingPoint : obj QNum;
  d_netToNodeMap : obj N;
  d_transientData : TransientData;
  d_acData : AcData;
  d_noiseData : NoiseData
}.

(** The JSON body of an answer of the handler: [{error, details}], or
    [{success: true, data}]. *)
Inductive Body : Type :=
| Failed (error : str) (details : option str)
| Succeeded (data : SimulationData).

Record Response : Type := {
  status : N;
  body : Body
}.

(** [x || d] for a value that is an object or [undefined]. *)
Definition orDefault (A : Type) (x : option A) (d : A) : A :=
  match x with Some v => v | None => d end.

(** The handler of [POST /simulate], for a request body that passed the
    schema and an engine run with outcome [o]. *)
Definition postSimulate (components : list SimpleSpice.SimpleCircuitComponent)
                        (o : Outcome) : Response :=
  let result := simulate components o in
  if negb (success result) then
    {| status := 400;
       body := Failed (js "Simulation failed") (error result) |}
  else
    {| status := 200;
       body := Succeeded
         {| d_operatingPoint := orDefault (operatingPoint result) [];
            d_netToNodeMap := orDefault (netToNodeMap result) [];
            d_transientData :=
              orDefault (transientData result)
                        {| time := []; voltages := []; currents := [] |};
            d_acData := {| frequency := []; magnitude := []; phase := [] |};
            d_noiseData := {| n_frequency := []; outputNoise := [];
                              inputNoise := [] |} |} |}.

End Route.

(* ================================================================== *)
(** * server/storage.ts *)
(* ================================================================== *)

Module Storage.
Import Js.

Section MemStorage.
(** The [jsonb] payload of a circuit, and time stamps. *)
Variables Json Date : Type.

(** [InsertCircuit]: the description may be absent, [null] or a string. *)
Record InsertCircuit : Type := {
  i_name : str;
  i_description : option (option str);
  i_data : Json
}.

Record Circuit : Type := {
  id : str;
  name : str;
  description : option str;
  data : Json;
  createdAt : option Date;
  updatedAt : option Date
}.

(** [Map<string, Circuit>]: the entries in insertion order. *)
Definition Circuits := list (str * Circuit).

(** [m.set(k, v)]: an existing key keeps its place. *)
Definition Map_set (k : str) (v : Circuit) (m : Circuits) : Circuits :=
  if has k m then update k v m else m ++ [(k, v)].

(** [m.delete(k)]: was the key there, and the map without it. *)
Definition Map_delete (k : str) (m : Circuits) : bool * Circuits :=
  (has k m, filter (fun e => negb (eqb_str k (fst e))) m).

Definition getAllCircuits (circuits : Circuits) : list Circuit :=
  values circuits.

Definition getCircuit (circuits : Circuits) (id : str) : option Circuit :=
  lookup id circuits.

(** [createCircuit(insertCircuit)], with the identifier [randomUUID()]
    returned and the two dates read. *)
Definition createCircuit (circuits : Circuits) (insertCircuit : InsertCircuit)
                         (uuid : str) (now1 now2 : Date)
  : Circuit * Circuits :=
  let circuit :=
    {| id := uuid;
       name := i_name insertCircuit;
       description := match i_description insertCircuit with
                      | Some (Some d) => if truthy d then Some d else None
                      | _ => None
                      end;
       data := i_data insertCircuit;
       createdAt := Some now1;
       updatedAt := Some now2 |} in
  (circuit, Map_set uuid circuit circuits).

(** [updateCircuit(id, updates)]: the fields of [updates] replace those of
    the stored circuit, a description only when [updates] has one. *)
Definition updateCircuit (circuits : Circuits) (id0 : str)
                         (updates : InsertCircuit) (now : Date)
  : option Circuit * Circuits :=
  match lookup id0 circuits with
  | None => (None, circuits)
  | Some existing =>
      let updated :=
        {| id := id existing;
           name := i_name updates;
           description := match i_description updates with
                          | Some d => d
                          | None => description existing
                          end;
           data := i_data updates;
           createdAt := createdAt existing;
           updatedAt := Some now |} in
      (Some updated, Map_set id0 updated circuits)
  end.

Definition deleteCircuit (circuits : Circuits) (id0 : str) : bool * Circuits :=
  Map_delete id0 circuits.

End MemStorage.
End Storage.

(* ================================================================== *)
(** * Further sample circuits and engine outputs *)
(* ================================================================== *)

Module Samples.
Import Js SimpleSpice.

(** A resistor with nothing on pin 2. *)
Definition Ropen : SimpleCircuitComponent :=
  Examples.part "resistor" "R4" (Some "1k"%string) [("1", "A")]%string.

(** An engine output with one operating-point line. *)
Definition onePoint : str := js "v(1) = 5.0".

(** The rows of a custom-format block: 101 times the row [7 1.5 2.5]. *)
Definition longRows : str := List.concat (repeat (js "7 1.5 2.5" ++ [10%N]) 101).

(** What [parseTransientData] makes of [Examples.shortTransient]. *)
Definition shortSeries : NgSpice.TransientData :=
  {| NgSpice.time := [NgSpice.QFin 0];
     NgSpice.voltages := [(js "1", [NgSpice.QFin 5])];
     NgSpice.currents := [] |}.

End Samples.

(* ================================================================== *)
(** * Vocabulary of the further properties *)
(* ================================================================== *)

Module Terms.
Import Js SimpleSpice.
Local Open Scope N_scope.

Definition str_eq_dec : forall a b : str, {a = b} + {a <> b} :=
  list_eq_dec N.eq_dec.

(** ** The loop over the components *)

(** A component the loop does something with: neither its kind nor its type
    is display-only, and its kind is one of the emitted ones. *)
Definition isEmitted (comp : SimpleCircuitComponent) : bool :=
  negb (isDisplayOnly (kind comp) || isDisplayOnly (or_else (type comp) []))
  && match Spec.requiredPins (kind comp) with Some _ => true | None => false end.

(** The pin [p] of the component carries a non-empty net name. *)
Definition wired (comp : SimpleCircuitComponent) (p : string) : bool :=
  match pinNet comp p with Some s => truthy s | None => false end.

(** A component the loop writes a line for: it is not display-only, its
    kind is one of the emitted ones, and every pin its case reads carries a
    non-empty net name. *)
Definition emits (comp : SimpleCircuitComponent) : bool :=
  isEmitted comp
  && match Spec.requiredPins (kind comp) with
     | Some ps => forallb (wired comp) ps
     | None => false
     end.

(** The vector [v(n)] of the control lines. *)
Definition vLabel (n : N) : str := js "v(" ++ N_toString n ++ js ")".

(** ** Decoded results *)

(** Every voltage series has one sample per time point. *)
Definition aligned (td : NgSpice.TransientData) : Prop :=
  forall k xs, lookup k (NgSpice.voltages td) = Some xs ->
               List.length xs = List.length (NgSpice.time td).

(** A key of an operating point: [v_] or [i_] and a name. *)
Definition labelled (k : str) : Prop :=
  exists name, k = js "v_" ++ name \/ k = js "i_" ++ name.

(** The state of the loop over the rows of a Values block: every name of
    [vi] has a series, as long as the time vector, and there is no other
    series. *)
Definition rowsInv (vi : obj nat) (acc : list NgSpice.QNum * obj (list NgSpice.QNum))
  : Prop :=
  forall k,
    (In k (keys vi) ->
     exists xs, lookup k (snd acc) = Some xs
                /\ List.length xs = List.length (fst acc))
    /\ (~ In k (keys vi) -> lookup k (snd acc) = None).

(** The time of a row of the custom format that is counted: the row is not
    blank and does not start with Index, the tokenizer gives a time and at
    least one voltage, and the time is finite. *)
Definition rowTime (line : str) : option NgSpice.QNum :=
  let trimmed := trim line in
  if negb (truthy trimmed) || startsWith (js "Index") trimmed then None
  else
    match NgSpice.tokenizeConcatenatedLine trimmed with
    | Some {| NgSpice.tokens := timeVal :: _ :: _ |} =>
        if isFinite timeVal then Some (NgSpice.ofNum timeVal) else None
    | _ => None
    end.

(** The times of the counted rows of a text, in order. *)
Definition rowTimes (dataLines : str) : list NgSpice.QNum :=
  flat_map (fun line => match rowTime line with Some t => [t] | None => [] end)
           (Regex.split NgSpice.reNewline dataLines).

(** ** The deck *)

(** The card [.end], in any case, then white space only. *)
Definition endCard (s : str) : bool :=
  match s with
  | a :: b :: c :: d :: w =>
      (upperChar a =? upperChar 46) && (upperChar b =? upperChar 101)
      && (upperChar c =? upperChar 110) && (upperChar d =? upperChar 100)
      && forallb isWhiteSpace w
  | _ => false
  end.

(** ** The circuit store *)

(** Every circuit is stored under its own identifier, once. *)
Definition consistent (Json Date : Type) (circuits : Storage.Circuits Json Date)
  : Prop :=
  NoDup (keys circuits)
  /\ forall k c, lookup k circuits = Some c -> Storage.id c = k.

End Terms.

(* ================================================================== *)
(** * Number methods used by server/utils/units.ts *)
(* ================================================================== *)

Module JsNumber.
Import Js.
Local Open Scope Z_scope.

(** [Math.abs(x)] *)
Definition abs (x : Num) : Num :=
  match x with
  | NaN => NaN
  | Inf _ => Inf false
  | Fin m e => Fin (Z.abs m) e
  end.

(** [x >= y] *)
Definition geb (x y : Num) : bool :=
  match x, y with
  | NaN, _ | _, NaN => false
  | Inf a, Inf b => negb a || b
  | Inf a, Fin _ _ => negb a
  | Fin _ _, Inf b => b
  | Fin m1 e1, Fin m2 e2 =>
      if e2 <=? e1 then m2 <=? m1 * 10 ^ (e1 - e2)
      else m2 * 10 ^ (e2 - e1) <=? m1
  end.

(** [isNaN(x)] *)
Definition isNaN (x : Num) : bool :=
  match x with NaN => true | _ => false end.

(** [x / 10^k] for the literal [1e<k>]: exact in decimals. *)
Definition div10 (x : Num) (k : Z) : Num :=
  match x with
  | Fin m e => mkFin m (e - k)
  | _ => x
  end.

(** The integer nearest to [a / 10^d], for [a] not negative; of two, the
    larger. *)
Definition roundDiv10 (a d : Z) : Z :=
  if d <=? 0 then a * 10 ^ (- d)
  else (2 * a + 10 ^ d) / (2 * 10 ^ d).

(** [x.toFixed(f)], on the exact decimal: the digits are those of the
    decimal value rounded to [f] places, where the code rounds the binary64
    value, which can differ in the last place when the value has more than
    [f] places. *)
Definition toFixed (x : Num) (f : nat) : str :=
  match x with
  | Fin m e =>
      let s := if m <? 0 then js "-" else [] in
      let a := Z.abs m in
      if geb (Fin a e) (Fin 1 21) then s ++ Num_toString (Fin a e)
      else
        let n := roundDiv10 a (- (e + Z.of_nat f)) in
        let m0 := if n =? 0 then js "0" else N_toString (Z.to_N n) in
        let m1 := if (List.length m0 <=? f)%nat
                  then repeat 48%N (f + 1 - List.length m0) ++ m0
                  else m0 in
        let k := List.length m1 in
        s ++ (if (f =? 0)%nat then m1
              else firstn (k - f) m1 ++ js "." ++ skipn (k - f) m1)
  | _ => Num_toString x
  end.

(** [x.toExponential(f)], on the exact decimal as well. *)
Definition toExponential (x : Num) (f : nat) : str :=
  match x with
  | Fin m e =>
      let s := if m <? 0 then js "-" else [] in
      let a := Z.abs m in
      let L := Z.of_nat (List.length (N_toString (Z.to_N a))) in
      let n0 := roundDiv10 a (L - (Z.of_nat f + 1)) in
      let '(n, ex) :=
        if a =? 0 then (0, 0)
        else if n0 =? 10 ^ (Z.of_nat f + 1) then (10 ^ Z.of_nat f, L + e)
        else (n0, L - 1 + e) in
      let m0 := if a =? 0 then repeat 48%N (f + 1) else N_toString (Z.to_N n) in
      let m1 := match m0 with
                | d :: ds => if (f =? 0)%nat then [d] else d :: js "." ++ ds
                | [] => []
                end in
      s ++ m1 ++ js "e" ++ (if ex <? 0 then js "-" else js "+")
        ++ N_toString (Z.abs_N ex)
  | _ => Num_toString x
  end.

End JsNumber.

Module UnitsApi.
Import Js Regex JsNumber.
Local Open Scope N_scope.

Definition parseOhms (raw : option str) : Num := Units.parseSI raw.
Definition parseFarads (raw : option str) : Num := Units.parseSI raw.
Definition parseHenries (raw : option str) : Num := Units.parseSI raw.
Definition parseVolts (raw : option str) : Num := Units.parseSI raw.
Definition parseAmps (raw : option str) : Num := Units.parseSI raw.

(** Default to 1 microfarad if parsing fails. *)
Definition parseCapacitanceValue (value : str) : Num :=
  let parsed := parseFarads (Some value) in
  if isNaN parsed then Fin 1 (-6) else parsed.

(** Default to 1 kilo-ohm if parsing fails. *)
Definition parseResistanceValue (value : str) : Num :=
  let parsed := parseOhms (Some value) in
  if isNaN parsed then Fin 1 3 else parsed.

(** The two replacements after [toFixed(6)]: the zeros at the end are
    deleted, then a point at the end. *)
Definition stripZeros (s : str) : str :=
  removeFirst (Seq (ch 46) Eol) (removeFirst (Seq (plus true (ch 48)) Eol) s).

Definition formatSpiceNumber (val : Num) (preferSI : bool) : str :=
  if negb (isFinite val) then js "0"
  else if negb preferSI then toExponential val 6
  else
    let abs := abs val in
    if geb abs (Fin 1 6)
    then stripZeros (toFixed (div10 val 6) 6) ++ js "M"
    else if geb abs (Fin 1 3)
    then stripZeros (toFixed (div10 val 3) 6) ++ js "k"
    else if geb abs (Fin 1 0)
    then stripZeros (toFixed val 6)
    else if geb abs (Fin 1 (-3))
    then stripZeros (toFixed (mul val (Fin 1 3)) 6) ++ js "m"
    else if geb abs (Fin 1 (-6))
    then stripZeros (toFixed (mul val (Fin 1 6)) 6) ++ js "u"
    else if geb abs (Fin 1 (-9))
    then stripZeros (toFixed (mul val (Fin 1 9)) 6) ++ js "n"
    else if geb abs (Fin 1 (-12))
    then stripZeros (toFixed (mul val (Fin 1 12)) 6) ++ js "p"
    else toExponential val 6.

End UnitsApi.

(* ================================================================== *)
(** * Vocabulary of the statements about server/utils/units.ts *)
(* ================================================================== *)

Module UnitTerms.
Import Js Units UnitsApi JsNumber.
Local Open Scope N_scope.

(** The factor [parseSI] applies for a suffix: the entry of the lower-cased
    suffix, else the entry of the suffix as written, else 1. *)
Definition siFactor (suf : str) : Num :=
  match mapAt (toLowerCase suf) with
  | Some f => f
  | None => match mapAt suf with
            | Some f => f
            | None => Fin 1 0
            end
  end.

(** A letter other than o and O, or one of the two mu signs. *)
Definition siLetter (c : char) : bool :=
  (isAlpha c && negb (upperChar c =? 79)) || (c =? 181) || (c =? 956).

(** Does the text end with a character of the unit class? *)
Definition endsWithUnit (s : str) : bool :=
  match rev s with
  | c :: _ => isUnitClassChar c
  | [] => false
  end.

(** Equality of two numbers, as a test. *)
Definition Num_eqb (x y : Num) : bool :=
  match x, y with
  | NaN, NaN => true
  | Inf a, Inf b => Bool.eqb a b
  | Fin m e, Fin m' e' => ((m =? m') && (e =? e'))%Z
  | _, _ => false
  end.

(** The exponents [formatSpiceNumber] writes with a suffix, and the
    suffixes. *)
Definition siSuffixes : list (Z * string) :=
  [(6, "M"); (3, "k"); (0, ""); (-3, "m"); (-6, "u"); (-9, "n");
   (-12, "p")]%Z%string.

(** [n] and [d] write a number from 1 to 999 with at most three digits, [d]
    of them after the point: [n * 10^-d] for [d] up to 2 and [n] from [10^d]
    to 999. *)
Definition threeDigits (n : N) (d : nat) : bool :=
  (d <=? 2)%nat && (10 ^ N.of_nat d <=? n) && (n <? 1000).

(** The number [n * 10^-d]. *)
Definition scaled (n : N) (d : nat) : Num := mkFin (Z.of_N n) (- Z.of_nat d).

(** The power of ten [parseSI] applies to a text written with the suffix of
    [10^k]: that of the suffix, but none for M and m, which it removes as
    unit characters. *)
Definition readFactor (k : Z) : Z :=
  if ((k =? 6) || (k =? -3))%Z then 0%Z else k.

(** The text for [n * 10^-d * 10^k] is that of [n * 10^-d] and the suffix;
    [parseSI] reads it as [n * 10^-d] times [10^(readFactor k)]; for M and m
    that is not the value that was written. *)
Definition readBackOk (n : N) (d : nat) (ks : Z * string) : bool :=
  let val := mkFin (Z.of_N n) (fst ks - Z.of_nat d) in
  let text := formatSpiceNumber val true in
  eqb_str text (Num_toString (scaled n d) ++ js (snd ks))
  && Num_eqb (parseSI (Some text))
             (mul (scaled n d) (Fin 1 (readFactor (fst ks))))
  && (negb ((fst ks =? 6) || (fst ks =? -3))%Z
      || negb (Num_eqb (parseSI (Some text)) val)).

End UnitTerms.

(* ================================================================== *)
(** * Properties *)
(* ================================================================== *)

Import Js Spec.
Local Open Scope N_scope.

(** ** Strings and dictionaries *)

Section StringFacts.

Lemma eqb_str_eq (a b : str) : eqb_str a b = true <-> a = b.
Proof.
  revert b; induction a as [|x a IH]; intros [|y b]; simpl; split;
    try congruence; try reflexivity.
  - intros H. apply andb_true_iff in H as [H1 H2].
    apply N.eqb_eq in H1. apply IH in H2. congruence.
  - intros H. injection H as -> ->.
    rewrite N.eqb_refl. simpl. now apply IH.
Qed.

Lemma eqb_str_refl (a : str) : eqb_str a a = true.
Proof. now apply eqb_str_eq. Qed.

Lemma eqb_str_neq (a b : str) : a <> b -> eqb_str a b = false.
Proof.
  intros H. destruct (eqb_str a b) eqn:E; [|reflexivity].
  apply eqb_str_eq in E. contradiction.
Qed.

Lemma eqb_str_false (a b : str) : eqb_str a b = false -> a <> b.
Proof. intros H ->. rewrite eqb_str_refl in H. discriminate. Qed.

Lemma dropWhile_all (p : char -> bool) (s : str) :
  forallb p s = true -> dropWhile p s = [].
Proof.
  induction s as [|c s IH]; simpl; [reflexivity|].
  intros H. apply andb_true_iff in H as [-> H]. auto.
Qed.

Lemma takeWhile_dropWhile (p : char -> bool) (s : str) :
  takeWhile p s ++ dropWhile p s = s.
Proof.
  induction s as [|c s IH]; simpl; [reflexivity|].
  destruct (p c); simpl; congruence.
Qed.

Lemma dropWhile_head (p : char -> bool) (s : str) c t :
  dropWhile p s = c :: t -> p c = false.
Proof.
  induction s as [|x s IH]; simpl; [discriminate|].
  destruct (p x) eqn:E; [assumption|].
  intros H. injection H as -> _. assumption.
Qed.

(** [trimEnd] keeps a prefix. *)
Lemma trimEnd_prefix (s : str) : exists w, s = trimEnd s ++ w.
Proof.
  unfold trimEnd. exists (rev (takeWhile isWhiteSpace (rev s))).
  rewrite <- rev_app_distr, takeWhile_dropWhile. now rewrite rev_involutive.
Qed.

(** A trimmed string does not start with white space. *)
Lemma trim_head (s : str) c t : trim s = c :: t -> isWhiteSpace c = false.
Proof.
  unfold trim, trimStart. intros H.
  destruct (trimEnd_prefix (dropWhile isWhiteSpace s)) as [w Hw].
  rewrite H in Hw. simpl in Hw.
  eapply dropWhile_head. exact Hw.
Qed.

(** A string of white space trims to the empty string. *)
Lemma trim_blank (s : str) : forallb isWhiteSpace s = true -> trim s = [].
Proof.
  intros H. unfold trim, trimStart. now rewrite dropWhile_all.
Qed.

End StringFacts.

Section ObjFacts.
Variable V : Type.
Implicit Types (o : obj V) (k : str) (v : V).

Lemma lookup_none k o : lookup k o = None <-> ~ In k (keys o).
Proof.
  induction o as [|[k' v'] o IH]; simpl.
  - tauto.
  - destruct (eqb_str k k') eqn:E.
    + apply eqb_str_eq in E. subst. split; [discriminate|]. tauto.
    + apply eqb_str_false in E. rewrite IH. split.
      * intros H [H1|H1]; [congruence|tauto].
      * tauto.
Qed.

Lemma lookup_in k v o : lookup k o = Some v -> In (k, v) o.
Proof.
  induction o as [|[k' v'] o IH]; simpl; [discriminate|].
  destruct (eqb_str k k') eqn:E.
  - apply eqb_str_eq in E. subst. intros H. injection H as ->. now left.
  - auto.
Qed.

Lemma in_lookup k v o : NoDup (keys o) -> In (k, v) o -> lookup k o = Some v.
Proof.
  induction o as [|[k' v'] o IH]; simpl; [tauto|].
  intros Hnd [H|H].
  - injection H as -> ->. now rewrite eqb_str_refl.
  - inversion Hnd as [|? ? Hnotin Hnd']; subst.
    destruct (eqb_str k k') eqn:E; [|auto].
    apply eqb_str_eq in E. subst. exfalso. apply Hnotin.
    change (In (fst (k', v)) (List.map fst o)). now apply in_map.
Qed.

Lemma insert_new_perm k v o : Permutation (insert_new k v o) ((k, v) :: o).
Proof.
  induction o as [|[k' v'] o IH]; simpl; [reflexivity|].
  destruct (precedes k k'); [reflexivity|].
  rewrite IH. apply perm_swap.
Qed.

Lemma lookup_insert_new_same k v o :
  lookup k o = None -> lookup k (insert_new k v o) = Some v.
Proof.
  induction o as [|[k' v'] o IH]; simpl.
  - now rewrite eqb_str_refl.
  - destruct (eqb_str k k') eqn:E; [discriminate|]. intros H.
    destruct (precedes k k'); simpl.
    + now rewrite eqb_str_refl.
    + rewrite E. auto.
Qed.

Lemma lookup_insert_new_other k k' v o :
  k' <> k -> lookup k' (insert_new k v o) = lookup k' o.
Proof.
  intros Hne. induction o as [|[k2 v2] o IH]; simpl.
  - now rewrite eqb_str_neq.
  - destruct (precedes k k2); simpl.
    + now rewrite (eqb_str_neq Hne).
    + now rewrite IH.
Qed.

Lemma lookup_update_same k v o :
  has k o = true -> lookup k (update k v o) = Some v.
Proof.
  unfold has. induction o as [|[k' v'] o IH]; simpl; [discriminate|].
  destruct (eqb_str k k') eqn:E; simpl; rewrite E; auto.
Qed.

Lemma lookup_update_other k k' v o :
  k' <> k -> lookup k' (update k v o) = lookup k' o.
Proof.
  intros Hne. induction o as [|[k2 v2] o IH]; simpl; [reflexivity|].
  destruct (eqb_str k k2) eqn:E; simpl.
  - apply eqb_str_eq in E. subst k2. now rewrite (eqb_str_neq Hne).
  - now rewrite IH.
Qed.

Lemma lookup_put_same k v o : lookup k (put k v o) = Some v.
Proof.
  unfold put. destruct (has k o) eqn:E.
  - now apply lookup_update_same.
  - apply lookup_insert_new_same. unfold has in E.
    destruct (lookup k o); [discriminate|reflexivity].
Qed.

Lemma lookup_put_other k k' v o :
  k' <> k -> lookup k' (put k v o) = lookup k' o.
Proof.
  intros Hne. unfold put. destruct (has k o).
  - now apply lookup_update_other.
  - now apply lookup_insert_new_other.
Qed.

(** Setting a key that is absent adds one entry, somewhere. *)
Lemma put_new_perm k v o :
  lookup k o = None -> Permutation (put k v o) ((k, v) :: o).
Proof.
  intros H. unfold put, has. rewrite H. apply insert_new_perm.
Qed.

End ObjFacts.

(** ** The node allocator *)

Import SimpleSpice.

Section Allocator.
Implicit Types (m : NetToNodeMap) (name : option str).

(** A normalised name is empty or starts with a code unit that is not
    white space. *)
Lemma normalizeNet_shape (raw : option str) :
  normalizeNet raw = [] \/
  exists c t, normalizeNet raw = c :: t /\ isWhiteSpace c = false.
Proof.
  unfold normalizeNet. destruct raw as [r|]; [|now left].
  destruct (negb (truthy r)); [now left|].
  match goal with |- context [if ?b then _ else _] => destruct b end.
  - right. exists 48, []. split; reflexivity.
  - destruct (trim r) as [|c t] eqn:E; [now left|].
    right. exists c, t. split; [reflexivity|]. eapply trim_head; eauto.
Qed.


(** The three ways [touch] can go. *)
Lemma touch_cases m name :
  let n := normalizeNet (Some (or_else name [])) in
  ((n = [] \/ n = js "0") /\ touch m name = (0, m))
  \/ (n <> [] /\ n <> js "0" /\
      exists i, lookup n m = Some i /\ touch m name = (i, m))
  \/ (n <> [] /\ n <> js "0" /\ lookup n m = None /\
      touch m name = (nextIndex m, put n (nextIndex m) m)).
Proof.
  intros n. unfold touch. fold n.
  destruct n as [|c t] eqn:En.
  - left. simpl. split; [now left|reflexivity].
  - simpl negb. rewrite orb_false_l.
    destruct (eqb_str (c :: t) (js "0")) eqn:E0.
    + apply eqb_str_eq in E0. left. split; [now right|reflexivity].
    + apply eqb_str_false in E0. right.
      destruct (lookup (c :: t) m) as [i|] eqn:El.
      * left. repeat split; try congruence. now exists i.
      * right. repeat split; try congruence.
        unfold nextIndex. destruct (values m); reflexivity.
Qed.

Lemma Math_max_ge (l : list N) v : In v l -> v <= Math_max l.
Proof.
  induction l as [|x l IH]; simpl; [tauto|].
  intros [->|H]; [lia|]. specialize (IH H). lia.
Qed.

Lemma Math_max_in (l : list N) : l <> [] -> In (Math_max l) l.
Proof.
  induction l as [|x l IH]; [congruence|]. intros _. simpl.
  destruct l as [|y l].
  - left. simpl. lia.
  - destruct (N.max_spec x (Math_max (y :: l))) as [[_ E]|[_ E]].
    + right. unfold Math_max in E |- *. rewrite E. apply IH. discriminate.
    + left. unfold Math_max in E |- *. now rewrite E.
Qed.

Lemma nextIndex_inv m : Inv m -> nextIndex m = N.of_nat (List.length m).
Proof.
  intros (H0 & _ & _ & Hr). unfold nextIndex.
  destruct (values m) as [|x l] eqn:E.
  - apply lookup_in in H0.
    apply (in_map snd) in H0. unfold values in E. rewrite E in H0. destruct H0.
  - assert (Hin : In (Math_max (x :: l)) (x :: l))
      by (apply Math_max_in; discriminate).
    apply Hr in Hin.
    assert (Hlen : (0 < List.length m)%nat).
    { unfold values in E. destruct m; [discriminate|simpl; lia]. }
    assert (Hp : In (N.of_nat (List.length m) - 1) (x :: l)) by (apply Hr; lia).
    apply Math_max_ge in Hp. lia.
Qed.

Lemma Inv_put m n :
  Inv m -> n <> js "0" -> lookup n m = None ->
  Inv (put n (nextIndex m) m).
Proof.
  intros HI Hn0 Hnone. pose proof (nextIndex_inv HI) as Hnext.
  destruct HI as (H0 & Hk & Hv & Hr).
  pose proof (put_new_perm n (nextIndex m) m Hnone) as P.
  assert (Pk : Permutation (keys (put n (nextIndex m) m)) (n :: keys m))
    by (apply (Permutation_map fst) in P; exact P).
  assert (Pv : Permutation (values (put n (nextIndex m) m))
                           (nextIndex m :: values m))
    by (apply (Permutation_map snd) in P; exact P).
  assert (Hlen : List.length (put n (nextIndex m) m) = S (List.length m))
    by (apply Permutation_length in P; exact P).
  repeat split.
  - rewrite lookup_put_other; [assumption|congruence].
  - eapply Permutation_NoDup; [symmetry; exact Pk|].
    constructor; [now apply lookup_none|assumption].
  - eapply Permutation_NoDup; [symmetry; exact Pv|].
    constructor; [|assumption]. rewrite Hr, Hnext. lia.
  - intros Hin. eapply Permutation_in in Hin; [|exact Pv].
    rewrite Hlen. destruct Hin as [<-|Hin]; [lia|]. apply Hr in Hin. lia.
  - intros Hlt. eapply Permutation_in; [symmetry; exact Pv|].
    rewrite Hlen in Hlt.
    destruct (N.eq_dec v (nextIndex m)) as [->|Hne]; [now left|].
    right. apply Hr. lia.
Qed.

Lemma touch_Inv m name : Inv m -> Inv (snd (touch m name)).
Proof.
  intros HI.
  destruct (touch_cases m name) as [[_ E]|[(_ & _ & i & _ & E)|(_ & H0 & Hn & E)]];
    rewrite E; simpl; try assumption.
  now apply Inv_put.
Qed.

Lemma nodesOf_Inv names : forall m, Inv m -> Inv (snd (nodesOf m names)).
Proof.
  induction names as [|n names IH]; intros m HI; simpl; [assumption|].
  pose proof (touch_Inv n HI) as H1.
  destruct (touch m n) as [i m1]. simpl in H1.
  specialize (IH m1 H1). destruct (nodesOf m1 names) as [nodes m2].
  exact IH.
Qed.

Lemma Inv_initial : Inv (put (js "0") 0 []).
Proof.
  repeat split; simpl.
  - repeat constructor; simpl; tauto.
  - repeat constructor; simpl; tauto.
  - intros [<-|[]]. lia.
  - intros H. left. lia.
Qed.

End Allocator.

(** ** The loop over the components *)

Section Generator.
Implicit Types (st : GenState) (comp : SimpleCircuitComponent).

(** A component of kind ["node"] is display-only: the loop skips it before
    the [switch] is reached, whatever its pins. *)
Lemma junction_skipped st comp :
  kind comp = js "node" -> emitComponent st comp = st.
Proof. intros H. unfold emitComponent. rewrite H. reflexivity. Qed.

Lemma kind_node_display (k : str) :
  eqb_str k (js "node") = true -> isDisplayOnly k = true.
Proof. intros H. apply eqb_str_eq in H. subst. reflexivity. Qed.

Ltac split_nodesOf :=
  match goal with
  | |- context [nodesOf ?m ?names] =>
      let ns := fresh "ns" in let m' := fresh "m'" in
      exists names; destruct (nodesOf m names) as [ns m']; reflexivity
  end.

(** Whatever the component, the map changes only by touching names. *)
Lemma emitComponent_touches st comp :
  exists names,
    netToNodeMap (emitComponent st comp)
    = snd (nodesOf (netToNodeMap st) names).
Proof.
  unfold emitComponent.
  destruct (isDisplayOnly (kind comp)) eqn:Hd; simpl;
    [exists []; reflexivity|].
  destruct (isDisplayOnly (or_else (type comp) [])); [exists []; reflexivity|].
  unfold emitKind.
  repeat match goal with
         | |- context [if allTruthy ?l then _ else _] =>
             destruct (allTruthy l); [|exists []; reflexivity]
         | |- context [if eqb_str (kind comp) (js "node") then _ else _] =>
             destruct (eqb_str (kind comp) (js "node")) eqn:Hn;
             [apply kind_node_display in Hn; congruence|]
         | |- context [if ?b then _ else _] => destruct b
         end;
    try (exists []; reflexivity);
    unfold push, E.res, E.cap, E.diode, E.vsource, E.npn; split_nodesOf.
Qed.

Lemma emitComponent_Inv st comp :
  Inv (netToNodeMap st) -> Inv (netToNodeMap (emitComponent st comp)).
Proof.
  intros HI. destruct (emitComponent_touches st comp) as [names ->].
  now apply nodesOf_Inv.
Qed.

Lemma fold_emit_Inv comps : forall st,
  Inv (netToNodeMap st) ->
  Inv (netToNodeMap (fold_left emitComponent comps st)).
Proof.
  induction comps as [|c comps IH]; intros st HI; simpl; [assumption|].
  apply IH. now apply emitComponent_Inv.
Qed.

(** The invariant holds of the map [generateSimpleSpiceNetlist] returns. *)
Lemma generate_Inv comps : Inv (snd (generateSimpleSpiceNetlist comps)).
Proof.
  unfold generateSimpleSpiceNetlist. simpl. unfold emitAll.
  apply fold_emit_Inv. simpl. apply Inv_initial.
Qed.

Lemma NoDup_map_inj (A B : Type) (f : A -> B) (l : list A) x y :
  NoDup (List.map f l) -> In x l -> In y l -> f x = f y -> x = y.
Proof.
  induction l as [|a l IH]; simpl; [tauto|].
  intros Hnd Hx Hy E. inversion Hnd as [|? ? Hnotin Hnd']; subst.
  destruct Hx as [->|Hx], Hy as [->|Hy]; auto.
  - exfalso. apply Hnotin. rewrite E. now apply in_map.
  - exfalso. apply Hnotin. rewrite <- E. now apply in_map.
Qed.

(** Under the invariant two keys with the same index are the same key. *)
Lemma Inv_injective (m : NetToNodeMap) k1 k2 i :
  Inv m -> lookup k1 m = Some i -> lookup k2 m = Some i -> k1 = k2.
Proof.
  intros (_ & _ & Hv & _) H1 H2.
  apply lookup_in in H1. apply lookup_in in H2.
  pose proof (NoDup_map_inj snd m (k1, i) (k2, i) Hv H1 H2 eq_refl) as E.
  congruence.
Qed.

End Generator.


(** ** The node map of a circuit *)

Import Examples.

(** C1 (the code does not do this).  A junction that bridges the nets A and B
    beside a resistor wired to A: the junction has kind ["node"], the loop
    skips it as display-only, and the returned map has A at node 1 and no
    entry at all for B. *)
Theorem C1_junction_is_skipped :
  let m := snd (generateSimpleSpiceNetlist [R1; N1]) in
  m = [(js "0", 0); (js "A", 1)]
  /\ lookup (js "A") m = Some 1
  /\ lookup (js "B") m = None
  /\ emitComponent (emitAll [R1]) N1 = emitAll [R1].
Proof.
  cbv zeta. split; [|split; [|split]].
  - vm_compute. reflexivity.
  - vm_compute. reflexivity.
  - vm_compute. reflexivity.
  - apply junction_skipped. reflexivity.
Qed.

(** C2.  In the map [generateSimpleSpiceNetlist] returns, the key ["0"] has
    node 0 and no other key has node 0. *)
Theorem C2_ground_is_node_zero (comps : list SimpleCircuitComponent) :
  let m := snd (generateSimpleSpiceNetlist comps) in
  lookup (js "0") m = Some 0
  /\ forall k, lookup k m = Some 0 -> k = js "0".
Proof.
  cbv zeta. pose proof (generate_Inv comps) as HI.
  split; [apply HI|].
  intros k Hk. eapply Inv_injective; eauto. apply HI.
Qed.

(** C9.  The map [generateSimpleSpiceNetlist] returns is injective, and its
    indices are exactly 0, 1, ..., K for K + 1 entries (no key is repeated,
    so the entries are as many as the keys). *)
Theorem C9_map_injective_contiguous (comps : list SimpleCircuitComponent) :
  let m := snd (generateSimpleSpiceNetlist comps) in
  (forall k1 k2 i, lookup k1 m = Some i -> lookup k2 m = Some i -> k1 = k2)
  /\ (forall i, (exists k, lookup k m = Some i) <-> i < N.of_nat (List.length m))
  /\ NoDup (keys m).
Proof.
  cbv zeta. pose proof (generate_Inv comps) as HI.
  split; [|split].
  - intros k1 k2 i. now apply Inv_injective.
  - destruct HI as (_ & Hk & _ & Hr). intros i. rewrite <- Hr. split.
    + intros [k Hk']. apply lookup_in in Hk'.
      change i with (snd (k, i)). now apply in_map.
    + intros Hin. apply in_map_iff in Hin as [[k v] [E Hin]].
      simpl in E. subst v. exists k. now apply in_lookup.
  - apply HI.
Qed.

(** C3.  [touch] works on the normalised name [n]: an empty or ground name
    gives 0 and leaves the map as it is; a name that is a key gives its index
    and leaves the map as it is; any other name gets the index [next], one
    above the largest index in the map (1 in an empty map and in the map that
    holds only the ground entry), recorded under [n] as one more entry with
    every other key unchanged. *)
Theorem C3_touch_specification (m : NetToNodeMap) (name : option str) :
  let n := normalizeNet (Some (or_else name [])) in
  ((n = [] \/ n = js "0") -> touch m name = (0, m))
  /\ (n <> [] -> n <> js "0" ->
      forall i, lookup n m = Some i -> touch m name = (i, m))
  /\ (n <> [] -> n <> js "0" -> lookup n m = None ->
      exists next,
        touch m name = (next, put n next m)
        /\ (forall v, In v (values m) -> v < next)
        /\ (m <> [] -> In (next - 1) (values m))
        /\ (m = [] -> next = 1)
        /\ (m = put (js "0") 0 [] -> next = 1)
        /\ lookup n (put n next m) = Some next
        /\ (forall k, k <> n -> lookup k (put n next m) = lookup k m)
        /\ List.length (put n next m) = S (List.length m)).
Proof.
  intros n.
  destruct (touch_cases m name)
    as [[Hn E]|[(H1 & H2 & i & Hl & E)|(H1 & H2 & Hl & E)]].
  - fold n in Hn. repeat split.
    + intros _. exact E.
    + intros Hne Hn0. destruct Hn; contradiction.
    + intros Hne Hn0. destruct Hn; contradiction.
  - fold n in H1, H2, Hl. repeat split.
    + intros [Hn|Hn]; contradiction.
    + intros _ _ j Hj. rewrite Hl in Hj. injection Hj as <-. exact E.
    + intros _ _ Hnone. rewrite Hl in Hnone. discriminate.
  - fold n in H1, H2, Hl, E. repeat split.
    + intros [Hn|Hn]; contradiction.
    + intros _ _ j Hj. rewrite Hl in Hj. discriminate.
    + intros _ _ _. exists (nextIndex m).
      assert (Hmax : forall x l, values m = x :: l ->
                                 nextIndex m = Math_max (values m) + 1).
      { intros x l Hv. unfold nextIndex. rewrite Hv. reflexivity. }
      repeat split.
      * exact E.
      * intros v Hv. destruct (values m) as [|x l] eqn:Ev; [destruct Hv|].
        rewrite (Hmax x l eq_refl). apply Math_max_ge in Hv. lia.
      * intros Hm. destruct (values m) as [|x l] eqn:Ev.
        { destruct m; [congruence|discriminate]. }
        rewrite (Hmax x l eq_refl).
        replace (Math_max (x :: l) + 1 - 1) with (Math_max (x :: l)) by lia.
        apply Math_max_in. discriminate.
      * intros ->. reflexivity.
      * intros ->. reflexivity.
      * apply lookup_put_same.
      * intros k Hk. now apply lookup_put_other.
      * rewrite (Permutation_length (put_new_perm n (nextIndex m) m Hl)).
        reflexivity.
Qed.

(** ** Blank net names on required pins *)

Section BlankPins.
Implicit Types (m : NetToNodeMap) (st : GenState) (comp : SimpleCircuitComponent).


(** [touch] never writes under a key that is empty or starts with white
    space. *)
Lemma touch_keeps_blank_keys m name (k : str) :
  (k = [] \/ exists c t, k = c :: t /\ isWhiteSpace c = true) ->
  lookup k (snd (touch m name)) = lookup k m.
Proof.
  intros Hk.
  destruct (touch_cases m name)
    as [[_ E]|[(_ & _ & i & _ & E)|(H1 & _ & _ & E)]];
    rewrite E; cbn [snd]; try reflexivity.
  apply lookup_put_other. intros ->.
  destruct (normalizeNet_shape (Some (or_else name []))) as [E0|(c & t & E1 & Hc)].
  - contradiction.
  - destruct Hk as [Hk|(c' & t' & Hk & Hc')]; rewrite E1 in Hk; [discriminate|].
    injection Hk as -> _. congruence.
Qed.

Lemma nodesOf_keeps_blank_keys names : forall m (k : str),
  (k = [] \/ exists c t, k = c :: t /\ isWhiteSpace c = true) ->
  lookup k (snd (nodesOf m names)) = lookup k m.
Proof.
  induction names as [|n names IH]; intros m k Hk; simpl; [reflexivity|].
  pose proof (touch_keeps_blank_keys m n Hk) as H1.
  destruct (touch m n) as [i m1]. simpl in H1.
  specialize (IH m1 k Hk). destruct (nodesOf m1 names) as [nodes m2].
  simpl in *. congruence.
Qed.

Lemma nodesOf_length names : forall m,
  List.length (fst (nodesOf m names)) = List.length names.
Proof.
  induction names as [|n names IH]; intros m; simpl; [reflexivity|].
  destruct (touch m n) as [i m1]. specialize (IH m1).
  destruct (nodesOf m1 names) as [nodes m2]. simpl in *. congruence.
Qed.


Lemma join_snoc (xs : list str) (t : str) :
  xs <> [] -> join sp (xs ++ [t]) = join sp xs ++ sp ++ t.
Proof.
  induction xs as [|x xs IH]; [congruence|]. intros _.
  destruct xs as [|y xs].
  - reflexivity.
  - change (join sp ((x :: y :: xs) ++ [t]))
      with (x ++ sp ++ join sp ((y :: xs) ++ [t])).
    rewrite IH by discriminate.
    change (join sp (x :: y :: xs)) with (x ++ sp ++ join sp (y :: xs)).
    now rewrite <- !app_assoc.
Qed.

Lemma deviceLine_nodes (letter r : str) (ns : list N) (tail : str) :
  ns <> [] ->
  deviceLine letter r ns tail
  = letter ++ r ++ sp ++ join sp (List.map N_toString ns) ++ sp ++ tail.
Proof.
  intros H. unfold deviceLine. rewrite join_snoc; [reflexivity|].
  destruct ns; [congruence|discriminate].
Qed.

Lemma truthy_nonempty (s : str) : s <> [] -> truthy s = true.
Proof. destruct s; [congruence|reflexivity]. Qed.

Lemma nodesOf_nonempty m n names : fst (nodesOf m (n :: names)) <> [].
Proof.
  pose proof (nodesOf_length (n :: names) m) as H.
  destruct (fst (nodesOf m (n :: names))); discriminate.
Qed.

(** The line and the map of each emitter, in terms of [nodesOf]. *)
Lemma E_res_eq m (r a b : str) v :
  E.res m r a b v
  = (js "R" ++ r ++ sp
       ++ join sp (List.map N_toString (fst (nodesOf m [Some a; Some b])))
       ++ sp ++ Num_toString (parseValue v (Fin 1 3)),
     snd (nodesOf m [Some a; Some b])).
Proof.
  unfold E.res. pose proof (@nodesOf_nonempty m (Some a) [Some b]) as H.
  destruct (nodesOf m [Some a; Some b]) as [ns m']. cbn [fst snd] in *.
  now rewrite deviceLine_nodes.
Qed.

Lemma E_cap_eq m (r a b : str) v :
  E.cap m r a b v
  = (js "C" ++ r ++ sp
       ++ join sp (List.map N_toString (fst (nodesOf m [Some a; Some b])))
       ++ sp ++ Num_toString (parseValue v (Fin 1 (-6))),
     snd (nodesOf m [Some a; Some b])).
Proof.
  unfold E.cap. pose proof (@nodesOf_nonempty m (Some a) [Some b]) as H.
  destruct (nodesOf m [Some a; Some b]) as [ns m']. cbn [fst snd] in *.
  now rewrite deviceLine_nodes.
Qed.

Lemma E_diode_eq m (r a b model : str) :
  E.diode m r a b model
  = (js "D" ++ r ++ sp
       ++ join sp (List.map N_toString (fst (nodesOf m [Some a; Some b])))
       ++ sp ++ model,
     snd (nodesOf m [Some a; Some b])).
Proof.
  unfold E.diode. pose proof (@nodesOf_nonempty m (Some a) [Some b]) as H.
  destruct (nodesOf m [Some a; Some b]) as [ns m']. cbn [fst snd] in *.
  now rewrite deviceLine_nodes.
Qed.

Lemma E_vsource_eq m (r p n : str) v :
  E.vsource m r p n v
  = (js "V" ++ r ++ sp
       ++ join sp (List.map N_toString (fst (nodesOf m [Some p; Some n])))
       ++ js " DC " ++ Num_toString (parseValue v (Fin 5 0)),
     snd (nodesOf m [Some p; Some n])).
Proof.
  unfold E.vsource.
  destruct (nodesOf m [Some p; Some n]) as [ns m']. reflexivity.
Qed.

Lemma E_npn_eq m (r c b e model : str) :
  E.npn m r c b e model
  = (js "Q" ++ r ++ sp
       ++ join sp (List.map N_toString (fst (nodesOf m [Some c; Some b; Some e])))
       ++ sp ++ model,
     snd (nodesOf m [Some c; Some b; Some e])).
Proof.
  unfold E.npn. pose proof (@nodesOf_nonempty m (Some c) [Some b; Some e]) as H.
  destruct (nodesOf m [Some c; Some b; Some e]) as [ns m']. cbn [fst snd] in *.
  now rewrite deviceLine_nodes.
Qed.

Ltac two_nets Hreq Hpins Hnets :=
  injection Hreq as <-;
  match type of Hpins with
  | _ = List.map Some ?nets => destruct nets as [|? [|? [|? ?]]]; try discriminate
  end;
  injection Hpins as -> ->;
  let Ha := fresh "Ha" in
  let Hb := fresh "Hb" in
  let Hn' := fresh "Hn" in
  inversion Hnets as [|? ? Ha Hn']; subst;
  inversion Hn' as [|? ? Hb _]; subst;
  unfold allTruthy; cbn [forallb];
  rewrite (truthy_nonempty Ha), (truthy_nonempty Hb); cbn [andb get].

(** A component of an emitted kind that is not display-only and has a
    non-empty net on each required pin adds one line, whose node fields are
    the nodes of those nets, touched in order. *)
Lemma emitComponent_emits st comp ps nets :
  isDisplayOnly (kind comp) = false ->
  isDisplayOnly (or_else (type comp) []) = false ->
  requiredPins (kind comp) = Some ps ->
  List.map (pinNet comp) ps = List.map Some nets ->
  Forall (fun s => s <> []) nets ->
  exists letter r tail,
    emitComponent st comp =
    {| netToNodeMap := snd (nodesOf (netToNodeMap st) (List.map Some nets));
       lines := lines st ++
                [letter ++ r ++ sp
                 ++ join sp (List.map N_toString
                               (fst (nodesOf (netToNodeMap st) (List.map Some nets))))
                 ++ tail] |}.
Proof.
  intros Hd1 Hd2 Hreq Hpins Hnets.
  unfold emitComponent. rewrite Hd1, Hd2. cbn [orb].
  unfold requiredPins in Hreq. unfold emitKind.
  destruct (eqb_str (kind comp) (js "resistor")).
  { two_nets Hreq Hpins Hnets. rewrite E_res_eq. unfold push. cbn [fst snd].
    eexists _, _, _. reflexivity. }
  destruct (eqb_str (kind comp) (js "capacitor")).
  { two_nets Hreq Hpins Hnets. rewrite E_cap_eq. unfold push. cbn [fst snd].
    eexists _, _, _. reflexivity. }
  destruct (eqb_str (kind comp) (js "led") || eqb_str (kind comp) (js "diode")).
  { two_nets Hreq Hpins Hnets. rewrite E_diode_eq. unfold push. cbn [fst snd].
    eexists _, _, _. reflexivity. }
  destruct (eqb_str (kind comp) (js "battery")).
  { two_nets Hreq Hpins Hnets. rewrite E_vsource_eq. unfold push. cbn [fst snd].
    eexists _, _, _. reflexivity. }
  destruct (eqb_str (kind comp) (js "transistor")).
  { injection Hreq as <-.
    destruct nets as [|a [|b [|c [|? ?]]]]; try discriminate.
    injection Hpins as -> -> ->.
    inversion Hnets as [|? ? Ha Hn']; subst.
    inversion Hn' as [|? ? Hb Hn'']; subst.
    inversion Hn'' as [|? ? Hc _]; subst.
    unfold allTruthy. cbn [forallb].
    rewrite (truthy_nonempty Ha), (truthy_nonempty Hb), (truthy_nonempty Hc).
    cbn [andb get]. rewrite E_npn_eq. unfold push. cbn [fst snd].
    eexists _, _, _. reflexivity. }
  discriminate.
Qed.

End BlankPins.


(** No key of the map [generateSimpleSpiceNetlist] returns is empty or starts
    with white space. *)
Lemma generate_no_blank_keys (comps : list SimpleCircuitComponent) (k : str) :
  (k = [] \/ exists c t, k = c :: t /\ isWhiteSpace c = true) ->
  lookup k (snd (generateSimpleSpiceNetlist comps)) = None.
Proof.
  intros Hk. unfold generateSimpleSpiceNetlist. cbn [snd]. unfold emitAll.
  assert (H : forall cs st,
             lookup k (netToNodeMap (fold_left emitComponent cs st))
             = lookup k (netToNodeMap st)).
  { induction cs as [|c cs IH]; intros st; cbn [fold_left]; [reflexivity|].
    rewrite IH. destruct (emitComponent_touches st c) as [names ->].
    now apply nodesOf_keeps_blank_keys. }
  rewrite H. cbn [netToNodeMap].
  destruct Hk as [ -> | (c & t & -> & Hc) ]; [reflexivity|].
  unfold put, has. cbn [lookup insert_new].
  destruct (eqb_str (c :: t) (js "0")) eqn:E; [|reflexivity].
  apply eqb_str_eq in E. injection E as -> _. discriminate.
Qed.


(** The line and the map of that example. *)
Example Rblank_emitted :
  generateSimpleSpiceNetlist [Rblank]
  = (fst (generateSimpleSpiceNetlist [Rblank]), [(js "0", 0); (js "OUT", 1)])
  /\ lines (emitAll [Rblank]) = [js "Simple Circuit"; []; js "RR3 0 1 1000"].
Proof. split; vm_compute; reflexivity. Qed.

(** ** The quantity parser *)

Section RegexFacts.
Import Regex.

(** *** The bound on repetitions is never reached *)

Lemma iterate_conserves (step : mstate -> list mstate) (g : bool) :
  (forall s s', In s' (step s) -> conserves s s') ->
  forall fuel st st', In st' (iterate step g fuel st) -> conserves st st'.
Proof.
  intros Hstep. induction fuel as [|f IH]; intros st st' Hin.
  - cbn [iterate] in Hin. destruct Hin as [<-|[]]. reflexivity.
  - cbn [iterate] in Hin.
    assert (Hcases : st' = st \/
                     In st' (flat_map (fun s1 => if (pos st <? pos s1)%nat
                                                 then iterate step g f s1 else [])
                                      (step st))).
    { destruct g.
      - apply in_app_or in Hin as [Hin|[<-|[]]]; auto.
      - destruct Hin as [<-|Hin]; auto. }
    destruct Hcases as [->|Hm]; [reflexivity|].
    apply in_flat_map in Hm as (s1 & Hs1 & Hin1).
    destruct (pos st <? pos s1)%nat; [|destruct Hin1].
    specialize (IH _ _ Hin1). specialize (Hstep _ _ Hs1).
    unfold conserves in *. lia.
Qed.

Lemma run_conserves (r : re) : forall st st', In st' (run r st) -> conserves st st'.
Proof.
  induction r as [|p|a IHa b IHb|a IHa b IHb|g a IHa|i a IHa| |];
    intros st st' Hin; cbn [run] in Hin.
  - destruct Hin as [<-|[]]. reflexivity.
  - destruct (rest st) as [|c s'] eqn:E; [destruct Hin|].
    destruct (p c); [|destruct Hin]. destruct Hin as [<-|[]].
    unfold conserves. cbn [pos rest]. rewrite E. cbn [List.length]. lia.
  - apply in_flat_map in Hin as (s1 & H1 & H2).
    specialize (IHa _ _ H1). specialize (IHb _ _ H2).
    unfold conserves in *. lia.
  - apply in_app_or in Hin as [Hin|Hin]; auto.
  - eapply iterate_conserves; eauto.
  - apply in_map_iff in Hin as (s1 & <- & H1). specialize (IHa _ _ H1).
    unfold conserves in *. cbn [pos rest]. exact IHa.
  - destruct (pos st =? 0)%nat; [|destruct Hin].
    destruct Hin as [<-|[]]. reflexivity.
  - destruct (rest st); [|destruct Hin]. destruct Hin as [<-|[]]. reflexivity.
Qed.

Lemma flat_map_ext_in (A B : Type) (f g : A -> list B) (l : list A) :
  (forall x, In x l -> f x = g x) -> flat_map f l = flat_map g l.
Proof.
  induction l as [|x l IH]; intros H; cbn [flat_map]; [reflexivity|].
  rewrite (H x (or_introl eq_refl)), IH; [reflexivity|].
  intros y Hy. apply H. now right.
Qed.

(** Any bound above the number of code units left gives the same
    repetitions: each one takes at least one code unit. *)
Lemma iterate_fuel_irrelevant (a : re) (g : bool) : forall f1 f2 st,
  (List.length (rest st) < f1)%nat -> (List.length (rest st) < f2)%nat ->
  iterate (run a) g f1 st = iterate (run a) g f2 st.
Proof.
  induction f1 as [|f1 IH]; intros f2 st H1 H2; [lia|].
  destruct f2 as [|f2]; [lia|]. cbn [iterate].
  assert (E : flat_map (fun st' => if (pos st <? pos st')%nat
                                   then iterate (run a) g f1 st' else [])
                       (run a st)
              = flat_map (fun st' => if (pos st <? pos st')%nat
                                     then iterate (run a) g f2 st' else [])
                         (run a st)).
  { apply flat_map_ext_in. intros s1 Hs1.
    destruct (pos st <? pos s1)%nat eqn:Hlt; [|reflexivity].
    apply Nat.ltb_lt in Hlt. pose proof (run_conserves a _ _ Hs1) as Hc.
    unfold conserves in Hc. apply IH; lia. }
  now rewrite E.
Qed.

(** The repetitions of a pattern are those of [iterate] under any larger
    bound. *)
Lemma run_star_any_fuel (a : re) (g : bool) st (n : nat) :
  run (Star g a) st = iterate (run a) g (S (List.length (rest st)) + n) st.
Proof. cbn [run]. apply iterate_fuel_irrelevant; lia. Qed.

(** *** The first way a pattern matches *)

Lemma heads_seq (a b : re) st s1 z :
  heads (run a st) s1 -> heads (run b s1) z -> heads (run (Seq a b) st) z.
Proof.
  intros [t Ht] [u Hu]. cbn [run]. rewrite Ht. cbn [flat_map]. rewrite Hu.
  eexists. reflexivity.
Qed.

(** The first way of [a] leads nowhere, the second one does. *)
Lemma heads_seq_skip (a b : re) st s1 s2 t z :
  run a st = s1 :: s2 :: t -> run b s1 = [] -> heads (run b s2) z ->
  heads (run (Seq a b) st) z.
Proof.
  intros Ht H1 [u Hu]. cbn [run]. rewrite Ht. cbn [flat_map].
  rewrite H1, Hu. eexists. reflexivity.
Qed.

Lemma heads_alt_l (a b : re) st z :
  heads (run a st) z -> heads (run (Alt a b) st) z.
Proof. intros [t Ht]. cbn [run]. rewrite Ht. eexists. reflexivity. Qed.

Lemma heads_alt_r (a b : re) st z :
  run a st = [] -> heads (run b st) z -> heads (run (Alt a b) st) z.
Proof. intros Ha [t Ht]. cbn [run]. rewrite Ha, Ht. eexists. reflexivity. Qed.

Lemma heads_eps st : heads (run Eps st) st.
Proof. eexists. reflexivity. Qed.

Lemma heads_group (i : nat) (a : re) st z :
  heads (run a st) z ->
  heads (run (Group i a) st)
        (MState (pos z) (rest z)
                ((i, firstn (pos z - pos st) (rest st)) :: caps z)).
Proof. intros [t Ht]. cbn [run]. rewrite Ht. eexists. reflexivity. Qed.

Lemma heads_at l n n' r c :
  heads l (MState n r c) -> n = n' -> heads l (MState n' r c).
Proof. now intros H <-. Qed.

Lemma run_chr_hit (p : char -> bool) n x t c :
  p x = true -> run (Chr p) (MState n (x :: t) c) = [MState (S n) t c].
Proof. intros H. cbn [run rest pos caps]. now rewrite H. Qed.

Lemma run_chr_miss (p : char -> bool) n s c :
  headNot p s -> run (Chr p) (MState n s c) = [].
Proof.
  intros H. cbn [run rest]. destruct s as [|x t]; [reflexivity|].
  cbn [headNot] in H. now rewrite H.
Qed.

Lemma run_star_unfold (a : re) st :
  run (Star true a) st
  = flat_map (fun st' => if (pos st <? pos st')%nat
                         then iterate (run a) true (List.length (rest st)) st'
                         else [])
             (run a st)
    ++ [st].
Proof. reflexivity. Qed.

Lemma run_star_stop (p : char -> bool) n r c :
  headNot p r -> run (Star true (Chr p)) (MState n r c) = [MState n r c].
Proof.
  intros H. rewrite run_star_unfold. rewrite run_chr_miss by exact H.
  reflexivity.
Qed.

Lemma run_star_step (p : char -> bool) n x t c :
  p x = true ->
  run (Star true (Chr p)) (MState n (x :: t) c)
  = run (Star true (Chr p)) (MState (S n) t c) ++ [MState n (x :: t) c].
Proof.
  intros H. rewrite run_star_unfold. rewrite run_chr_hit by exact H.
  cbn [flat_map pos rest List.length].
  assert (E : (n <? S n)%nat = true) by (apply Nat.ltb_lt; lia).
  rewrite E, app_nil_r. reflexivity.
Qed.

(** A greedy run over a class takes the whole run first. *)
Lemma star_head (p : char -> bool) (ds : str) : forall n r c,
  forallb p ds = true -> headNot p r ->
  heads (run (Star true (Chr p)) (MState n (ds ++ r) c))
        (MState (n + List.length ds) r c).
Proof.
  induction ds as [|d ds IH]; intros n r c Hd Hr.
  - cbn [app List.length]. rewrite Nat.add_0_r. rewrite run_star_stop by exact Hr.
    eexists. reflexivity.
  - cbn [forallb] in Hd. apply andb_true_iff in Hd as [Hx Hd].
    change ((d :: ds) ++ r) with (d :: (ds ++ r)).
    rewrite run_star_step by exact Hx.
    destruct (IH (S n) r c Hd Hr) as [t Ht]. rewrite Ht.
    cbn [List.length]. rewrite Nat.add_succ_r. eexists. reflexivity.
Qed.

(** ... and, second, all of it but its last character. *)
Lemma star_two (p : char -> bool) (ds : str) : forall n d r c,
  forallb p ds = true -> p d = true -> headNot p r ->
  exists t,
    run (Star true (Chr p)) (MState n ((ds ++ [d]) ++ r) c)
    = MState (n + List.length ds + 1) r c
      :: MState (n + List.length ds) (d :: r) c :: t.
Proof.
  induction ds as [|x ds IH]; intros n d r c Hd Hx Hr.
  - cbn [app List.length]. rewrite run_star_step by exact Hx.
    rewrite run_star_stop by exact Hr. rewrite Nat.add_0_r, Nat.add_1_r.
    eexists. reflexivity.
  - cbn [forallb] in Hd. apply andb_true_iff in Hd as [Hx' Hd].
    change (((x :: ds) ++ [d]) ++ r) with (x :: ((ds ++ [d]) ++ r)).
    rewrite run_star_step by exact Hx'.
    destruct (IH (S n) d r c Hd Hx Hr) as [t Ht]. rewrite Ht.
    cbn [List.length]. rewrite !Nat.add_succ_r. eexists. reflexivity.
Qed.

Lemma plus_head (p : char -> bool) (ds : str) n r c :
  ds <> [] -> forallb p ds = true -> headNot p r ->
  heads (run (plus true (Chr p)) (MState n (ds ++ r) c))
        (MState (n + List.length ds) r c).
Proof.
  intros Hne Hd Hr. destruct ds as [|d ds]; [congruence|].
  cbn [forallb] in Hd. apply andb_true_iff in Hd as [Hx Hd].
  unfold plus. eapply heads_seq.
  - change ((d :: ds) ++ r) with (d :: (ds ++ r)).
    rewrite run_chr_hit by exact Hx. eexists. reflexivity.
  - eapply heads_at; [now apply star_head|]. cbn [List.length]. lia.
Qed.

Lemma run_seq_unfold (a b : re) st :
  run (Seq a b) st = flat_map (run b) (run a st).
Proof. reflexivity. Qed.

Lemma run_alt_unfold (a b : re) st :
  run (Alt a b) st = run a st ++ run b st.
Proof. reflexivity. Qed.

(** An optional character that is not there. *)
Lemma run_opt_miss (p : char -> bool) n s c :
  headNot p s -> run (opt (Chr p)) (MState n s c) = [MState n s c].
Proof.
  intros H. unfold opt. rewrite run_alt_unfold.
  rewrite run_chr_miss by exact H. reflexivity.
Qed.

Lemma plus_miss (p : char -> bool) n s c :
  headNot p s -> run (plus true (Chr p)) (MState n s c) = [].
Proof.
  intros H. unfold plus. rewrite run_seq_unfold.
  rewrite run_chr_miss by exact H. reflexivity.
Qed.

(** A pattern that cannot start at a character outside [p] matches nowhere
    in a string that has no character of [p]. *)
Lemma searchFrom_none (r : re) (p : char -> bool) (s : str) :
  (forall n s' c, headNot p s' -> run r (MState n s' c) = []) ->
  forallb (fun c => negb (p c)) s = true ->
  forall n, searchFrom r n s = None.
Proof.
  intros Hr. induction s as [|x s IH]; intros Hs n.
  - cbn [searchFrom]. unfold matchAt. now rewrite Hr.
  - cbn [forallb] in Hs. apply andb_true_iff in Hs as [Hx Hs].
    apply negb_true_iff in Hx.
    cbn [searchFrom]. unfold matchAt. rewrite Hr by exact Hx. now apply IH.
Qed.

Lemma removeAll_none (r : re) (p : char -> bool) (s : str) :
  (forall n s' c, headNot p s' -> run r (MState n s' c) = []) ->
  forallb (fun c => negb (p c)) s = true ->
  removeAll r s = s.
Proof.
  intros Hr Hs. unfold removeAll. cbn [removeAllFrom].
  now rewrite (@searchFrom_none r p s Hr Hs).
Qed.

Lemma searchFrom_hit (r : re) n (s : str) m :
  matchAt r n s = Some m -> searchFrom r n s = Some m.
Proof. intros H. destruct s; cbn [searchFrom]; now rewrite H. Qed.

End RegexFacts.

Section QuantityParser.
Import Regex.

Ltac b2p :=
  unfold isNoise, isSuffixChar, isSignChar, isExpChar, isAlpha, isLower,
         isUpper, isDigit, isWhiteSpace, in_range in *;
  repeat rewrite ?andb_true_iff, ?orb_true_iff, ?andb_false_iff, ?orb_false_iff,
                 ?negb_true_iff, ?negb_false_iff,
                 ?N.leb_le, ?N.leb_gt, ?N.eqb_eq, ?N.eqb_neq in *.

Lemma digit_not_sign c : isDigit c = true -> isSignChar c = false.
Proof. b2p. lia. Qed.

Lemma digit_not_point c : isDigit c = true -> (46 =? c) = false.
Proof. b2p. lia. Qed.

Lemma suffix_not_digit c : isSuffixChar c = true -> isDigit c = false.
Proof. b2p. lia. Qed.

Lemma suffix_not_sign c : isSuffixChar c = true -> isSignChar c = false.
Proof. b2p. lia. Qed.

Lemma suffix_not_point c : isSuffixChar c = true -> (46 =? c) = false.
Proof. b2p. lia. Qed.

Lemma digit_not_noise c : isDigit c = true -> isNoise c = false.
Proof. b2p. lia. Qed.

Lemma suffix_not_noise c : isSuffixChar c = true -> isNoise c = false.
Proof. b2p. lia. Qed.

Lemma suffix_headNot (p : char -> bool) (s : str) :
  (forall c, isSuffixChar c = true -> p c = false) ->
  forallb isSuffixChar s = true -> headNot p s.
Proof.
  intros Hp. destruct s as [|c t]; simpl; [auto|].
  intros H. apply andb_true_iff in H as [Hc _]. auto.
Qed.

Lemma digits_headNot (p : char -> bool) (s r : str) :
  (forall c, isDigit c = true -> p c = false) ->
  s <> [] -> allDigits s -> headNot p (s ++ r).
Proof.
  intros Hp Hne Hs. destruct s as [|c t]; [congruence|]. simpl.
  unfold allDigits in Hs. simpl in Hs.
  apply andb_true_iff in Hs as [Hc _]. auto.
Qed.

Lemma exponent_headNot (p : char -> bool) (ex rest : str) :
  isExponent ex -> p 101 = false -> p 69 = false ->
  headNot p rest -> headNot p (ex ++ rest).
Proof.
  intros [ -> | (c & sg & xd & [ -> | -> ] & _ & _ & _ & ->) ] H1 H2 Hr;
    simpl; assumption.
Qed.

(** ** The pattern on a mantissa followed by suffix letters *)

Let signR : re := opt (cls isSignChar).
Let digits1R : re := plus true (cls isDigit).
Let expR : re := opt (seqs [cls isExpChar; signR; digits1R]).
Let numberR : re :=
  seqs [signR; Star true (cls isDigit); opt (ch 46); digits1R; expR].

Lemma sign_head (sgn : str) n r c :
  isSign sgn -> headNot isSignChar r ->
  heads (run signR (MState n (sgn ++ r) c)) (MState (n + List.length sgn) r c).
Proof.
  intros Hs Hr. unfold signR, opt, cls.
  destruct Hs as [ -> | [ -> | -> ] ].
  - cbn [app List.length]. rewrite Nat.add_0_r.
    apply heads_alt_r; [now apply run_chr_miss|apply heads_eps].
  - apply heads_alt_l. change (js "+" ++ r) with (43 :: r).
    rewrite run_chr_hit by reflexivity.
    eapply heads_at; [eexists; reflexivity|]. simpl. lia.
  - apply heads_alt_l. change (js "-" ++ r) with (45 :: r).
    rewrite run_chr_hit by reflexivity.
    eapply heads_at; [eexists; reflexivity|]. simpl. lia.
Qed.

(** With no exponent in front, the exponent branch leads nowhere: an [e]
    that starts the suffix is followed by a letter or by nothing. *)
Lemma exponent_branch_fails (suf : str) n c :
  forallb isSuffixChar suf = true ->
  run (seqs [cls isExpChar; signR; digits1R]) (MState n suf c) = [].
Proof.
  intros Hs. unfold seqs, cls. cbn [fold_right]. rewrite run_seq_unfold.
  destruct suf as [|x t]; [reflexivity|].
  destruct (isExpChar x) eqn:Ex.
  - rewrite run_chr_hit by exact Ex. cbn [flat_map]. rewrite app_nil_r.
    cbn [forallb] in Hs. apply andb_true_iff in Hs as [_ Ht].
    assert (Hsg : headNot isSignChar t)
      by (apply suffix_headNot; [apply suffix_not_sign|assumption]).
    assert (Hd : headNot isDigit t)
      by (apply suffix_headNot; [apply suffix_not_digit|assumption]).
    rewrite run_seq_unfold. unfold signR, cls.
    rewrite run_opt_miss by exact Hsg. cbn [flat_map]. rewrite app_nil_r.
    rewrite run_seq_unfold. unfold digits1R, cls.
    rewrite plus_miss by exact Hd. reflexivity.
  - rewrite run_chr_miss by exact Ex. reflexivity.
Qed.

Lemma exponent_head (ex suf : str) n c :
  isExponent ex -> forallb isSuffixChar suf = true ->
  heads (run expR (MState n (ex ++ suf) c)) (MState (n + List.length ex) suf c).
Proof.
  intros Hex Hs.
  assert (Hd : headNot isDigit suf)
    by (apply suffix_headNot; [apply suffix_not_digit|assumption]).
  unfold expR, opt.
  destruct Hex as [ -> | (x & sg & xd & Hx & Hsg & Hne & Hxd & ->) ].
  - cbn [app List.length]. rewrite Nat.add_0_r.
    apply heads_alt_r; [now apply exponent_branch_fails|apply heads_eps].
  - apply heads_alt_l. unfold seqs. cbn [fold_right].
    change ((x :: sg ++ xd) ++ suf) with (x :: ((sg ++ xd) ++ suf)).
    rewrite <- app_assoc.
    eapply heads_seq.
    { unfold cls. rewrite run_chr_hit
        by (destruct Hx as [ -> | -> ]; reflexivity).
      eexists. reflexivity. }
    eapply heads_seq.
    { apply sign_head; [assumption|].
      apply digits_headNot; [apply digit_not_sign|assumption|assumption]. }
    eapply heads_seq.
    { unfold digits1R, cls. now apply plus_head. }
    eapply heads_at; [apply heads_eps|].
    cbn [List.length]. rewrite length_app. lia.
Qed.

(** The first way the number part matches takes the whole mantissa. *)
Lemma number_head (x suf : str) n c :
  Mantissa x -> forallb isSuffixChar suf = true ->
  heads (run numberR (MState n (x ++ suf) c)) (MState (n + List.length x) suf c).
Proof.
  intros Hx Hs. destruct Hx as [sgn ip fr ex Hsg Hip Hfr Hne Hex].
  assert (Hsd : headNot isDigit suf)
    by (apply suffix_headNot; [apply suffix_not_digit|assumption]).
  assert (Hsp : headNot (N.eqb 46) suf)
    by (apply suffix_headNot; [apply suffix_not_point|assumption]).
  assert (Hed : headNot isDigit (ex ++ suf))
    by (now apply exponent_headNot).
  assert (Hep : headNot (N.eqb 46) (ex ++ suf))
    by (now apply exponent_headNot).
  rewrite <- !app_assoc. unfold numberR, seqs. cbn [fold_right].
  eapply heads_seq.
  { apply sign_head; [assumption|].
    destruct ip as [|d ip'].
    - destruct Hne as [Hne|Hne]; [congruence|].
      destruct Hfr as [ -> | (fd & _ & _ & ->) ]; [congruence|reflexivity].
    - apply digits_headNot; [apply digit_not_sign|discriminate|assumption]. }
  destruct Hfr as [ -> | (fd & Hfne & Hfd & ->) ].
  - (* no fraction: the greedy digits leave none for [\d+]; one is given back *)
    destruct Hne as [Hne|Hne]; [|congruence].
    destruct (exists_last Hne) as (ip' & d & ->).
    unfold allDigits in Hip. rewrite forallb_app in Hip.
    apply andb_true_iff in Hip as [Hip' Hd]. cbn [forallb] in Hd.
    rewrite andb_true_r in Hd. cbn [app].
    destruct (@star_two isDigit ip' (n + List.length sgn) d (ex ++ suf) c
                        Hip' Hd Hed) as [t Ht].
    unfold cls. eapply heads_seq_skip; [exact Ht| |].
    + rewrite run_seq_unfold. unfold ch.
      rewrite run_opt_miss by exact Hep.
      cbn [flat_map]. rewrite app_nil_r, run_seq_unfold.
      unfold digits1R, cls. rewrite plus_miss by exact Hed. reflexivity.
    + eapply heads_seq.
      { unfold opt, ch. apply heads_alt_r; [|apply heads_eps].
        apply run_chr_miss. cbn [headNot]. now apply digit_not_point. }
      eapply heads_seq.
      { unfold digits1R, cls.
        apply (@plus_head isDigit [d] _ (ex ++ suf) c); [discriminate| |exact Hed].
        cbn [forallb]. now rewrite Hd. }
      eapply heads_seq; [now apply exponent_head|].
      eapply heads_at; [apply heads_eps|].
      rewrite !length_app. cbn [List.length]. lia.
  - (* a fraction: every greedy choice is kept *)
    change ((46 :: fd) ++ ex ++ suf) with (46 :: (fd ++ ex ++ suf)).
    eapply heads_seq.
    { unfold cls. apply star_head; [exact Hip|reflexivity]. }
    eapply heads_seq.
    { unfold opt, ch. apply heads_alt_l.
      rewrite run_chr_hit by reflexivity. eexists. reflexivity. }
    eapply heads_seq.
    { unfold digits1R, cls. now apply plus_head. }
    eapply heads_seq; [now apply exponent_head|].
    eapply heads_at; [apply heads_eps|].
    rewrite !length_app. cbn [List.length]. lia.
Qed.

(** The pattern splits a mantissa followed by suffix letters into the two:
    group 1 is the mantissa, group 2 the suffix. *)
Lemma valuePattern_mantissa (x suf : str) :
  Mantissa x -> forallb isSuffixChar suf = true ->
  exists m, exec valuePattern (x ++ suf) = Some m
            /\ group 1 (groups m) = x /\ group 2 (groups m) = suf.
Proof.
  intros Hx Hs.
  assert (H : heads (run valuePattern (MState 0 (x ++ suf) []))
                    (MState (List.length x + List.length suf) []
                            [(2%nat, suf); (1%nat, x)])).
  { unfold valuePattern, seqs. cbn [fold_right].
    eapply heads_seq; [eexists; reflexivity|].
    eapply heads_seq.
    { apply heads_group. apply (@number_head x suf 0 [] Hx Hs). }
    cbn [pos rest caps]. rewrite Nat.sub_0_r, Nat.add_0_l.
    replace (firstn (List.length x) (x ++ suf)) with x
      by (rewrite firstn_app, Nat.sub_diag, firstn_all; cbn [firstn];
          now rewrite app_nil_r).
    eapply heads_seq.
    { apply heads_group. unfold cls.
      pose proof (@star_head isSuffixChar suf (List.length x) [] [(1%nat, x)]
                             Hs I) as Hh.
      rewrite app_nil_r in Hh. exact Hh. }
    cbn [pos rest caps].
    replace (List.length x + List.length suf - List.length x)%nat
      with (List.length suf) by lia.
    rewrite firstn_all.
    eapply heads_seq; [eexists; reflexivity|apply heads_eps]. }
  destruct H as [t Ht].
  eexists. split.
  - unfold exec. apply searchFrom_hit. unfold matchAt. rewrite Ht. reflexivity.
  - cbn [groups]. split; reflexivity.
Qed.

(** ** Text without noise *)

Lemma forallb_app_true (f : char -> bool) (a b : str) :
  forallb f a = true -> forallb f b = true -> forallb f (a ++ b) = true.
Proof. intros Ha Hb. rewrite forallb_app, Ha, Hb. reflexivity. Qed.

Lemma forallb_impl (f g : char -> bool) (s : str) :
  (forall c, f c = true -> g c = true) ->
  forallb f s = true -> forallb g s = true.
Proof.
  intros H. induction s as [|c s IH]; simpl; [reflexivity|].
  intros Hs. apply andb_true_iff in Hs as [Hc Hs]. now rewrite (H c Hc), IH.
Qed.

Lemma sign_quiet (s : str) : isSign s -> quiet s.
Proof. intros [ -> | [ -> | -> ] ]; reflexivity. Qed.

Lemma digits_quiet (s : str) : allDigits s -> quiet s.
Proof.
  apply forallb_impl. intros c Hc. now rewrite digit_not_noise.
Qed.

Lemma suffix_quiet (s : str) : forallb isSuffixChar s = true -> quiet s.
Proof.
  apply forallb_impl. intros c Hc. now rewrite suffix_not_noise.
Qed.

Lemma mantissa_quiet (x : str) : Mantissa x -> quiet x.
Proof.
  intros [sgn ip fr ex Hsg Hip Hfr _ Hex]. unfold quiet.
  repeat apply forallb_app_true.
  - now apply sign_quiet.
  - now apply digits_quiet.
  - destruct Hfr as [ -> | (fd & _ & Hd & ->) ]; [reflexivity|].
    simpl. now apply digits_quiet.
  - destruct Hex as [ -> | (c & sg & xd & Hc & Hs & _ & Hd & ->) ]; [reflexivity|].
    change (c :: sg ++ xd) with ([c] ++ sg ++ xd).
    repeat apply forallb_app_true.
    + destruct Hc as [ -> | -> ]; reflexivity.
    + now apply sign_quiet.
    + now apply digits_quiet.
Qed.

Lemma dropWhile_quiet (p : char -> bool) (s : str) :
  forallb (fun c => negb (p c)) s = true -> dropWhile p s = s.
Proof.
  destruct s as [|c s]; simpl; [reflexivity|].
  intros H. apply andb_true_iff in H as [Hc _].
  apply negb_true_iff in Hc. now rewrite Hc.
Qed.

Lemma forallb_rev (f : char -> bool) (s : str) :
  forallb f s = true -> forallb f (rev s) = true.
Proof.
  intros H. apply forallb_forall. intros c Hc.
  apply in_rev in Hc. revert c Hc. now apply forallb_forall.
Qed.

Lemma trim_quiet (s : str) :
  forallb (fun c => negb (isWhiteSpace c)) s = true -> trim s = s.
Proof.
  intros H. unfold trim, trimStart, trimEnd.
  rewrite (dropWhile_quiet _ _ H).
  rewrite dropWhile_quiet by (now apply forallb_rev).
  apply rev_involutive.
Qed.

Lemma quiet_parts (s : str) :
  quiet s ->
  forallb (fun c => negb (isWhiteSpace c)) s = true
  /\ forallb (fun c => negb (937 =? c)) s = true
  /\ forallb (fun c => negb (95 =? c)) s = true.
Proof.
  intros H. repeat split; revert H; apply forallb_impl; intros c;
    unfold isNoise;
    rewrite ?(N.eqb_sym 95 c), ?(N.eqb_sym 937 c), !negb_true_iff,
            !orb_false_iff;
    tauto.
Qed.

(** Text without noise reaches the pattern as it is. *)
Lemma parseValue_quiet (s : str) (fallback : Num) :
  quiet s ->
  parseValue (Some s) fallback =
  match exec valuePattern s with
  | None => let n := Number s in if isFinite n then n else fallback
  | Some m =>
      let num := Number (group 1 (groups m)) in
      if negb (isFinite num) then fallback
      else mul num (multiplier (toLowerCase (group 2 (groups m))))
  end.
Proof.
  intros H. destruct (quiet_parts H) as (Hw & Ho & Hu).
  unfold parseValue. rewrite (trim_quiet _ Hw).
  unfold OHM_CHARS, ch, cls.
  rewrite (@removeAll_none (Chr (N.eqb 937)) (N.eqb 937) s)
    by (try exact Ho; intros; now apply run_chr_miss).
  rewrite (@removeAll_none (Chr (N.eqb 95)) (N.eqb 95) s)
    by (try exact Hu; intros; now apply run_chr_miss).
  rewrite (@removeAll_none (plus true (Chr isWhiteSpace)) isWhiteSpace s)
    by (try exact Hw; intros; now apply plus_miss).
  reflexivity.
Qed.

Lemma lowerChar_suffix (c : char) :
  isSuffixChar (lowerChar c) = true -> isSuffixChar c = true.
Proof.
  unfold lowerChar. destruct (isUpper c) eqn:E; [|auto].
  intros _. unfold isSuffixChar, isAlpha. rewrite E.
  now rewrite orb_true_r.
Qed.

Lemma toLowerCase_suffix (suf : str) :
  forallb isSuffixChar (toLowerCase suf) = true ->
  forallb isSuffixChar suf = true.
Proof.
  unfold toLowerCase. induction suf as [|c t IH]; cbn [List.map forallb];
    [reflexivity|].
  intros H. apply andb_true_iff in H as [H1 H2].
  rewrite (lowerChar_suffix _ H1). now apply IH.
Qed.

(** A suffix of the table, lower-cased: it is made of suffix characters and
    [multiplier] gives its power of ten. *)
Lemma table_suffix (l : str) (e : Z) :
  In (l, e) (([], 0%Z) :: siTable) ->
  forallb isSuffixChar l = true /\ multiplier l = Fin 1 e.
Proof.
  unfold siTable. cbn [In]. intros H.
  repeat (destruct H as [H|H];
          [injection H as <- <-; split; vm_compute; reflexivity|]).
  destruct H.
Qed.

End QuantityParser.


(** C4, as the code has it.  For a numeric mantissa [x] with a finite value
    and a suffix that, lower-cased, is one of the table (or no suffix, with
    the factor 1), [parseValue] gives the value of [x] times the power of ten
    of the suffix.  The suffix is compared after [toLowerCase], so an
    upper-case M is milli like m, and only meg, in any case, is mega: 1k and
    1K give 1000, 1meg and 1MEG give 1000000, 1m and 1M give 0.001. *)
Theorem C4_parseValue_suffix_table (x suf : str) (e : Z) (fallback : Num) :
  Mantissa x -> isFinite (Number x) = true ->
  In (toLowerCase suf, e) (([], 0%Z) :: siTable) ->
  parseValue (Some (x ++ suf)) fallback = mul (Number x) (Fin 1 e)
  /\ parseValue (Some (js "1k")) fallback = ofN 1000
  /\ parseValue (Some (js "1K")) fallback = ofN 1000
  /\ parseValue (Some (js "1meg")) fallback = ofN 1000000
  /\ parseValue (Some (js "1MEG")) fallback = ofN 1000000
  /\ parseValue (Some (js "1m")) fallback = Fin 1 (-3)
  /\ parseValue (Some (js "1M")) fallback = Fin 1 (-3).
Proof.
  intros Hx Hfin Hin. destruct (table_suffix Hin) as [Hl Hm].
  apply toLowerCase_suffix in Hl. split.
  - rewrite parseValue_quiet.
    + destruct (@valuePattern_mantissa x suf Hx Hl) as (m & -> & -> & ->).
      cbv zeta. now rewrite Hfin, Hm.
    + apply forallb_app_true; [now apply mantissa_quiet|now apply suffix_quiet].
  - repeat split; vm_compute; reflexivity.
Qed.

(** The mantissa 4.7 with the suffix K. *)
Lemma C4_witness :
  parseValue (Some (js "4.7" ++ js "K")) NaN = mul (Number (js "4.7")) (Fin 1 3)
  /\ parseValue (Some (js "1k")) NaN = ofN 1000
  /\ parseValue (Some (js "1K")) NaN = ofN 1000
  /\ parseValue (Some (js "1meg")) NaN = ofN 1000000
  /\ parseValue (Some (js "1MEG")) NaN = ofN 1000000
  /\ parseValue (Some (js "1m")) NaN = Fin 1 (-3)
  /\ parseValue (Some (js "1M")) NaN = Fin 1 (-3).
Proof.
  apply (@C4_parseValue_suffix_table (js "4.7") (js "K") 3%Z NaN).
  - apply (@mantissa [] (js "4") (js ".7") []).
    + now left.
    + reflexivity.
    + right. exists (js "7"). repeat split. discriminate.
    + left. discriminate.
    + now left.
  - reflexivity.
  - cbn. do 4 right. left. reflexivity.
Defined.

(** C4 as specified fails: the specification makes an upper-case M mega, and
    [parseValue] reads 1M as 0.001. *)
Lemma C4_counterexample :
  parseValue (Some (js "1M")) NaN = Fin 1 (-3)
  /\ Fin 1 (-3) <> ofN 1000000.
Proof. split; [vm_compute; reflexivity|discriminate]. Qed.

(** [parseSI] of units.ts, which the emitter does not call, reads the same
    texts otherwise: its pattern for a trailing unit letter takes a final m,
    M, f or a off before the suffix is looked up, its table has no meg, and
    the lower-cased suffix is looked up first. *)
Example parseSI_suffixes :
  Units.parseSI (Some (js "1k")) = ofN 1000
  /\ Units.parseSI (Some (js "1K")) = ofN 1000
  /\ Units.parseSI (Some (js "1m")) = ofN 1
  /\ Units.parseSI (Some (js "1M")) = ofN 1
  /\ Units.parseSI (Some (js "1meg")) = ofN 1
  /\ Units.parseSI (Some (js "1mF")) = Fin 1 (-3)
  /\ Units.parseSI (Some (js "1MF")) = Fin 1 (-3).
Proof. repeat split; vm_compute; reflexivity. Qed.

(** ** Decoding the engine output *)

Section Decoder.
Import NgSpice.

(** C5 (the code does not do this).  On the row quoted in the source the
    leading [\d+] takes every digit up to the first point, so the index is
    4999994 and the rest starts at that point; the number pattern then needs
    a digit first, and its exponent takes every digit that follows, so the
    tokens are 999830e-024, 999830e-025 and 000000e+00.  The specification
    has the index 499999 and the values 4.999830e-02, 4.999830e-02,
    5.000000e+00. *)
Theorem C5_tokenizer_on_quoted_row :
  tokenizeConcatenatedLine concatenatedRow
  = Some {| index := Number (js "4999994");
            tokens := List.map Number
                        [js "999830e-024"; js "999830e-025"; js "000000e+00"] |}
  /\ Number (js "4999994") <> Number (js "499999")
  /\ List.map Number [js "999830e-024"; js "999830e-025"; js "000000e+00"]
     <> List.map Number [js "4.999830e-02"; js "4.999830e-02"; js "5.000000e+00"].
Proof.
  split; [vm_compute; reflexivity|].
  split; vm_compute; discriminate.
Qed.

(** Once the operating-point scan has found something, the transient result
    of the final result is whatever [parseTransientData] returned, however
    few points it has: the test on [time.length] in [runNgSpice] changes
    nothing. *)
Lemma transient_attached_without_gate (deck : option str) (stdout stderr : str) :
  p_operatingPoint (parseNgSpiceOutput stdout) <> None ->
  transientData (onClose deck 0 stdout stderr) = parseTransientData stdout
  \/ p_operatingPoint (parseNgSpiceOutput stdout) = Some [].
Proof.
  intros Hop. unfold onClose. cbn [Z.eqb negb].
  unfold parseNgSpiceOutput in *.
  destruct (fold_left scanLine (split_char 10 stdout) []) as [|e op] eqn:E.
  - cbn [p_operatingPoint] in Hop. congruence.
  - left. cbn [p_operatingPoint p_transientData transientData].
    destruct (parseTransientData stdout) as [td|]; [|reflexivity].
    destruct (2 <? List.length (time td))%nat; reflexivity.
Qed.

(** C6 (the code does not do this).  An output with an operating-point line
    and a Variables / Values transient block of one row: [parseNgSpiceOutput]
    attaches the one-point transient result, which is below both thresholds
    of the file (100 in the custom format, 2 in [runNgSpice]), and the result
    is returned with it. *)
Theorem C6_short_transient_is_attached :
  let r := simulate [V1; R2] (Closed 0 shortTransient []) in
  success r = true
  /\ operatingPoint r = Some [(js "v_1", QFin 5)]
  /\ transientData r
     = Some {| time := [QFin 0];
               voltages := [(js "1", [QFin 5])];
               currents := [] |}
  /\ p_transientData (parseNgSpiceOutput shortTransient)
     = parseTransientData shortTransient.
Proof.
  cbv zeta. repeat split; vm_compute; reflexivity.
Qed.

(** C7, as the code has it.  When the engine exits with code 0, no strategy
    decodes anything that is accepted and the deck is not one DC voltage
    source and one resistor, the result says success = true and carries no
    error. *)
Theorem C7_fallback_failure_is_success
  (comps : list SimpleCircuitComponent) (stdout stderr : str) :
  decodesNothing stdout = true ->
  oneSourceOneResistor comps = false ->
  success (simulate comps (Closed 0 stdout stderr)) = true
  /\ error (simulate comps (Closed 0 stdout stderr)) = None.
Proof.
  intros _ _. unfold simulate.
  destruct (generateSimpleSpiceNetlist comps) as [netlist map].
  cbn [runNgSpice]. unfold onClose. cbn [Z.eqb negb].
  assert (F : success (fromFallback (Some netlist)) = true
              /\ error (fromFallback (Some netlist)) = None).
  { unfold fromFallback.
    destruct (performBasicCircuitAnalysis (Some netlist)). now split. }
  destruct F as [F1 F2].
  destruct (p_operatingPoint (parseNgSpiceOutput stdout)) as [[|e op]|];
    rewrite ?F1; cbn [success error]; auto.
Qed.

(** The source [V1] across the two resistors [R2] and [R4], and an engine
    that prints only a warning. *)
Lemma C7_witness :
  success (simulate [V1; R2; R4] (Closed 0 noData [])) = true
  /\ error (simulate [V1; R2; R4] (Closed 0 noData [])) = None.
Proof.
  apply (@C7_fallback_failure_is_success [V1; R2; R4] noData []).
  - vm_compute. reflexivity.
  - vm_compute. reflexivity.
Defined.

(** C7 as specified fails: for the source [V1] alone and an engine that exits
    with code 0 and prints only a warning, no strategy decodes anything, the
    deck is not one source and one resistor, and the result says
    success = true with no error. *)
Lemma C7_counterexample :
  decodesNothing noData = true
  /\ oneSourceOneResistor [V1] = false
  /\ snd (scanDeck (fst (generateSimpleSpiceNetlist [V1]))) = None
  /\ success (simulate [V1] (Closed 0 noData [])) = true
  /\ error (simulate [V1] (Closed 0 noData [])) = None.
Proof. repeat split; vm_compute; reflexivity. Qed.

(** C8 (the code does not do this for every such deck).  The loop writes the
    line of a battery without a reference under the name [V?]; the scan of
    the fallback wants word characters after the V, so it does not find the
    source, and the result has an empty operating point and no series: there
    is no current 0.005.  The deck is one DC source of 5 and one resistor of
    1000, and the engine output has no operating-point data.  With the
    reference [V1] the same circuit gives the current 5 / 1000. *)
Theorem C8_unnamed_source_gets_no_current :
  skipn 2 (lines (emitAll [Vanon; R2]))
  = [js "VV? 1 0 DC 5"; js "RR2 1 0 1000"]
  /\ oneSourceOneResistor [Vanon; R2] = true
  /\ p_operatingPoint (parseNgSpiceOutput []) = None
  /\ fst (scanDeck (fst (generateSimpleSpiceNetlist [Vanon; R2]))) = None
  /\ success (simulate [Vanon; R2] (Closed 0 [] [])) = true
  /\ operatingPoint (simulate [Vanon; R2] (Closed 0 [] [])) = Some []
  /\ transientData (simulate [Vanon; R2] (Closed 0 [] []))
     = Some {| time := [QFin 0; QFin (1 # 1000)];
               voltages := []; currents := [] |}
  /\ operatingPoint (simulate [V1; R2] (Closed 0 [] []))
     = Some [(js "v_1", QFin 5); (js "v_0", QFin 0);
             (js "i_vv1", QFin (1 # 200))].
Proof. repeat split; vm_compute; reflexivity. Qed.

(** The deck of the source [V1] and the resistor [R2]. *)
Example V1_R2_deck :
  lines (emitAll [V1; R2])
  = [js "Simple Circuit"; []; js "VV1 1 0 DC 5"; js "RR2 1 0 1000"]
  /\ oneSourceOneResistor [V1; R2] = true.
Proof. split; vm_compute; reflexivity. Qed.

End Decoder.

(* ================================================================== *)
(** * Further properties *)
(* ================================================================== *)

Import Terms.

(** ** Net names *)

Section NetNames.

Lemma dropWhile_idem (p : char -> bool) (s : str) :
  dropWhile p (dropWhile p s) = dropWhile p s.
Proof.
  induction s as [|c s IH]; simpl; [reflexivity|].
  destruct (p c) eqn:E; [exact IH|]. simpl. now rewrite E.
Qed.

Lemma trimEnd_idem (s : str) : trimEnd (trimEnd s) = trimEnd s.
Proof. unfold trimEnd. now rewrite rev_involutive, dropWhile_idem. Qed.

Lemma trimStart_trimEnd (s : str) :
  trimStart (trimEnd (trimStart s)) = trimEnd (trimStart s).
Proof.
  unfold trimStart.
  destruct (trimEnd_prefix (dropWhile isWhiteSpace s)) as [w Hw].
  destruct (trimEnd (dropWhile isWhiteSpace s)) as [|c t] eqn:E; [reflexivity|].
  simpl in Hw. apply dropWhile_head in Hw. simpl. now rewrite Hw.
Qed.

Lemma trim_idem (s : str) : trim (trim s) = trim s.
Proof.
  unfold trim at 1. unfold trim at 1. rewrite trimStart_trimEnd.
  apply trimEnd_idem.
Qed.

Lemma or_else_some (s : str) : or_else (Some s) [] = s.
Proof. destruct s; reflexivity. Qed.

Lemma normalizeNet_trim (s : str) :
  normalizeNet (Some (trim s)) = normalizeNet (Some s).
Proof.
  unfold normalizeNet.
  destruct s as [|c s]; [reflexivity|]. cbn [truthy negb].
  destruct (trim (c :: s)) as [|d t] eqn:E; [reflexivity|].
  cbn [truthy negb]. rewrite <- E, trim_idem. reflexivity.
Qed.

(** A normalised name is the ground name or the trimmed name. *)
Lemma normalizeNet_result (s : str) :
  normalizeNet (Some s) = js "0" \/ normalizeNet (Some s) = trim s.
Proof.
  unfold normalizeNet. destruct s as [|c r]; [now right|]. cbn [truthy negb].
  match goal with |- context [if ?b then _ else _] => destruct b end; auto.
Qed.

Lemma normalizeNet_idem (raw : option str) :
  normalizeNet (Some (normalizeNet raw)) = normalizeNet raw.
Proof.
  destruct raw as [s|]; [|reflexivity].
  destruct (normalizeNet_result s) as [E|E]; rewrite E.
  - reflexivity.
  - rewrite normalizeNet_trim. exact E.
Qed.

End NetNames.

(** X1.  [normalizeNet] is idempotent, and white space around a net name
    changes neither the normalised name nor what [touch] does: the trimmed
    name and the name as written get the same node and leave the same
    map. *)
Theorem normalizeNet_idempotent (raw : option str) (s : str) (m : NetToNodeMap) :
  normalizeNet (Some (normalizeNet raw)) = normalizeNet raw
  /\ normalizeNet (Some (trim s)) = normalizeNet (Some s)
  /\ touch m (Some (trim s)) = touch m (Some s).
Proof.
  split; [apply normalizeNet_idem|]. split; [apply normalizeNet_trim|].
  unfold touch. now rewrite !or_else_some, normalizeNet_trim.
Qed.

(** ** The allocator, touched again *)

Section TouchFacts.
Implicit Types (m : NetToNodeMap) (name : option str).

(** [touch] never changes an entry. *)
Lemma touch_monotone m name k v :
  lookup k m = Some v -> lookup k (snd (touch m name)) = Some v.
Proof.
  intros H.
  destruct (touch_cases m name)
    as [[_ E]|[(_ & _ & i & _ & E)|(_ & _ & Hl & E)]];
    rewrite E; cbn [snd]; try exact H.
  rewrite lookup_put_other; [exact H|]. intros ->. congruence.
Qed.


Lemma keys_put_in (V : Type) (k k' : str) (v : V) (o : obj V) :
  In k' (keys (put k v o)) -> k' = k \/ In k' (keys o).
Proof.
  intros H. destruct (lookup k' o) eqn:E.
  - right. apply lookup_in in E. change k' with (fst (k', v0)). now apply in_map.
  - destruct (eqb_str k' k) eqn:Ek; [left; now apply eqb_str_eq|].
    apply eqb_str_false in Ek. exfalso.
    assert (Hn : lookup k' (put k v o) = None)
      by (rewrite lookup_put_other; assumption).
    apply lookup_none in Hn. contradiction.
Qed.

Lemma touch_keys m name k :
  In k (keys (snd (touch m name))) ->
  In k (keys m) \/ k = normalizeNet (Some (or_else name [])).
Proof.
  destruct (touch_cases m name)
    as [[_ E]|[(_ & _ & i & _ & E)|(_ & _ & Hl & E)]];
    rewrite E; cbn [snd]; auto.
  intros H. apply keys_put_in in H. tauto.
Qed.

Lemma nodesOf_keys names : forall m k,
  In k (keys (snd (nodesOf m names))) ->
  In k (keys m)
  \/ exists nm, In nm names /\ k = normalizeNet (Some (or_else nm [])).
Proof.
  induction names as [|n names IH]; intros m k H; simpl in H; [now left|].
  pose proof (@touch_keys m n k) as H1.
  destruct (touch m n) as [i m1]. cbn [snd] in H1.
  specialize (IH m1 k). destruct (nodesOf m1 names) as [nodes m2].
  cbn [snd] in *. destruct (IH H) as [Hin|(nm & Hnm & ->)].
  - destruct (H1 Hin) as [H2| ->]; [now left|].
    right. exists n. split; [now left|reflexivity].
  - right. exists nm. split; [now right|reflexivity].
Qed.

End TouchFacts.

(** X2.  Touching a name a second time gives the node of the first time and
    leaves the map as the first time left it; and no touch, of any name,
    changes an entry that is already there. *)
Theorem touch_twice_same_node (m : NetToNodeMap) (name : option str) :
  touch (snd (touch m name)) name = (fst (touch m name), snd (touch m name))
  /\ forall other k v,
      lookup k m = Some v -> lookup k (snd (touch m other)) = Some v.
Proof.
  split; [|intros other k v; apply touch_monotone].
  destruct (touch_cases m name)
    as [[Hn E]|[(H1 & H2 & i & Hl & E)|(H1 & H2 & Hl & E)]];
    rewrite E; cbn [fst snd]; try exact E.
  destruct (touch_cases (put (normalizeNet (Some (or_else name []))) (nextIndex m) m) name)
    as [[Hn' E']|[(_ & _ & i & Hl' & E')|(_ & _ & Hl' & _)]].
  - destruct Hn'; contradiction.
  - rewrite lookup_put_same in Hl'. injection Hl' as <-. exact E'.
  - rewrite lookup_put_same in Hl'. discriminate.
Qed.

(** ** The loop over the components, component by component *)

Section LoopFacts.
Implicit Types (st : GenState) (comp : SimpleCircuitComponent).

Lemma requiredPins_none_emitKind st comp :
  isDisplayOnly (kind comp) = false ->
  requiredPins (kind comp) = None -> emitKind st comp = st.
Proof.
  intros Hd H. unfold requiredPins in H. unfold emitKind.
  destruct (eqb_str (kind comp) (js "resistor")); [discriminate|].
  destruct (eqb_str (kind comp) (js "capacitor")); [discriminate|].
  destruct (eqb_str (kind comp) (js "led") || eqb_str (kind comp) (js "diode"));
    [discriminate|].
  destruct (eqb_str (kind comp) (js "battery")); [discriminate|].
  destruct (eqb_str (kind comp) (js "transistor")); [discriminate|].
  destruct (eqb_str (kind comp) (js "node")) eqn:Hn; [|reflexivity].
  apply kind_node_display in Hn. congruence.
Qed.

(** A component that is display-only or of a kind the [switch] does not
    emit leaves the state of the loop as it is. *)
Lemma emitComponent_skips st comp :
  isEmitted comp = false -> emitComponent st comp = st.
Proof.
  unfold isEmitted, emitComponent. intros H.
  destruct (isDisplayOnly (kind comp)) eqn:Hd; [reflexivity|].
  destruct (isDisplayOnly (or_else (type comp) [])); [reflexivity|].
  cbn [orb negb andb] in *.
  destruct (requiredPins (kind comp)) eqn:Hr; [discriminate|].
  now apply requiredPins_none_emitKind.
Qed.

Lemma fold_emit_filter comps : forall st,
  fold_left emitComponent (filter isEmitted comps) st
  = fold_left emitComponent comps st.
Proof.
  induction comps as [|c comps IH]; intros st; cbn [filter fold_left];
    [reflexivity|].
  destruct (isEmitted c) eqn:E; cbn [fold_left].
  - apply IH.
  - rewrite (emitComponent_skips st c E). apply IH.
Qed.

Lemma allTruthy_wired comp (ps : list string) :
  allTruthy (List.map (pinNet comp) ps) = forallb (wired comp) ps.
Proof.
  unfold allTruthy. induction ps as [|p ps IH]; cbn [List.map forallb];
    [reflexivity|].
  rewrite IH. reflexivity.
Qed.




End LoopFacts.


(** X4.  The components that are display-only (by kind or by type) or of a
    kind other than resistor, capacitor, led, diode, battery and transistor
    leave no trace: the deck and the map are those of the circuit without
    them. *)
Theorem skipped_components_leave_no_trace (comps : list SimpleCircuitComponent) :
  generateSimpleSpiceNetlist (filter isEmitted comps)
  = generateSimpleSpiceNetlist comps.
Proof.
  unfold generateSimpleSpiceNetlist, emitAll. now rewrite fold_emit_filter.
Qed.

(** X5.  A component of an emitted kind with a required pin that is missing
    or has an empty net name is dropped whole: no line, and no node for the
    nets of its other pins. *)
Theorem unwired_component_is_dropped
  (st : GenState) (comp : SimpleCircuitComponent) (ps : list string) :
  requiredPins (kind comp) = Some ps ->
  (exists p, In p ps /\ wired comp p = false) ->
  emitComponent st comp = st.
Proof.
  intros Hr (p & Hp & Hw).
  assert (Hall : allTruthy (List.map (pinNet comp) ps) = false).
  { rewrite allTruthy_wired. apply not_true_is_false. intros H.
    rewrite forallb_forall in H. specialize (H p Hp). congruence. }
  unfold emitComponent.
  destruct (isDisplayOnly (kind comp) || isDisplayOnly (or_else (type comp) []));
    [reflexivity|].
  unfold requiredPins in Hr. unfold emitKind.
  destruct (eqb_str (kind comp) (js "resistor")).
  { injection Hr as <-. cbn [List.map] in Hall. now rewrite Hall. }
  destruct (eqb_str (kind comp) (js "capacitor")).
  { injection Hr as <-. cbn [List.map] in Hall. now rewrite Hall. }
  destruct (eqb_str (kind comp) (js "led") || eqb_str (kind comp) (js "diode")).
  { injection Hr as <-. cbn [List.map] in Hall. now rewrite Hall. }
  destruct (eqb_str (kind comp) (js "battery")).
  { injection Hr as <-. cbn [List.map] in Hall. now rewrite Hall. }
  destruct (eqb_str (kind comp) (js "transistor")).
  { injection Hr as <-. cbn [List.map] in Hall. now rewrite Hall. }
  discriminate.
Qed.

(** The resistor [Ropen], with a net on pin 1 and no pin 2, after the
    resistor [R1]. *)
Lemma unwired_component_is_dropped_witness :
  emitComponent (emitAll [R1]) Samples.Ropen = emitAll [R1].
Proof.
  apply (@unwired_component_is_dropped (emitAll [R1]) Samples.Ropen
                                       ["1"; "2"]%string).
  - reflexivity.
  - exists "2"%string. split; [right; left; reflexivity|reflexivity].
Defined.

(** A component that is of an emitted kind but lacks a net on a pin its
    case reads leaves the state as it is. *)
Lemma emitComponent_unwired st comp (ps : list string) :
  requiredPins (kind comp) = Some ps ->
  forallb (wired comp) ps = false ->
  emitComponent st comp = st.
Proof.
  intros Hr Hw. rewrite <- allTruthy_wired in Hw.
  unfold emitComponent.
  destruct (isDisplayOnly (kind comp) || isDisplayOnly (or_else (type comp) []));
    [reflexivity|].
  unfold requiredPins in Hr. unfold emitKind.
  destruct (eqb_str (kind comp) (js "resistor")).
  { injection Hr as <-. cbn [List.map] in Hw. now rewrite Hw. }
  destruct (eqb_str (kind comp) (js "capacitor")).
  { injection Hr as <-. cbn [List.map] in Hw. now rewrite Hw. }
  destruct (eqb_str (kind comp) (js "led") || eqb_str (kind comp) (js "diode")).
  { injection Hr as <-. cbn [List.map] in Hw. now rewrite Hw. }
  destruct (eqb_str (kind comp) (js "battery")).
  { injection Hr as <-. cbn [List.map] in Hw. now rewrite Hw. }
  destruct (eqb_str (kind comp) (js "transistor")).
  { injection Hr as <-. cbn [List.map] in Hw. now rewrite Hw. }
  discriminate.
Qed.

Lemma emitComponent_not_emits st comp :
  emits comp = false -> emitComponent st comp = st.
Proof.
  unfold emits. intros H.
  destruct (isEmitted comp) eqn:E; [|now apply emitComponent_skips].
  cbn [andb] in H.
  destruct (requiredPins (kind comp)) as [ps|] eqn:Hr.
  - now apply (@emitComponent_unwired st comp ps).
  - unfold isEmitted in E. rewrite Hr, andb_false_r in E. discriminate.
Qed.

(** The nets on pins that are all wired. *)
Lemma wired_nets comp (ps : list string) :
  forallb (wired comp) ps = true ->
  exists nets, List.map (pinNet comp) ps = List.map Some nets
               /\ Forall (fun s => s <> []) nets.
Proof.
  induction ps as [|p ps IH]; cbn [forallb List.map]; intros H.
  - exists []. split; [reflexivity|constructor].
  - apply andb_true_iff in H as [Hp Hps].
    destruct (IH Hps) as (nets & E & F).
    unfold wired in Hp. destruct (pinNet comp p) as [s|]; [|discriminate].
    exists (s :: nets). cbn [List.map]. rewrite E. split; [reflexivity|].
    constructor; [|exact F]. intros ->. discriminate.
Qed.

Lemma nets_from_pins comp (ps : list string) : forall nets s,
  List.map (pinNet comp) ps = List.map Some nets -> In s nets ->
  exists p, In p ps /\ pinNet comp p = Some s.
Proof.
  induction ps as [|p ps IH]; intros [|n nets] s E Hin; cbn [List.map] in E;
    try discriminate; [destruct Hin|].
  injection E as E1 E2. destruct Hin as [<-|Hin].
  - exists p. split; [now left|exact E1].
  - destruct (IH nets s E2 Hin) as (q & Hq & Hs).
    exists q. split; [now right|exact Hs].
Qed.

(** What the loop does with a component it emits: one more line, and the
    nets of the pins its case reads are touched. *)
Lemma emits_line comp :
  emits comp = true ->
  exists ps nets,
    requiredPins (kind comp) = Some ps
    /\ List.map (pinNet comp) ps = List.map Some nets
    /\ forall st, exists line,
         emitComponent st comp
         = {| netToNodeMap := snd (nodesOf (netToNodeMap st) (List.map Some nets));
              lines := lines st ++ [line] |}.
Proof.
  unfold emits, isEmitted. intros H.
  apply andb_true_iff in H as [H1 H2]. apply andb_true_iff in H1 as [Hd _].
  apply negb_true_iff, orb_false_iff in Hd as [Hd1 Hd2].
  destruct (requiredPins (kind comp)) as [ps|] eqn:Hr; [|discriminate].
  destruct (wired_nets comp ps H2) as (nets & E & F).
  exists ps, nets. split; [reflexivity|]. split; [exact E|].
  intros st.
  destruct (@emitComponent_emits st comp ps nets Hd1 Hd2 Hr E F)
    as (letter & r & tail & ->).
  eexists. reflexivity.
Qed.

(** X6.  Every key of the map [generateSimpleSpiceNetlist] returns is the
    ground name or the normalised net name of a pin of a component the loop
    emits: a component that is not display-only, of an emitted kind and with
    a net on every pin its case reads, for which the loop writes a line; the
    pin is one of those its case reads. *)
Theorem map_keys_come_from_pins
  (comps : list SimpleCircuitComponent) (k : str) :
  In k (keys (snd (generateSimpleSpiceNetlist comps))) ->
  k = js "0"
  \/ exists comp ps p s,
      In comp comps /\ emits comp = true
      /\ requiredPins (kind comp) = Some ps /\ In p ps
      /\ pinNet comp p = Some s /\ k = normalizeNet (Some s)
      /\ forall st, exists line,
           lines (emitComponent st comp) = lines st ++ [line].
Proof.
  unfold generateSimpleSpiceNetlist. cbn [snd]. unfold emitAll.
  assert (H : forall cs st,
             In k (keys (netToNodeMap (fold_left emitComponent cs st))) ->
             In k (keys (netToNodeMap st))
             \/ exists comp ps p s,
                 In comp cs /\ emits comp = true
                 /\ requiredPins (kind comp) = Some ps /\ In p ps
                 /\ pinNet comp p = Some s /\ k = normalizeNet (Some s)
                 /\ forall st, exists line,
                      lines (emitComponent st comp) = lines st ++ [line]).
  { induction cs as [|c cs IH]; intros st Hin; cbn [fold_left] in Hin;
      [now left|].
    destruct (IH _ Hin)
      as [H1|(comp & ps & p & s & Hc & He & Hr & Hp & Hs & Hk & Hl)].
    - destruct (emits c) eqn:Ec.
      + destruct (emits_line c Ec) as (ps & nets & Hr & E & Hemit).
        destruct (Hemit st) as [line Hst]. rewrite Hst in H1.
        cbn [netToNodeMap] in H1. apply nodesOf_keys in H1.
        destruct H1 as [H1|(nm & Hnm & ->)]; [now left|].
        right. apply in_map_iff in Hnm as (s & <- & Hs).
        destruct (@nets_from_pins c ps nets s E Hs) as (p & Hp & Hps).
        exists c, ps, p, s. rewrite or_else_some.
        repeat split; auto; [now left|].
        intros st'. destruct (Hemit st') as [line' ->]. now exists line'.
      + rewrite (emitComponent_not_emits st c Ec) in H1. now left.
    - right. exists comp, ps, p, s. repeat split; auto. now right. }
  intros Hin. destruct (H _ _ Hin) as [H1|H1]; [|now right].
  left. cbn in H1. destruct H1 as [<-|[]]. reflexivity.
Qed.

(** The key A of the map of the resistor [R1]. *)
Lemma map_keys_come_from_pins_witness :
  js "A" = js "0"
  \/ exists comp ps p s,
      In comp [R1] /\ emits comp = true
      /\ requiredPins (kind comp) = Some ps /\ In p ps
      /\ pinNet comp p = Some s /\ js "A" = normalizeNet (Some s)
      /\ forall st, exists line,
           lines (emitComponent st comp) = lines st ++ [line].
Proof.
  apply (@map_keys_come_from_pins [R1] (js "A")).
  vm_compute. right. left. reflexivity.
Defined.

(** ** The control lines *)

Section PrintLine.

Lemma nodeList_values (m : NetToNodeMap) :
  nodeList m = List.map vLabel (filter (fun v => 0 <? v) (values m)).
Proof.
  unfold nodeList, values. induction m as [|[k v] m IH]; cbn [filter List.map];
    [reflexivity|].
  cbn [snd]. destruct (0 <? v); cbn [List.map]; now rewrite IH.
Qed.

Lemma Permutation_filter_N (f : N -> bool) (l l' : list N) :
  Permutation l l' -> Permutation (filter f l) (filter f l').
Proof.
  induction 1 as [|x l l' _ IH|x y l|l l' l'' _ IH1 _ IH2]; cbn [filter].
  - constructor.
  - destruct (f x); [now constructor|assumption].
  - destruct (f x), (f y); try reflexivity. apply perm_swap.
  - now transitivity (filter f l').
Qed.

(** Under the invariant the indices of the map are 0, 1, ..., one for each
    entry. *)
Lemma values_perm (m : NetToNodeMap) :
  Inv m ->
  Permutation (values m) (List.map N.of_nat (seq 0 (List.length m))).
Proof.
  intros (_ & _ & Hv & Hr). apply NoDup_Permutation.
  - exact Hv.
  - generalize (seq_NoDup (List.length m) 0).
    induction (seq 0 (List.length m)) as [|a l IH]; intros Hnd; cbn [List.map];
      [constructor|].
    inversion Hnd as [|? ? Hnotin Hnd']; subst. constructor; [|now apply IH].
    rewrite in_map_iff. intros (b & E & Hb). apply Nat2N.inj in E. congruence.
  - intros v. rewrite Hr, in_map_iff. split.
    + intros Hlt. exists (N.to_nat v). rewrite N2Nat.id. split; [reflexivity|].
      apply in_seq. lia.
    + intros (i & <- & Hi). apply in_seq in Hi. lia.
Qed.

Lemma filter_positive_from (k : nat) : forall a, (0 < a)%nat ->
  filter (fun v => 0 <? v) (List.map N.of_nat (seq a k))
  = List.map N.of_nat (seq a k).
Proof.
  induction k as [|k IH]; intros b Hb; cbn [seq List.map filter];
    [reflexivity|].
  assert (E : (0 <? N.of_nat b) = true) by (apply N.ltb_lt; lia).
  rewrite E, IH by lia. reflexivity.
Qed.

Lemma filter_positive (n : nat) :
  filter (fun v => 0 <? v) (List.map N.of_nat (seq 0 n))
  = List.map N.of_nat (seq 1 (n - 1)).
Proof.
  destruct n as [|n]; [reflexivity|].
  cbn [seq List.map filter Nat.sub].
  change (0 <? N.of_nat 0) with false. cbv iota.
  rewrite Nat.sub_0_r. apply filter_positive_from. lia.
Qed.

(** The deck is its lines joined by line feeds, and the last four are the
    [wrdata] line, the [print] line, [.endc] and [.end]. *)
Lemma deck_control_lines (comps : list SimpleCircuitComponent) :
  exists head,
    fst (generateSimpleSpiceNetlist comps)
    = join [10]
        (head ++ [js "wrdata tran.csv time "
                    ++ join sp (nodeList (snd (generateSimpleSpiceNetlist comps)));
                  js "print time "
                    ++ join sp (nodeList (snd (generateSimpleSpiceNetlist comps)));
                  js ".endc"; js ".end"]).
Proof.
  unfold generateSimpleSpiceNetlist. cbn [fst snd].
  match goal with
  | |- context [join [10] (?a ++ ?b ++ ?c ++ ?d)] =>
      match d with
      | context C [[?w; ?p; js ".endc"; js ".end"]] =>
          let d' := context C [@nil str] in
          exists (a ++ b ++ c ++ d');
          assert (E : a ++ b ++ c ++ d
                      = (a ++ b ++ c ++ d') ++ [w; p; js ".endc"; js ".end"])
      end
  end.
  { rewrite <- !app_assoc. apply f_equal. apply f_equal. apply f_equal.
    reflexivity. }
  now rewrite E.
Qed.

End PrintLine.

(** X7.  The deck ends with the [wrdata] line, the [print] line, [.endc]
    and [.end]; the vectors the two lines ask for, after [time], are the same,
    and they are v(1), ..., v(K), each once, for a map of K + 1 entries:
    every node but ground, and nothing else. *)
Theorem print_line_lists_every_node (comps : list SimpleCircuitComponent) :
  let m := snd (generateSimpleSpiceNetlist comps) in
  (exists head,
     fst (generateSimpleSpiceNetlist comps)
     = join [10] (head ++ [js "wrdata tran.csv time " ++ join sp (nodeList m);
                           js "print time " ++ join sp (nodeList m);
                           js ".endc"; js ".end"]))
  /\ Permutation (nodeList m)
                 (List.map vLabel (List.map N.of_nat (seq 1 (List.length m - 1)))).
Proof.
  cbv zeta. split; [apply deck_control_lines|].
  rewrite nodeList_values. apply Permutation_map.
  rewrite <- filter_positive. apply Permutation_filter_N.
  apply values_perm. apply generate_Inv.
Qed.

(** ** Quantities, at the edges *)

Section ParseValueFacts.

Lemma mkFin_not_NaN (m e : Z) : mkFin m e <> NaN.
Proof.
  unfold mkFin. destruct (m =? 0)%Z; [discriminate|].
  destruct (overflows m e); [discriminate|].
  destruct (strip10 _ m e). discriminate.
Qed.

Lemma multiplier_power (s : str) : exists k, multiplier s = Fin 1 k.
Proof.
  unfold multiplier.
  repeat match goal with
         | |- context [if ?b then _ else _] => destruct b
         end; eexists; reflexivity.
Qed.

Lemma mul_multiplier_not_NaN (x : Num) (s : str) :
  isFinite x = true -> mul x (multiplier s) <> NaN.
Proof.
  destruct x as [| |m e]; try discriminate. intros _.
  destruct (multiplier_power s) as [k ->]. cbn [mul]. apply mkFin_not_NaN.
Qed.

End ParseValueFacts.

(** X8.  [parseValue] gives [NaN] only when its fallback is [NaN]: whatever
    the text, with the fallbacks the emitters pass (1000, 1e-6, 5) the value
    printed in a device line is a number, finite or infinite. *)
Theorem parseValue_never_NaN (val : option str) (fallback : Num) :
  fallback <> NaN -> parseValue val fallback <> NaN.
Proof.
  intros Hf. unfold parseValue. destruct val as [v|]; [|exact Hf].
  cbv zeta.
  match goal with
  | |- context [Regex.exec ?r ?s] => destruct (Regex.exec r s) as [m|]
  end.
  - match goal with |- context [isFinite ?n] => destruct (isFinite n) eqn:E end;
      cbn [negb]; [|exact Hf].
    now apply mul_multiplier_not_NaN.
  - match goal with |- context [isFinite ?n] => destruct n eqn:E end;
      cbn [isFinite]; try exact Hf. discriminate.
Qed.

(** The text abc with the fallback of a resistor. *)
Lemma parseValue_never_NaN_witness :
  parseValue (Some (js "abc")) (Fin 1 3) <> NaN.
Proof.
  apply (@parseValue_never_NaN (Some (js "abc")) (Fin 1 3)). discriminate.
Defined.

(** X9.  A value made of white space only (the empty text, too) is read as
    0, not as the fallback: [Number] of the empty text is 0. *)
Theorem parseValue_blank_is_zero (v : str) (fallback : Num) :
  forallb isWhiteSpace v = true -> parseValue (Some v) fallback = Fin 0 0.
Proof.
  intros H. unfold parseValue. rewrite (trim_blank _ H). reflexivity.
Qed.

(** Two spaces, with the fallback of a resistor. *)
Lemma parseValue_blank_is_zero_witness :
  parseValue (Some (js "  ")) (Fin 1 3) = Fin 0 0.
Proof.
  apply (@parseValue_blank_is_zero (js "  ") (Fin 1 3)). reflexivity.
Defined.

(** ** The result of a run *)

Section Results.
Import NgSpice.

Lemma fromFallback_success (deck : option str) :
  success (fromFallback deck) = true
  /\ error (fromFallback deck) = None
  /\ netToNodeMap (fromFallback deck) = None
  /\ exists op, operatingPoint (fromFallback deck) = Some op.
Proof.
  unfold fromFallback. destruct (performBasicCircuitAnalysis deck) as [op td].
  repeat split. now exists op.
Qed.

Lemma onClose_zero (deck : option str) (stdout stderr : str) :
  let r := onClose deck 0 stdout stderr in
  success r = true /\ error r = None /\ netToNodeMap r = None
  /\ exists op, operatingPoint r = Some op.
Proof.
  cbv zeta. unfold onClose. cbn [Z.eqb negb].
  destruct (p_operatingPoint (parseNgSpiceOutput stdout)) as [[|e op]|];
    try apply fromFallback_success.
  repeat split. eexists. reflexivity.
Qed.

Lemma onClose_nonzero (deck : option str) (code : Z) (stdout stderr : str) :
  code <> 0%Z ->
  onClose deck code stdout stderr
  = {| success := false; operatingPoint := None; netToNodeMap := None;
       transientData := None;
       error := Some (js "NGSpice exited with code " ++ Z_toString code
                         ++ js ": " ++ stderr) |}.
Proof.
  intros H. unfold onClose. apply Z.eqb_neq in H. now rewrite H.
Qed.

(** What [simulate] returns, by what the engine did. *)
Lemma simulate_cases (comps : list SimpleCircuitComponent) (o : Outcome) :
  let r := simulate comps o in
  ((exists stdout stderr, o = Closed 0 stdout stderr)
   /\ success r = true
   /\ netToNodeMap r = Some (snd (generateSimpleSpiceNetlist comps))
   /\ error r = None
   /\ exists op, operatingPoint r = Some op)
  \/ ((forall stdout stderr, o <> Closed 0 stdout stderr)
      /\ success r = false
      /\ netToNodeMap r = None /\ operatingPoint r = None
      /\ transientData r = None
      /\ exists e, error r = Some e).
Proof.
  cbv zeta. unfold simulate.
  destruct (generateSimpleSpiceNetlist comps) as [netlist map]. cbn [snd].
  destruct o as [code stdout stderr|message]; cbn [runNgSpice].
  - destruct (Z.eq_dec code 0) as [->|Hc].
    + left. destruct (onClose_zero (Some netlist) stdout stderr)
        as (Hs & He & Hm & op & Hop).
      rewrite Hs. cbn [success netToNodeMap error operatingPoint].
      rewrite ?He, ?Hop. split; [now exists stdout, stderr|].
      repeat split. now exists op.
    + right. rewrite (@onClose_nonzero (Some netlist) code stdout stderr Hc).
      cbn [success netToNodeMap error operatingPoint transientData].
      split; [intros out err E; congruence|].
      repeat split. eexists. reflexivity.
  - right. cbn [success netToNodeMap error operatingPoint transientData].
    split; [intros out err E; discriminate|].
    repeat split. eexists. reflexivity.
Qed.

(** X10.  [simulate] reports success exactly when the engine process closed
    with exit code 0, whatever it printed.  A successful result carries the
    node map of the deck, an operating-point map and no error; a failed one
    carries an error text and nothing else. *)
Theorem simulate_succeeds_iff_exit_zero
  (comps : list SimpleCircuitComponent) (o : Outcome) :
  let r := simulate comps o in
  (success r = true <-> exists stdout stderr, o = Closed 0 stdout stderr)
  /\ (success r = true ->
      netToNodeMap r = Some (snd (generateSimpleSpiceNetlist comps))
      /\ error r = None
      /\ exists op, operatingPoint r = Some op)
  /\ (success r = false ->
      netToNodeMap r = None /\ operatingPoint r = None
      /\ transientData r = None
      /\ exists e, error r = Some e).
Proof.
  cbv zeta.
  destruct (simulate_cases comps o)
    as [(Hz & Hs & Hm & He & Hop)|(Hnz & Hs & Hm & Hop & Htd & He)];
    rewrite Hs.
  - split; [split; [intros _; exact Hz|reflexivity]|].
    split; [intros _; auto|discriminate].
  - split; [split; [discriminate|]|].
    + intros (out & err & E). exfalso. exact (Hnz out err E).
    + split; [discriminate|]. intros _. auto.
Qed.

End Results.

Section Answers.
Import NgSpice Route.

(** X11.  The handler of [POST /simulate] answers a valid request with status
    200 or 400: 200 exactly when the engine closed with exit code 0, with
    the node map of the deck and the operating point of the result in the
    data; 400 otherwise, with the text [Simulation failed] and the error text
    of the result as details. *)
Theorem postSimulate_status
  (comps : list SimpleCircuitComponent) (o : Outcome) :
  let answer := postSimulate comps o in
  (status answer = 200 \/ status answer = 400)
  /\ (status answer = 200 <-> exists stdout stderr, o = Closed 0 stdout stderr)
  /\ (status answer = 200 ->
      exists data,
        body answer = Succeeded data
        /\ d_netToNodeMap data = snd (generateSimpleSpiceNetlist comps)
        /\ operatingPoint (simulate comps o) = Some (d_operatingPoint data))
  /\ (status answer = 400 ->
      exists message,
        body answer = Failed (js "Simulation failed") (Some message)
        /\ error (simulate comps o) = Some message).
Proof.
  cbv zeta. unfold postSimulate.
  destruct (simulate_cases comps o)
    as [(Hz & Hs & Hm & He & op & Hop)|(Hnz & Hs & Hm & Hop & Htd & e & He)];
    rewrite Hs; cbn [negb status body].
  - split; [now left|]. split; [split; [intros _; exact Hz|reflexivity]|].
    split; [|discriminate]. intros _. eexists. split; [reflexivity|].
    cbn [d_netToNodeMap d_operatingPoint]. rewrite Hm, Hop. split; reflexivity.
  - split; [now right|]. split; [split; [discriminate|]|].
    + intros (out & err & E). exfalso. exact (Hnz out err E).
    + split; [discriminate|]. intros _. exists e. now rewrite He.
Qed.

End Answers.

(** ** Dictionaries, again *)

Section ObjMore.
Variable V : Type.
Implicit Types (o : obj V) (k : str) (v : V).

Lemma keys_cons k v o : keys ((k, v) :: o) = k :: keys o.
Proof. reflexivity. Qed.

Lemma keys_update k v o : keys (update k v o) = keys o.
Proof.
  induction o as [|[k' v'] o IH]; cbn [update]; [reflexivity|].
  destruct (eqb_str k k'); [reflexivity|].
  rewrite !keys_cons. now f_equal.
Qed.

Lemma put_NoDup k v o : NoDup (keys o) -> NoDup (keys (put k v o)).
Proof.
  intros H. unfold put, has. destruct (lookup k o) eqn:E.
  - now rewrite keys_update.
  - eapply Permutation_NoDup.
    + symmetry. apply (Permutation_map fst). apply insert_new_perm.
    + cbn [List.map fst]. constructor; [now apply lookup_none|exact H].
Qed.

Lemma lookup_app_new k k' v o :
  lookup k' (o ++ [(k, v)])
  = match lookup k' o with
    | Some x => Some x
    | None => if eqb_str k' k then Some v else None
    end.
Proof.
  induction o as [|[k2 v2] o IH]; cbn [app lookup]; [reflexivity|].
  destruct (eqb_str k' k2); [reflexivity|exact IH].
Qed.

Lemma values_app_new k v o : values (o ++ [(k, v)]) = values o ++ [v].
Proof. unfold values. now rewrite map_app. Qed.

End ObjMore.

(** ** The decoders, line by line and row by row *)

Section OperatingPoint.
Import NgSpice.

Lemma scanLine_keys (op : obj QNum) (line : str) :
  NoDup (keys op) /\ Forall labelled (keys op) ->
  NoDup (keys (scanLine op line)) /\ Forall labelled (keys (scanLine op line)).
Proof.
  intros [Hnd Hl].
  assert (Hput : forall (pre : string) g v,
             (pre = "v_"%string \/ pre = "i_"%string) ->
             NoDup (keys (put (js pre ++ g) v op))
             /\ Forall labelled (keys (put (js pre ++ g) v op))).
  { intros pre g v Hpre. split; [now apply put_NoDup|].
    apply Forall_forall. intros k Hk. apply keys_put_in in Hk.
    destruct Hk as [->|Hk].
    - exists g. destruct Hpre as [->| ->]; auto.
    - rewrite Forall_forall in Hl. auto. }
  unfold scanLine.
  repeat match goal with
         | |- context [match Regex.exec ?r ?s with _ => _ end] =>
             destruct (Regex.exec r s)
         end; auto.
Qed.

Lemma scanLines_keys (ls : list str) : forall op,
  NoDup (keys op) /\ Forall labelled (keys op) ->
  NoDup (keys (fold_left scanLine ls op))
  /\ Forall labelled (keys (fold_left scanLine ls op)).
Proof.
  induction ls as [|l ls IH]; intros op H; cbn [fold_left]; [exact H|].
  apply IH. now apply scanLine_keys.
Qed.

(** X12.  An operating-point map that [parseNgSpiceOutput] returns is never
    empty, has no key twice, and each of its keys is [v_] or [i_] followed
    by a name. *)
Theorem operating_point_keys_labelled (output : str) (op : obj QNum) :
  p_operatingPoint (parseNgSpiceOutput output) = Some op ->
  op <> [] /\ NoDup (keys op) /\ Forall labelled (keys op).
Proof.
  unfold parseNgSpiceOutput.
  pose proof (@scanLines_keys (split_char 10 output) []) as H.
  destruct (fold_left scanLine (split_char 10 output) []) as [|e l];
    cbn [p_operatingPoint]; [discriminate|].
  intros E. injection E as <-. split; [discriminate|].
  apply H. split; constructor.
Qed.

(** The output [Samples.onePoint], a single operating-point line. *)
Lemma operating_point_keys_labelled_witness :
  [(js "v_1", QFin 5)] <> []
  /\ NoDup (keys [(js "v_1", QFin 5)])
  /\ Forall labelled (keys [(js "v_1", QFin 5)]).
Proof.
  apply (@operating_point_keys_labelled Samples.onePoint [(js "v_1", QFin 5)]).
  vm_compute. reflexivity.
Defined.

End OperatingPoint.

Section CustomFormat.
Import NgSpice.

Lemma customRow_times (st : CustomState) (line : str) :
  c_time (customRow st line)
  = c_time st ++ match rowTime line with Some t => [t] | None => [] end
  /\ pointCount (customRow st line)
     = (pointCount st
        + List.length (match rowTime line with Some t => [t] | None => [] end))%nat.
Proof.
  assert (Hst : c_time st = c_time st ++ []
                /\ pointCount st = (pointCount st + List.length (@nil QNum))%nat).
  { rewrite app_nil_r. cbn [List.length]. split; [reflexivity|lia]. }
  unfold customRow, rowTime. cbv zeta.
  destruct (negb (truthy (trim line)) || startsWith (js "Index") (trim line));
    [exact Hst|].
  destruct (tokenizeConcatenatedLine (trim line)) as [[i [|t [|v vs]]]|];
    try exact Hst.
  destruct (isFinite t); [|exact Hst].
  cbn [pointCount c_time List.length]. split; [reflexivity|lia].
Qed.

Lemma customRows_times (ls : list str) : forall st,
  c_time (fold_left customRow ls st)
  = c_time st
    ++ flat_map (fun line => match rowTime line with Some t => [t] | None => [] end) ls
  /\ pointCount (fold_left customRow ls st)
     = (pointCount st
        + List.length
            (flat_map (fun line => match rowTime line with
                                   | Some t => [t] | None => [] end) ls))%nat.
Proof.
  induction ls as [|l ls IH]; intros st; cbn [fold_left flat_map].
  - rewrite app_nil_r. cbn [List.length]. split; [reflexivity|lia].
  - destruct (IH (customRow st l)) as [E1 E2].
    destruct (customRow_times st l) as [F1 F2].
    rewrite E1, E2, F1, F2, length_app, app_assoc. split; [reflexivity|lia].
Qed.

(** X13.  [parseCustomTransientFormat] counts the rows that are not blank,
    do not start with Index and give a finite time and at least one voltage.
    With 100 such rows or fewer it returns nothing; with more it returns a
    result whose time points are the times of those rows, one for each, in
    order, and which has no current series. *)
Theorem custom_format_needs_101_points (dataLines : str) :
  ((List.length (rowTimes dataLines) <= 100)%nat ->
   parseCustomTransientFormat dataLines = None)
  /\ ((100 < List.length (rowTimes dataLines))%nat ->
      exists td, parseCustomTransientFormat dataLines = Some td
                 /\ time td = rowTimes dataLines
                 /\ currents td = []).
Proof.
  unfold parseCustomTransientFormat, rowTimes.
  match goal with |- context [fold_left customRow ?ls ?st] =>
    destruct (@customRows_times ls st) as [E1 E2];
    destruct (fold_left customRow ls st) as [t v n mx]
  end.
  cbn [pointCount c_time c_voltages app Nat.add] in *. subst t n.
  split; intros H.
  - apply Nat.leb_le in H. rewrite Nat.ltb_antisym, H. reflexivity.
  - apply Nat.ltb_lt in H. rewrite H. eexists. split; [reflexivity|].
    split; reflexivity.
Qed.

(** The 101 rows of [Samples.longRows]; with 100 of them there is no
    result. *)
Lemma custom_format_needs_101_points_witness :
  (exists td, parseCustomTransientFormat Samples.longRows = Some td
              /\ time td = rowTimes Samples.longRows
              /\ currents td = [])
  /\ parseCustomTransientFormat
       (List.concat (repeat (js "7 1.5 2.5" ++ [10]) 100)) = None.
Proof.
  split.
  - apply (proj2 (custom_format_needs_101_points Samples.longRows)).
    vm_compute. lia.
  - apply (proj1 (custom_format_needs_101_points
                    (List.concat (repeat (js "7 1.5 2.5" ++ [10]) 100)))).
    vm_compute. lia.
Defined.

End CustomFormat.

Section Series.
Import NgSpice.

Lemma lookup_pushAt_other (k k' : str) (v : QNum) (o : obj (list QNum)) :
  k' <> k -> lookup k' (pushAt k v o) = lookup k' o.
Proof.
  intros H. unfold pushAt. destruct (lookup k o); now apply lookup_put_other.
Qed.

Lemma fold_pushAt_other (g : str * nat -> QNum) (vi : obj nat) (k : str) :
  ~ In k (keys vi) ->
  forall o, lookup k (fold_left (fun o e => pushAt (fst e) (g e) o) vi o)
            = lookup k o.
Proof.
  induction vi as [|[k1 i1] vi IH]; intros Hk o; cbn [fold_left];
    [reflexivity|].
  rewrite keys_cons in Hk. cbn [In] in Hk. rewrite IH by tauto. cbn [fst].
  apply lookup_pushAt_other. intros ->. tauto.
Qed.

Lemma fold_pushAt_in (g : str * nat -> QNum) (vi : obj nat) (k : str) :
  NoDup (keys vi) -> In k (keys vi) ->
  forall o xs, lookup k o = Some xs ->
  exists v, lookup k (fold_left (fun o e => pushAt (fst e) (g e) o) vi o)
            = Some (xs ++ [v]).
Proof.
  induction vi as [|[k1 i1] vi IH]; intros Hnd Hk o xs Hl; [destruct Hk|].
  rewrite keys_cons in Hnd, Hk. cbn [In] in Hk.
  inversion Hnd as [|? ? Hnotin Hnd']; subst.
  cbn [fold_left fst].
  destruct (str_eq_dec k k1) as [->|Hne].
  - exists (g (k1, i1)). rewrite fold_pushAt_other by exact Hnotin.
    unfold pushAt. rewrite Hl. apply lookup_put_same.
  - destruct Hk as [Hk|Hk]; [congruence|].
    apply IH; try assumption.
    rewrite lookup_pushAt_other by exact Hne. exact Hl.
Qed.

Lemma fold_init_other (vi : obj nat) (k : str) :
  ~ In k (keys vi) ->
  forall o : obj (list QNum),
    lookup k (fold_left (fun o e => put (fst e) [] o) vi o) = lookup k o.
Proof.
  induction vi as [|[k1 i1] vi IH]; intros Hk o; cbn [fold_left];
    [reflexivity|].
  rewrite keys_cons in Hk. cbn [In] in Hk. rewrite IH by tauto. cbn [fst].
  apply lookup_put_other. intros ->. tauto.
Qed.

Lemma fold_init_in (vi : obj nat) (k : str) :
  In k (keys vi) ->
  forall o : obj (list QNum),
    lookup k (fold_left (fun o e => put (fst e) [] o) vi o) = Some [].
Proof.
  induction vi as [|[k1 i1] vi IH]; intros Hk o; [destruct Hk|].
  cbn [fold_left fst].
  destruct (in_dec str_eq_dec k (keys vi)) as [Hin|Hnotin].
  - now apply IH.
  - rewrite keys_cons in Hk. cbn [In] in Hk.
    destruct Hk as [<-|Hk]; [|contradiction].
    rewrite fold_init_other by exact Hnotin. apply lookup_put_same.
Qed.

(** A row is skipped, or it adds one time point and one sample to the
    series of every name of [vi]: the invariant is kept. *)
Lemma rows_aligned (vi : obj nat)
      (row : list QNum * obj (list QNum) -> str -> list QNum * obj (list QNum)) :
  NoDup (keys vi) ->
  (forall acc r,
      row acc r = acc
      \/ exists t g,
          row acc r = (fst acc ++ [t],
                       fold_left (fun o e => pushAt (fst e) (g e) o) vi (snd acc))) ->
  forall rows acc, rowsInv vi acc -> rowsInv vi (fold_left row rows acc).
Proof.
  intros Hnd Hrow. induction rows as [|r rows IH]; intros acc HI;
    cbn [fold_left]; [exact HI|].
  apply IH. destruct (Hrow acc r) as [->|(t & g & ->)]; [exact HI|].
  intros k. cbn [fst snd]. split.
  - intros Hk. destruct (HI k) as [H1 _]. destruct (H1 Hk) as (xs & Hl & Hlen).
    destruct (@fold_pushAt_in g vi k Hnd Hk (snd acc) xs Hl) as [v Hv].
    exists (xs ++ [v]). split; [exact Hv|].
    rewrite !length_app. cbn [List.length]. lia.
  - intros Hk. rewrite fold_pushAt_other by exact Hk. now apply HI.
Qed.

Lemma fold_left_ext (A B : Type) (f g : A -> B -> A) (l : list B) :
  (forall a b, f a b = g a b) -> forall a, fold_left f l a = fold_left g l a.
Proof.
  intros H. induction l as [|x l IH]; intros a; cbn [fold_left];
    [reflexivity|].
  now rewrite H, IH.
Qed.

Lemma voltageIndices_NoDup (A : Type) (f : A -> option (str * nat))
      (l : list A) : forall o : obj nat,
  NoDup (keys o) ->
  NoDup (keys (fold_left (fun o x => match f x with
                                     | Some kv => put (fst kv) (snd kv) o
                                     | None => o
                                     end) l o)).
Proof.
  induction l as [|x l IH]; intros o H; cbn [fold_left]; [exact H|].
  apply IH. destruct (f x) as [[k v]|]; [now apply put_NoDup|exact H].
Qed.

(** X14.  In a transient result decoded from a Variables / Values block
    (the custom format not being there) every voltage series has exactly
    one sample for each time point, and there is no current series. *)
Theorem values_block_series_aligned (output : str) (td : TransientData) :
  Regex.exec reCustomFormat output = None ->
  parseTransientData output = Some td ->
  aligned td /\ currents td = [].
Proof.
  intros Hc. unfold parseTransientData. rewrite Hc.
  destruct (negb (Regex.test rePlotname output)); [discriminate|].
  destruct (Regex.exec reVariables output) as [vm|]; [|discriminate].
  destruct (Regex.exec reValues output) as [wm|]; [|discriminate].
  cbv zeta.
  match goal with |- context [findIndex ?p ?l] =>
    destruct (findIndex p l) as [timeIdx|]; [|discriminate]
  end.
  match goal with
  | |- context [fold_left ?row ?rows ([], fold_left ?init ?vi [])] =>
      assert (Hnd : NoDup (keys vi));
      [|assert (HI : rowsInv vi (fold_left row rows ([], fold_left init vi [])));
        [apply rows_aligned; [exact Hnd| |]|
         destruct (fold_left row rows ([], fold_left init vi [])) as [tm vs]]]
  end.
  - match goal with
    | |- NoDup (keys (fold_left _ ?l [])) =>
        pose proof (@voltageIndices_NoDup _
          (fun ni : str * nat =>
             match Regex.exec reVoltageName (fst ni) with
             | Some m => Some (Regex.group 1 (Regex.groups m), snd ni)
             | None => None
             end) l [] (NoDup_nil _)) as H
    end.
    match type of H with
    | NoDup (keys (fold_left ?f ?l [])) =>
        match goal with
        | |- NoDup (keys (fold_left ?f' l [])) =>
            replace (fold_left f' l []) with (fold_left f l []); [exact H|]
        end
    end.
    apply fold_left_ext. intros o x.
    destruct (Regex.exec reVoltageName (fst x)); reflexivity.
  - intros acc r.
    destruct (negb (List.length (Regex.split reSpaces (trim r)) =? _)%nat);
      [now left|].
    match goal with |- context [isFinite ?t] => destruct (isFinite t) end;
      cbn [negb]; [|now left].
    right. eexists _, (fun e => finiteOrZero (NumberAt _ (snd e))). reflexivity.
  - intros k. cbn [fst snd List.length]. split.
    + intros Hk. exists []. split; [now apply fold_init_in|reflexivity].
    + intros Hk. now rewrite fold_init_other.
  - intros E. injection E as <-. split; [|reflexivity].
    intros k xs Hl. cbn [voltages time] in *.
    match type of HI with
    | rowsInv ?vi _ => destruct (in_dec str_eq_dec k (keys vi)) as [Hin|Hnotin]
    end.
    + destruct (HI k) as [H1 _]. destruct (H1 Hin) as (xs' & Hl' & Hlen).
      cbn [fst snd] in *. congruence.
    + destruct (HI k) as [_ H2]. specialize (H2 Hnotin). cbn [snd] in H2.
      congruence.
Qed.

(** The output [shortTransient], decoded to [Samples.shortSeries]. *)
Lemma values_block_series_aligned_witness :
  aligned Samples.shortSeries /\ currents Samples.shortSeries = [].
Proof.
  apply (@values_block_series_aligned shortTransient Samples.shortSeries).
  - vm_compute. reflexivity.
  - vm_compute. reflexivity.
Defined.

End Series.

(** ** The end card of the deck *)

Section TrailingEnd.
Import Regex Runner.

(** White space up to the end of the text. *)
Lemma run_ws_eol (p : char -> bool) (s : str) : forall n c,
  run (Seq (Star true (Chr p)) (Seq Eol Eps)) (MState n s c)
  = if forallb p s then [MState (n + List.length s) [] c] else [].
Proof.
  induction s as [|x t IH]; intros n c.
  - rewrite run_seq_unfold, run_star_stop by exact I.
    cbn [flat_map forallb List.length]. rewrite Nat.add_0_r. reflexivity.
  - rewrite run_seq_unfold. cbn [forallb]. destruct (p x) eqn:E.
    + rewrite run_star_step by exact E. rewrite flat_map_app.
      rewrite <- run_seq_unfold, IH. cbn [flat_map andb List.length].
      rewrite app_nil_r, Nat.add_succ_r. reflexivity.
    + rewrite run_star_stop by exact E. reflexivity.
Qed.

Lemma run_chi_seq (x : char) (R : re) n (s : str) c :
  run (Seq (chi x) R) (MState n s c)
  = match s with
    | a :: t => if upperChar a =? upperChar x
                then run R (MState (S n) t c) else []
    | [] => []
    end.
Proof.
  rewrite run_seq_unfold. unfold chi. cbn [run rest pos caps].
  destruct s as [|a t]; [reflexivity|].
  destruct (upperChar a =? upperChar x); cbn [flat_map];
    [apply app_nil_r|reflexivity].
Qed.

Lemma run_endCard n (s : str) c :
  run (seqs [chi 46; chi 101; chi 110; chi 100;
             Star true (cls isWhiteSpace); Eol]) (MState n s c)
  = if endCard s then [MState (n + List.length s) [] c] else [].
Proof.
  unfold seqs. cbn [fold_right]. unfold cls.
  destruct s as [|a [|b [|c' [|d w]]]]; rewrite run_chi_seq; try reflexivity.
  - destruct (upperChar a =? upperChar 46); [|reflexivity].
    rewrite run_chi_seq. reflexivity.
  - destruct (upperChar a =? upperChar 46); [|reflexivity].
    rewrite run_chi_seq.
    destruct (upperChar b =? upperChar 101); [|reflexivity].
    rewrite run_chi_seq. reflexivity.
  - destruct (upperChar a =? upperChar 46); [|reflexivity].
    rewrite run_chi_seq.
    destruct (upperChar b =? upperChar 101); [|reflexivity].
    rewrite run_chi_seq.
    destruct (upperChar c' =? upperChar 110); [|reflexivity].
    rewrite run_chi_seq. reflexivity.
  - unfold endCard.
    destruct (upperChar a =? upperChar 46); [|reflexivity].
    rewrite run_chi_seq.
    destruct (upperChar b =? upperChar 101); [|reflexivity].
    rewrite run_chi_seq.
    destruct (upperChar c' =? upperChar 110); [|reflexivity].
    rewrite run_chi_seq.
    destruct (upperChar d =? upperChar 100); [|reflexivity].
    rewrite run_ws_eol. cbn [andb List.length].
    destruct (forallb isWhiteSpace w); [|reflexivity].
    do 2 f_equal. lia.
Qed.

Lemma run_opt_seq (p : char -> bool) (R : re) n (s : str) c :
  run (Seq (opt (Chr p)) R) (MState n s c)
  = match s with
    | x :: t => if p x then run R (MState (S n) t c) else []
    | [] => []
    end
    ++ run R (MState n s c).
Proof.
  rewrite run_seq_unfold. unfold opt. rewrite run_alt_unfold, flat_map_app.
  cbn [run rest pos caps flat_map]. rewrite app_nil_r. f_equal.
  destruct s as [|x t]; [reflexivity|].
  destruct (p x); cbn [flat_map]; [apply app_nil_r|reflexivity].
Qed.

(** Where the pattern matches: at a line feed followed by an end card, or at
    an end card. *)
Lemma run_reTrailingEnd n (s : str) c :
  run reTrailingEnd (MState n s c)
  = match s with
    | x :: t => if 10 =? x
                then (if endCard t then [MState (S n + List.length t) [] c] else [])
                else []
    | [] => []
    end
    ++ if endCard s then [MState (n + List.length s) [] c] else [].
Proof.
  unfold reTrailingEnd.
  change (seqs (opt (ch 10) :: ?l)) with (Seq (opt (ch 10)) (seqs l)).
  unfold ch. rewrite run_opt_seq, !run_endCard.
  destruct s as [|x t]; [reflexivity|].
  destruct (10 =? x); [|reflexivity]. now rewrite run_endCard.
Qed.

Lemma endCard_not_ws (d : char) :
  (upperChar d =? upperChar 100) = true -> isWhiteSpace d = false.
Proof.
  intros H. apply N.eqb_eq in H. unfold upperChar in H.
  change (isLower 100) with true in H. cbv iota in H.
  change (100 - 32) with 68 in H.
  destruct (isLower d) eqn:E.
  - assert (Hd : d = 100).
    { unfold isLower, in_range in E. apply andb_true_iff in E as [E1 E2].
      apply N.leb_le in E1. lia. }
    subst. reflexivity.
  - subst. reflexivity.
Qed.

(** No end card starts before a line feed and an end card: the last letter
    of that card would have to be white space. *)
Lemma endCard_before (v e : str) :
  endCard e = true -> endCard (v ++ 10 :: e) = false.
Proof.
  intros He. destruct e as [|a [|b [|c [|d w]]]]; try discriminate.
  cbn [endCard] in He. rewrite !andb_true_iff in He.
  destruct He as [[[[_ _] _] Hd] _].
  pose proof (endCard_not_ws d Hd) as Hw.
  assert (E : v ++ 10 :: a :: b :: c :: d :: w
              = (v ++ [10; a; b; c]) ++ d :: w)
    by (now rewrite <- app_assoc).
  rewrite E. clear E.
  assert (L : (4 <= List.length (v ++ [10%N; a; b; c]))%nat)
    by (rewrite length_app; cbn [List.length]; lia).
  destruct (v ++ [10; a; b; c]) as [|p0 [|p1 [|p2 [|p3 q]]]];
    cbn [List.length] in L; try lia.
  cbn [app endCard]. rewrite forallb_app. cbn [forallb]. rewrite Hw.
  now rewrite !andb_false_r.
Qed.

Lemma matchAt_before (v e : str) n :
  v <> [] -> endCard e = true ->
  matchAt reTrailingEnd n (v ++ 10 :: e) = None.
Proof.
  intros Hv He. unfold matchAt. rewrite run_reTrailingEnd.
  rewrite (endCard_before v e He).
  destruct v as [|x v]; [congruence|]. cbn [app].
  rewrite (endCard_before v e He).
  destruct (10 =? x); reflexivity.
Qed.

Lemma matchAt_there (e : str) n :
  endCard e = true ->
  exists m, matchAt reTrailingEnd n (10 :: e) = Some m
            /\ index m = n /\ after m = [].
Proof.
  intros He. unfold matchAt. rewrite run_reTrailingEnd.
  rewrite N.eqb_refl, He. cbn [app]. eexists. split; [reflexivity|].
  split; reflexivity.
Qed.

(** A search skips a prefix at no position of which the pattern matches. *)
Lemma searchFrom_skip (r : re) (e : str) (u : str) : forall n,
  (forall u1 u2, u = u1 ++ u2 -> u2 <> [] ->
                 matchAt r (n + List.length u1) (u2 ++ e) = None) ->
  searchFrom r n (u ++ e) = searchFrom r (n + List.length u) e.
Proof.
  induction u as [|x u IH]; intros n H.
  - cbn [app List.length]. now rewrite Nat.add_0_r.
  - cbn [app searchFrom].
    pose proof (H [] (x :: u) eq_refl) as H0. cbn [List.length app] in H0.
    rewrite Nat.add_0_r in H0. rewrite H0 by discriminate.
    rewrite IH.
    + cbn [List.length]. now rewrite Nat.add_succ_r.
    + intros u1 u2 E Hne. specialize (H (x :: u1) u2).
      cbn [List.length] in H. rewrite Nat.add_succ_r in H.
      apply H; [now rewrite E|exact Hne].
Qed.

(** The first match of the pattern in a text that ends with a line feed and
    an end card is that line feed and end card. *)
Lemma removeFirst_endCard (t e : str) :
  endCard e = true -> removeFirst reTrailingEnd (t ++ 10 :: e) = t.
Proof.
  intros He. unfold removeFirst, exec.
  rewrite searchFrom_skip.
  - destruct (@matchAt_there e (0 + List.length t) He) as (m & Hm & Hi & Ha).
    rewrite (searchFrom_hit _ _ _ Hm), Hi, Ha.
    rewrite app_nil_r, Nat.add_0_l.
    rewrite firstn_app, Nat.sub_diag, firstn_all. cbn [firstn].
    apply app_nil_r.
  - intros u1 u2 _ Hne. now apply matchAt_before.
Qed.

Lemma trimEnd_last (s : str) (c : char) :
  isWhiteSpace c = false -> trimEnd (s ++ [c]) = s ++ [c].
Proof.
  intros H. unfold trimEnd. rewrite rev_app_distr. cbn [rev app dropWhile].
  rewrite H. cbn [rev]. now rewrite rev_involutive.
Qed.

Lemma join_last (sep : str) (xs : list str) (t : str) :
  xs <> [] -> join sep (xs ++ [t]) = join sep xs ++ sep ++ t.
Proof.
  induction xs as [|x xs IH]; [congruence|]. intros _.
  destruct xs as [|y xs].
  - reflexivity.
  - change (join sep ((x :: y :: xs) ++ [t]))
      with (x ++ sep ++ join sep ((y :: xs) ++ [t])).
    rewrite IH by discriminate.
    change (join sep (x :: y :: xs)) with (x ++ sep ++ join sep (y :: xs)).
    now rewrite <- !app_assoc.
Qed.

(** The deck ends with the lines [.endc] and [.end]. *)
Lemma deck_tail (comps : list SimpleCircuitComponent) :
  exists body,
    fst (generateSimpleSpiceNetlist comps)
    = (body ++ js ".endc") ++ 10 :: js ".end".
Proof.
  unfold generateSimpleSpiceNetlist. cbn [fst].
  match goal with
  | |- context [join [10] (?a ++ ?b ++ ?c ++ ?d)] =>
      match d with
      | context C [[js ".endc"; js ".end"]] =>
          let d' := context C [@nil str] in
          assert (E : a ++ b ++ c ++ d
            = ((a ++ b ++ c ++ d') ++ [js ".endc"]) ++ [js ".end"])
      end
  end.
  { rewrite <- !app_assoc. apply f_equal. apply f_equal. apply f_equal.
    reflexivity. }
  rewrite E. clear E.
  match goal with
  | |- context [join [10] ((?A ++ [?x]) ++ [?y])] =>
      rewrite (@join_last [10] (A ++ [x]) y);
      [rewrite (@join_last [10] A x); [exists (join [10] A ++ [10])|]|]
  end.
  - rewrite <- !app_assoc. reflexivity.
  - destruct (lines (emitAll comps)); discriminate.
  - intros H. apply app_eq_nil in H as [_ H]. discriminate.
Qed.

(** X15.  [ensureSingleEnd] is idempotent, and its result is a text without
    white space at its end followed by a line feed, the card [.end] and a
    line feed. *)
Theorem ensureSingleEnd_idempotent (src : str) :
  ensureSingleEnd (ensureSingleEnd src) = ensureSingleEnd src
  /\ exists body, ensureSingleEnd src = body ++ 10 :: js ".end" ++ [10]
                  /\ trimEnd body = body.
Proof.
  unfold ensureSingleEnd at 2 3. cbv zeta.
  set (body := trimEnd (Regex.removeFirst reTrailingEnd src)).
  assert (Hb : trimEnd body = body) by apply trimEnd_idem.
  split; [|now exists body].
  unfold ensureSingleEnd. cbv zeta.
  rewrite removeFirst_endCard by reflexivity. now rewrite Hb.
Qed.

(** X16.  On the deck of any circuit [ensureSingleEnd] changes nothing but
    to add a line feed at the end: the deck ends with the lines [.endc] and
    [.end], and the pattern finds that last card and no earlier one. *)
Theorem deck_gets_single_end (comps : list SimpleCircuitComponent) :
  ensureSingleEnd (fst (generateSimpleSpiceNetlist comps))
  = fst (generateSimpleSpiceNetlist comps) ++ [10].
Proof.
  destruct (deck_tail comps) as [body ->].
  unfold ensureSingleEnd. cbv zeta.
  rewrite removeFirst_endCard by reflexivity.
  change (js ".endc") with (js ".end" ++ [99]).
  rewrite app_assoc, trimEnd_last by reflexivity.
  rewrite <- !app_assoc. reflexivity.
Qed.

End TrailingEnd.

(** ** The circuit store *)

Section StorageFacts.
Import Storage.
Variables Json Date : Type.
Implicit Types (m : Circuits Json Date) (c : Circuit Json Date) (k : str).

Lemma get_set_same k c m : lookup k (Map_set k c m) = Some c.
Proof.
  unfold Map_set. destruct (has k m) eqn:E.
  - now apply lookup_update_same.
  - rewrite lookup_app_new. unfold has in E.
    destruct (lookup k m); [discriminate|]. now rewrite eqb_str_refl.
Qed.

Lemma get_set_other k k' c m :
  k' <> k -> lookup k' (Map_set k c m) = lookup k' m.
Proof.
  intros H. unfold Map_set. destruct (has k m).
  - now apply lookup_update_other.
  - rewrite lookup_app_new. destruct (lookup k' m); [reflexivity|].
    now rewrite (eqb_str_neq H).
Qed.

Lemma keys_set k c m :
  keys (Map_set k c m) = if has k m then keys m else keys m ++ [k].
Proof.
  unfold Map_set. destruct (has k m).
  - apply keys_update.
  - unfold keys. now rewrite map_app.
Qed.

Lemma set_consistent k c m :
  id c = k -> consistent m -> consistent (Map_set k c m).
Proof.
  intros Hid [Hnd Hm]. split.
  - rewrite keys_set. destruct (has k m) eqn:E; [exact Hnd|].
    apply NoDup_app; [exact Hnd|repeat constructor; simpl; tauto|].
    unfold has in E. destruct (lookup k m) eqn:El; [discriminate|].
    apply lookup_none in El. intros x Hx [<-|[]]. contradiction.
  - intros k' c' H. destruct (str_eq_dec k' k) as [->|Hne].
    + rewrite get_set_same in H. congruence.
    + rewrite get_set_other in H by exact Hne. now apply Hm.
Qed.

Lemma lookup_filter_out k k' m :
  lookup k' (filter (fun e => negb (eqb_str k (fst e))) m)
  = if eqb_str k k' then None else lookup k' m.
Proof.
  induction m as [|[k2 c2] m IH]; cbn [filter lookup fst].
  - now destruct (eqb_str k k').
  - destruct (eqb_str k k2) eqn:E2; cbn [negb lookup].
    + rewrite IH. destruct (eqb_str k k') eqn:E; [reflexivity|].
      apply eqb_str_eq in E2. subst k2.
      destruct (eqb_str k' k) eqn:E'; [|reflexivity].
      apply eqb_str_eq in E'. subst. now rewrite eqb_str_refl in E.
    + rewrite IH. destruct (eqb_str k k') eqn:E; [|reflexivity].
      apply eqb_str_eq in E. subst k'. now rewrite E2.
Qed.

Lemma filter_out_keys k m :
  keys (filter (fun e => negb (eqb_str k (fst e))) m)
  = filter (fun k' => negb (eqb_str k k')) (keys m).
Proof.
  induction m as [|[k2 c2] m IH]; cbn [filter]; [reflexivity|].
  rewrite keys_cons. cbn [filter fst].
  destruct (eqb_str k k2); cbn [negb]; rewrite ?keys_cons; now rewrite IH.
Qed.

Lemma NoDup_filter_str (f : str -> bool) (l : list str) :
  NoDup l -> NoDup (filter f l).
Proof.
  induction 1 as [|x l Hx Hnd IH]; cbn [filter]; [constructor|].
  destruct (f x); [|exact IH]. constructor; [|exact IH].
  intros H. apply filter_In in H. tauto.
Qed.

Lemma delete_consistent k m :
  consistent m -> consistent (snd (deleteCircuit m k)).
Proof.
  intros [Hnd Hm]. unfold deleteCircuit, Map_delete. cbn [snd]. split.
  - rewrite filter_out_keys. now apply NoDup_filter_str.
  - intros k' c H. rewrite lookup_filter_out in H.
    destruct (eqb_str k k'); [discriminate|]. now apply Hm.
Qed.

Lemma filter_twice (A : Type) (f : A -> bool) (l : list A) :
  filter f (filter f l) = filter f l.
Proof.
  induction l as [|x l IH]; cbn [filter]; [reflexivity|].
  destruct (f x) eqn:E; cbn [filter]; [rewrite E; now f_equal|exact IH].
Qed.

(** X17.  A circuit that [createCircuit] stores is found again under its
    identifier, with the name and the data of the request and with no
    description unless the request has a non-empty one; the circuits under
    other identifiers are as before; under a fresh identifier the new
    circuit comes last in [getAllCircuits]. *)
Theorem create_then_get
  (circuits : Circuits Json Date) (insertCircuit : InsertCircuit Json)
  (uuid : str) (now1 now2 : Date) :
  let created := fst (createCircuit circuits insertCircuit uuid now1 now2) in
  let circuits' := snd (createCircuit circuits insertCircuit uuid now1 now2) in
  getCircuit circuits' uuid = Some created
  /\ id created = uuid
  /\ name created = i_name insertCircuit
  /\ data created = i_data insertCircuit
  /\ (description created = None
      \/ exists d, d <> [] /\ description created = Some d
                   /\ i_description insertCircuit = Some (Some d))
  /\ (forall k, k <> uuid -> getCircuit circuits' k = getCircuit circuits k)
  /\ (getCircuit circuits uuid = None ->
      getAllCircuits circuits' = getAllCircuits circuits ++ [created])
  /\ (consistent circuits -> consistent circuits').
Proof.
  cbv zeta. unfold createCircuit, getCircuit, getAllCircuits. cbn [fst snd].
  split; [apply get_set_same|]. split; [reflexivity|].
  split; [reflexivity|]. split; [reflexivity|]. split.
  { cbn [description].
    destruct (i_description insertCircuit) as [[[|x d]|]|]; auto.
    right. exists (x :: d). repeat split. discriminate. }
  split; [intros k Hk; now apply get_set_other|]. split.
  - intros Hn. unfold Map_set, has. rewrite Hn. apply values_app_new.
  - intros Hc. now apply set_consistent.
Qed.

(** X18.  [updateCircuit] on an identifier that is not stored returns
    nothing and changes nothing.  On a stored one it returns the circuit it
    stores: identifier and creation date are kept, name and data are those
    of the update, the description is kept when the update has none, and
    the order of the circuits is as before; no other circuit changes. *)
Theorem update_keeps_identity
  (circuits : Circuits Json Date) (id0 : str)
  (updates : InsertCircuit Json) (now : Date) :
  let updated := fst (updateCircuit circuits id0 updates now) in
  let circuits' := snd (updateCircuit circuits id0 updates now) in
  (getCircuit circuits id0 = None -> updated = None /\ circuits' = circuits)
  /\ (forall existing,
         getCircuit circuits id0 = Some existing ->
         exists c,
           updated = Some c
           /\ getCircuit circuits' id0 = Some c
           /\ id c = id existing
           /\ createdAt c = createdAt existing
           /\ updatedAt c = Some now
           /\ name c = i_name updates
           /\ data c = i_data updates
           /\ (i_description updates = None ->
               description c = description existing)
           /\ (forall d, i_description updates = Some d -> description c = d)
           /\ keys circuits' = keys circuits)
  /\ (forall k, k <> id0 -> getCircuit circuits' k = getCircuit circuits k)
  /\ (consistent circuits -> consistent circuits').
Proof.
  cbv zeta. unfold updateCircuit, getCircuit.
  destruct (lookup id0 circuits) as [existing|] eqn:E; cbn [fst snd].
  - split; [discriminate|]. split.
    + intros ex Hex. injection Hex as <-. eexists. split; [reflexivity|].
      split; [apply get_set_same|].
      cbn [id createdAt updatedAt name data description].
      repeat split.
      * intros ->. reflexivity.
      * intros d ->. reflexivity.
      * rewrite keys_set. unfold has. now rewrite E.
    + split; [intros k Hk; now apply get_set_other|].
      intros Hc. apply set_consistent; [|exact Hc].
      cbn [id]. destruct Hc as [_ Hc]. now apply Hc.
  - split; [auto|]. split; [discriminate|]. split; auto.
Qed.

(** X19.  [deleteCircuit] returns true exactly when the identifier was
    stored; afterwards nothing is stored under it, the other circuits are
    as before, and deleting it again returns false and changes nothing. *)
Theorem delete_then_get (circuits : Circuits Json Date) (id0 : str) :
  let deleted := fst (deleteCircuit circuits id0) in
  let circuits' := snd (deleteCircuit circuits id0) in
  (deleted = true <-> exists c, getCircuit circuits id0 = Some c)
  /\ getCircuit circuits' id0 = None
  /\ (forall k, k <> id0 -> getCircuit circuits' k = getCircuit circuits k)
  /\ deleteCircuit circuits' id0 = (false, circuits')
  /\ (consistent circuits -> consistent circuits').
Proof.
  cbv zeta. split; [|split; [|split; [|split]]].
  - unfold deleteCircuit, Map_delete, getCircuit, has. cbn [fst].
    destruct (lookup id0 circuits) as [c|]; split; try discriminate.
    + intros _. now exists c.
    + reflexivity.
    + intros [c H]. discriminate.
  - unfold deleteCircuit, Map_delete, getCircuit. cbn [snd].
    now rewrite lookup_filter_out, eqb_str_refl.
  - intros k Hk. unfold deleteCircuit, Map_delete, getCircuit. cbn [snd].
    rewrite lookup_filter_out.
    destruct (eqb_str id0 k) eqn:E; [|reflexivity].
    apply eqb_str_eq in E. congruence.
  - unfold deleteCircuit, Map_delete. cbn [snd]. f_equal.
    + unfold has. now rewrite lookup_filter_out, eqb_str_refl.
    + apply filter_twice.
  - apply delete_consistent.
Qed.

End StorageFacts.

(* ================================================================== *)
(** * server/utils/units.ts *)
(* ================================================================== *)

Import UnitTerms.

Section DigitsPattern.
Import Regex.
Variables sg xp sf : char -> bool.
Hypothesis sg_digit : forall c, isDigit c = true -> sg c = false.
Hypothesis sf_digit : forall c, sf c = true -> isDigit c = false.
Hypothesis sf_sg : forall c, sf c = true -> sg c = false.
Hypothesis sf_point : forall c, sf c = true -> (46 =? c) = false.

Let expBranch : re :=
  seqs [cls xp; opt (cls sg); plus true (cls isDigit)].
Let numberPart : re :=
  seqs [opt (cls sg); Star true (cls isDigit); opt (ch 46);
        plus true (cls isDigit); opt expBranch].
Let pattern : re :=
  seqs [Bol; Group 1 numberPart; Group 2 (Star true (cls sf)); Eol].

Lemma sf_headNot (p : char -> bool) (s : str) :
  (forall c, sf c = true -> p c = false) ->
  forallb sf s = true -> headNot p s.
Proof.
  intros Hp. destruct s as [|c t]; simpl; [auto|].
  intros H. apply andb_true_iff in H as [Hc _]. auto.
Qed.

Lemma expBranch_fails (suf : str) n c :
  forallb sf suf = true -> run expBranch (MState n suf c) = [].
Proof.
  intros Hs. unfold expBranch, seqs, cls. cbn [fold_right].
  rewrite run_seq_unfold.
  destruct suf as [|x t]; [reflexivity|].
  destruct (xp x) eqn:Ex.
  - rewrite run_chr_hit by exact Ex. cbn [flat_map]. rewrite app_nil_r.
    cbn [forallb] in Hs. apply andb_true_iff in Hs as [_ Ht].
    rewrite run_seq_unfold.
    rewrite run_opt_miss by (now apply sf_headNot).
    cbn [flat_map]. rewrite app_nil_r, run_seq_unfold.
    rewrite plus_miss by (now apply sf_headNot). reflexivity.
  - rewrite run_chr_miss by exact Ex. reflexivity.
Qed.

(** On a run of digits followed by suffix characters, the first way the
    number part matches takes the digits. *)
Lemma numberPart_digits (ds suf : str) n c :
  ds <> [] -> allDigits ds -> forallb sf suf = true ->
  heads (run numberPart (MState n (ds ++ suf) c))
        (MState (n + List.length ds) suf c).
Proof.
  intros Hne Hd Hs.
  assert (Hsd : headNot isDigit suf) by (now apply sf_headNot).
  assert (Hsp : headNot (N.eqb 46) suf) by (now apply sf_headNot).
  unfold numberPart, seqs. cbn [fold_right].
  eapply heads_seq.
  { unfold opt, cls. apply heads_alt_r; [|apply heads_eps].
    apply run_chr_miss. destruct ds as [|d ds']; [congruence|].
    cbn [app headNot]. apply sg_digit.
    unfold allDigits in Hd. cbn [forallb] in Hd.
    now apply andb_true_iff in Hd. }
  destruct (exists_last Hne) as (ip & d & ->).
  unfold allDigits in Hd. rewrite forallb_app in Hd.
  apply andb_true_iff in Hd as [Hip Hd1]. cbn [forallb] in Hd1.
  rewrite andb_true_r in Hd1.
  destruct (@star_two isDigit ip n d suf c Hip Hd1 Hsd) as [t Ht].
  unfold cls. eapply heads_seq_skip; [exact Ht| |].
  - rewrite run_seq_unfold. unfold ch.
    rewrite run_opt_miss by exact Hsp.
    cbn [flat_map]. rewrite app_nil_r, run_seq_unfold.
    rewrite plus_miss by exact Hsd. reflexivity.
  - eapply heads_seq.
    { unfold opt, ch. apply heads_alt_r; [|apply heads_eps].
      apply run_chr_miss. cbn [headNot].
      unfold isDigit, in_range in Hd1. apply andb_true_iff in Hd1 as [H1 H2].
      apply N.leb_le in H1, H2. apply N.eqb_neq. lia. }
    eapply heads_seq.
    { apply (@plus_head isDigit [d] _ suf c); [discriminate| |exact Hsd].
      cbn [forallb]. now rewrite Hd1. }
    eapply heads_seq.
    { unfold opt. apply heads_alt_r; [now apply expBranch_fails|apply heads_eps]. }
    eapply heads_at; [apply heads_eps|].
    rewrite !length_app. cbn [List.length]. lia.
Qed.

Lemma pattern_digits (ds suf : str) :
  ds <> [] -> allDigits ds -> forallb sf suf = true ->
  exists m, exec pattern (ds ++ suf) = Some m
            /\ group 1 (groups m) = ds /\ group 2 (groups m) = suf.
Proof.
  intros Hne Hd Hs.
  assert (H : heads (run pattern (MState 0 (ds ++ suf) []))
                    (MState (List.length ds + List.length suf) []
                            [(2%nat, suf); (1%nat, ds)])).
  { unfold pattern, seqs. cbn [fold_right].
    eapply heads_seq; [eexists; reflexivity|].
    eapply heads_seq.
    { apply heads_group. apply (@numberPart_digits ds suf 0 [] Hne Hd Hs). }
    cbn [pos rest caps]. rewrite Nat.sub_0_r, Nat.add_0_l.
    replace (firstn (List.length ds) (ds ++ suf)) with ds
      by (rewrite firstn_app, Nat.sub_diag, firstn_all; cbn [firstn];
          now rewrite app_nil_r).
    eapply heads_seq.
    { apply heads_group. unfold cls.
      pose proof (@star_head sf suf (List.length ds) [] [(1%nat, ds)]
                             Hs I) as Hh.
      rewrite app_nil_r in Hh. exact Hh. }
    cbn [pos rest caps].
    replace (List.length ds + List.length suf - List.length ds)%nat
      with (List.length suf) by lia.
    rewrite firstn_all.
    eapply heads_seq; [eexists; reflexivity|apply heads_eps]. }
  destruct H as [t Ht].
  eexists. split.
  - unfold exec. apply searchFrom_hit. unfold matchAt. rewrite Ht. reflexivity.
  - cbn [groups]. split; reflexivity.
Qed.

End DigitsPattern.

Section ParseSIFacts.
Import Regex Units.

Lemma upperChar_cases (c k : char) :
  upperChar c = k -> c = k \/ c = k + 32.
Proof.
  unfold upperChar. destruct (isLower c) eqn:E; [|auto].
  unfold isLower, in_range in E. apply andb_true_iff in E as [E1 E2].
  apply N.leb_le in E1, E2. lia.
Qed.

Lemma sameLetter_cases (x c : char) :
  sameLetter x c = true ->
  c = upperChar x \/ c = upperChar x + 32 \/ (x = 937 /\ c = 969).
Proof.
  unfold sameLetter. intros H. apply orb_true_iff in H as [H|H].
  - apply N.eqb_eq in H. symmetry in H. apply upperChar_cases in H. tauto.
  - apply andb_true_iff in H as [H1 H2]. apply N.eqb_eq in H1, H2. tauto.
Qed.

(** The characters of the unit class. *)
Lemma unit_class_cases (c : char) :
  isUnitClassChar c = true ->
  In c [937; 969; 79; 111; 72; 104; 77; 109; 124; 156; 70; 102; 86; 118; 65; 97].
Proof.
  unfold isUnitClassChar.
  intros H. apply existsb_exists in H as (x & Hx & Hs).
  apply sameLetter_cases in Hs.
  vm_compute in Hx.
  repeat (destruct Hx as [Hx|Hx];
          [subst x; vm_compute in Hs;
           destruct Hs as [->|[->|[Hs ->]]]; try discriminate Hs;
           cbn [In]; auto 30|]).
  destruct Hx.
Qed.
Lemma unit_class_plain (c : char) :
  isUnitClassChar c = true ->
  isWhiteSpace c = false /\ ((c =? 44) || (c =? 32)) = false.
Proof.
  intros H. apply unit_class_cases in H. cbn [In] in H.
  repeat (destruct H as [<-|H]; [split; reflexivity|]). destruct H.
Qed.

Lemma digit_plain (c : char) :
  isDigit c = true ->
  isWhiteSpace c = false /\ ((c =? 44) || (c =? 32)) = false
  /\ isUnitClassChar c = false
  /\ (sameLetter 937 c || (upperChar c =? upperChar 111)) = false.
Proof.
  intros H. unfold isDigit, in_range in H. apply andb_true_iff in H as [H1 H2].
  apply N.leb_le in H1, H2.
  assert (Hc : In c [48; 49; 50; 51; 52; 53; 54; 55; 56; 57]).
  { cbn [In]. lia. }
  cbn [In] in Hc.
  repeat (destruct Hc as [<-|Hc]; [repeat split; reflexivity|]). destruct Hc.
Qed.

Lemma siLetter_plain (c : char) :
  siLetter c = true ->
  isWhiteSpace c = false /\ ((c =? 44) || (c =? 32)) = false
  /\ (sameLetter 937 c || (upperChar c =? upperChar 111)) = false
  /\ (isAlpha c || (c =? 181) || (c =? 956)) = true.
Proof.
  unfold siLetter. intros H.
  assert (Hu : upperChar 111 = 79) by reflexivity. rewrite Hu.
  assert (Hc : (isAlpha c = true /\ (upperChar c =? 79) = false)
               \/ c = 181 \/ c = 956).
  { apply orb_true_iff in H as [H|H]; [apply orb_true_iff in H as [H|H]|].
    - apply andb_true_iff in H as [Ha Hn]. apply negb_true_iff in Hn. auto.
    - apply N.eqb_eq in H. auto.
    - apply N.eqb_eq in H. auto. }
  destruct Hc as [[Ha Hn]|[->| ->]]; [|repeat split; reflexivity ..].
  rewrite Ha, Hn.
  assert (Hr : 65 <= c <= 122).
  { unfold isAlpha, isLower, isUpper, in_range in Ha.
    apply orb_true_iff in Ha as [Ha|Ha]; apply andb_true_iff in Ha as [H1 H2];
      apply N.leb_le in H1, H2; lia. }
  assert (Hw : isWhiteSpace c = false).
  { unfold isWhiteSpace.
    repeat match goal with
           | |- context [?a =? c] =>
               replace (a =? c) with false by (symmetry; apply N.eqb_neq; lia)
           | |- context [c =? ?a] =>
               replace (c =? a) with false by (symmetry; apply N.eqb_neq; lia)
           | |- context [in_range ?a ?b c] =>
               replace (in_range a b c) with false
                 by (symmetry; unfold in_range; apply andb_false_iff;
                     rewrite !N.leb_gt; lia)
           end.
    reflexivity. }
  split; [exact Hw|]. split; [|split; [|reflexivity]].
  - replace (c =? 44) with false by (symmetry; apply N.eqb_neq; lia).
    replace (c =? 32) with false by (symmetry; apply N.eqb_neq; lia).
    reflexivity.
  - unfold sameLetter.
    replace (c =? 969) with false by (symmetry; apply N.eqb_neq; lia).
    rewrite andb_false_r, orb_false_r.
    assert (Hq : upperChar 937 = 937) by reflexivity. rewrite Hq.
    rewrite orb_false_r. apply N.eqb_neq. intros E. symmetry in E.
    apply upperChar_cases in E. lia.
Qed.
Lemma run_chr_eol (p : char -> bool) n (s : str) c :
  run (Seq (Chr p) Eol) (MState n s c)
  = match s with
    | [x] => if p x then [MState (S n) [] c] else []
    | _ => []
    end.
Proof.
  cbn [run rest pos caps]. destruct s as [|x [|y t]]; [reflexivity| |];
    destruct (p x); reflexivity.
Qed.

(** Deleting one last character of a class: the text loses its last
    character when that is in the class, and stays as it is otherwise. *)
Lemma removeFirst_chr_eol (p : char -> bool) (u : str) (x : char) :
  removeFirst (Seq (Chr p) Eol) (u ++ [x]) = if p x then u else u ++ [x].
Proof.
  unfold removeFirst, exec.
  rewrite searchFrom_skip.
  - cbn [searchFrom]. unfold matchAt. rewrite !run_chr_eol.
    destruct (p x).
    + cbn [index after pos rest caps]. rewrite Nat.add_0_l.
      rewrite firstn_app, Nat.sub_diag, firstn_all. cbn [firstn].
      now rewrite !app_nil_r.
    + reflexivity.
  - intros u1 u2 _ Hne. unfold matchAt. rewrite run_chr_eol.
    destruct u2 as [|a [|b t]]; [congruence|reflexivity|reflexivity].
Qed.

Lemma removeFirst_unit_kept (ds suf : str) :
  ds <> [] -> allDigits ds -> endsWithUnit suf = false ->
  removeFirst (Seq (cls isUnitClassChar) Eol) (ds ++ suf) = ds ++ suf.
Proof.
  intros Hne Hd He. unfold cls.
  destruct (exists_last Hne) as (ip & d & ->).
  destruct suf as [|c t] using rev_ind.
  - rewrite app_nil_r, removeFirst_chr_eol.
    unfold allDigits in Hd. rewrite forallb_app in Hd.
    apply andb_true_iff in Hd as [_ Hd]. cbn [forallb] in Hd.
    rewrite andb_true_r in Hd. apply digit_plain in Hd as (_ & _ & Hu & _).
    now rewrite Hu.
  - unfold endsWithUnit in He. rewrite rev_app_distr in He. cbn [rev app] in He.
    rewrite app_assoc, removeFirst_chr_eol, He. reflexivity.
Qed.

Lemma ohm_pattern_miss n (s : str) c :
  headNot (fun c => sameLetter 937 c || (upperChar c =? upperChar 111)) s ->
  run (Alt (cls (sameLetter 937)) (Seq (liti "ohm") (opt (chi 115))))
      (MState n s c) = [].
Proof.
  intros H. rewrite run_alt_unfold. unfold cls.
  destruct s as [|a t].
  - reflexivity.
  - cbn [headNot] in H. apply orb_false_iff in H as [H1 H2].
    rewrite run_chr_miss by exact H1. cbn [app].
    rewrite run_seq_unfold. unfold liti.
    change (seqs (List.map chi (js "ohm")))
      with (Seq (chi 111) (seqs (List.map chi (js "hm")))).
    rewrite run_chi_seq, H2. reflexivity.
Qed.

Lemma forallb_both (f g : char -> bool) (s : str) :
  (forall c, f c = true -> g c = true) ->
  forallb f s = true -> forallb g s = true.
Proof.
  intros H Hs. apply forallb_forall. intros c Hc. apply H.
  revert c Hc. now apply forallb_forall.
Qed.

(** The three deletions of [parseSI] and the match, on digits followed by
    suffix letters. *)
Lemma parseSI_core (ds suf : str) :
  ds <> [] -> allDigits ds -> forallb siLetter suf = true ->
  match exec siPattern
          (removeAll (Alt (cls (sameLetter 937))
                          (Seq (liti "ohm") (opt (chi 115)))) (ds ++ suf)) with
  | None => NaN
  | Some m =>
      mul (parseFloat (group 1 (groups m)))
          (siFactor (group 2 (groups m)))
  end = mul (parseFloat ds) (siFactor suf).
Proof.
  intros Hne Hd Hs.
  rewrite (@removeAll_none _ (fun c => sameLetter 937 c || (upperChar c =? upperChar 111))).
  - destruct (@pattern_digits (fun c => (c =? 45) || (c =? 43)) (N.eqb 101)
                (fun c => isAlpha c || (c =? 181) || (c =? 956))) with (ds := ds) (suf := suf)
      as (m & Hm & H1 & H2).
    + intros c H. unfold isDigit, in_range in H.
      apply andb_true_iff in H as [Ha Hb]. apply N.leb_le in Ha, Hb.
      apply orb_false_iff. split; apply N.eqb_neq; lia.
    + intros c H. destruct (isDigit c) eqn:E; [|reflexivity].
      unfold isDigit, in_range in E.
      apply andb_true_iff in E as [Ha Hb]. apply N.leb_le in Ha, Hb.
      exfalso. unfold isAlpha, isLower, isUpper, in_range in H.
      rewrite !orb_true_iff, !andb_true_iff, !N.leb_le, !N.eqb_eq in H. lia.
    + intros c H. unfold isAlpha, isLower, isUpper, in_range in H.
      rewrite !orb_true_iff, !andb_true_iff, !N.leb_le, !N.eqb_eq in H.
      apply orb_false_iff. split; apply N.eqb_neq; lia.
    + intros c H. unfold isAlpha, isLower, isUpper, in_range in H.
      rewrite !orb_true_iff, !andb_true_iff, !N.leb_le, !N.eqb_eq in H.
      apply N.eqb_neq; lia.
    + exact Hne.
    + exact Hd.
    + revert Hs. apply forallb_both. intros c Hc. now apply siLetter_plain in Hc.
    + change (exec siPattern (ds ++ suf) = Some m) in Hm.
      rewrite Hm, H1, H2. reflexivity.
  - intros n s' c. apply ohm_pattern_miss.
  - rewrite forallb_app. apply andb_true_iff. split.
    + revert Hd. apply forallb_both. intros c Hc.
      apply digit_plain in Hc as (_ & _ & _ & Hc). now rewrite Hc.
    + revert Hs. apply forallb_both. intros c Hc.
      apply siLetter_plain in Hc as (_ & _ & Hc & _). now rewrite Hc.
Qed.
Lemma parseSI_prepare (s : str) :
  s <> [] ->
  forallb (fun c => negb (isWhiteSpace c)) s = true ->
  forallb (fun c => negb ((c =? 44) || (c =? 32))) s = true ->
  parseSI (Some s)
  = match exec siPattern
            (removeAll (Alt (cls (sameLetter 937))
                            (Seq (liti "ohm") (opt (chi 115))))
               (removeFirst (Seq (cls isUnitClassChar) Eol) s)) with
    | None => NaN
    | Some m =>
        mul (parseFloat (group 1 (groups m))) (siFactor (group 2 (groups m)))
    end.
Proof.
  intros Hne Hw Hc. unfold parseSI.
  replace (truthy s) with true by (destruct s; [congruence|reflexivity]).
  cbn [negb]. rewrite (trim_quiet _ Hw).
  rewrite (@removeAll_none _ (fun c => (c =? 44) || (c =? 32)) s).
  - reflexivity.
  - intros n s' c H. now apply plus_miss.
  - exact Hc.
Qed.

Lemma plain_text (ds suf : str) :
  allDigits ds -> forallb siLetter suf = true ->
  forallb (fun c => negb (isWhiteSpace c)) (ds ++ suf) = true
  /\ forallb (fun c => negb ((c =? 44) || (c =? 32))) (ds ++ suf) = true.
Proof.
  intros Hd Hs. rewrite !forallb_app.
  split; apply andb_true_iff; split.
  - revert Hd. apply forallb_both. intros c Hc.
    apply digit_plain in Hc as (Hc & _). now rewrite Hc.
  - revert Hs. apply forallb_both. intros c Hc.
    apply siLetter_plain in Hc as (Hc & _). now rewrite Hc.
  - revert Hd. apply forallb_both. intros c Hc.
    apply digit_plain in Hc as (_ & Hc & _). now rewrite Hc.
  - revert Hs. apply forallb_both. intros c Hc.
    apply siLetter_plain in Hc as (_ & Hc & _). now rewrite Hc.
Qed.

(** Without a unit character at the end, nothing is dropped. *)
Lemma parseSI_unit_absent (ds suf : str) :
  ds <> [] -> allDigits ds -> forallb siLetter suf = true ->
  endsWithUnit suf = false ->
  parseSI (Some (ds ++ suf)) = mul (parseFloat ds) (siFactor suf).
Proof.
  intros Hne Hd Hs He.
  destruct (@plain_text ds suf Hd Hs) as [Hw Hc].
  rewrite parseSI_prepare.
  - rewrite removeFirst_unit_kept by assumption. now apply parseSI_core.
  - destruct ds; [congruence|discriminate].
  - exact Hw.
  - exact Hc.
Qed.

(** One unit character at the end is dropped. *)
Lemma parseSI_unit_dropped (ds suf : str) (c : char) :
  ds <> [] -> allDigits ds -> forallb siLetter suf = true ->
  isUnitClassChar c = true ->
  parseSI (Some (ds ++ suf ++ [c])) = mul (parseFloat ds) (siFactor suf).
Proof.
  intros Hne Hd Hs Hu.
  destruct (@plain_text ds suf Hd Hs) as [Hw Hc].
  destruct (unit_class_plain c Hu) as [Hcw Hcc].
  rewrite app_assoc. rewrite parseSI_prepare.
  - unfold cls. rewrite removeFirst_chr_eol, Hu. now apply parseSI_core.
  - destruct ds; [congruence|discriminate].
  - rewrite forallb_app. apply andb_true_iff. split; [exact Hw|].
    cbn [forallb]. now rewrite Hcw.
  - rewrite forallb_app. apply andb_true_iff. split; [exact Hc|].
    cbn [forallb]. now rewrite Hcc.
Qed.

Lemma lookup_siMap_mega (k : str) :
  lookup k siMap = Some (Fin 1 6) -> k = js "M".
Proof.
  intros H. apply lookup_in in H. unfold siMap in H. cbn [In] in H.
  repeat (destruct H as [H|H]; [congruence|]). destruct H.
Qed.

Lemma toLowerCase_not_M (suf : str) : toLowerCase suf <> js "M".
Proof.
  destruct suf as [|c t]; [discriminate|].
  unfold toLowerCase. cbn [List.map]. intros E.
  change (js "M") with [77] in E. injection E as H _.
  unfold lowerChar in H. destruct (isUpper c) eqn:Eu.
  { unfold isUpper, in_range in Eu. apply andb_true_iff in Eu as [E1 E2].
    apply N.leb_le in E1, E2. lia. }
  subst c. discriminate Eu.
Qed.

Lemma siFactor_not_mega (suf : str) : siFactor suf <> Fin 1 6.
Proof.
  unfold siFactor, mapAt.
  destruct (lookup (toLowerCase suf) siMap) as [v|] eqn:El.
  - intros ->. apply lookup_siMap_mega in El. now apply toLowerCase_not_M in El.
  - destruct (existsb _ inheritedNames); [discriminate|].
    destruct (lookup suf siMap) as [v|] eqn:Es.
    + intros ->. apply lookup_siMap_mega in Es. subst suf. discriminate El.
    + destruct (existsb _ inheritedNames); discriminate.
Qed.
(** X20.  No suffix makes [parseSI] multiply by [10^6]: the lower-cased
    suffix is looked up first, so the entry of the capital M is never read.
    After digits, a capital M before a unit character means milli, and a
    capital M at the end is itself dropped as a unit character. *)
Theorem parseSI_never_mega (ds : str) :
  ds <> [] -> allDigits ds ->
  (forall suf, siFactor suf <> Fin 1 6)
  /\ (forall c, isUnitClassChar c = true ->
        parseSI (Some (ds ++ js "M" ++ [c]))
        = mul (parseFloat ds) (Fin 1 (-3)))
  /\ parseSI (Some (ds ++ js "M")) = mul (parseFloat ds) (Fin 1 0).
Proof.
  intros Hne Hd. split; [exact siFactor_not_mega|]. split.
  - intros c Hu.
    apply (@parseSI_unit_dropped ds (js "M") c Hne Hd eq_refl Hu).
  - apply (@parseSI_unit_dropped ds [] 77 Hne Hd eq_refl eq_refl).
Qed.

Lemma parseSI_never_mega_witness :
  parseSI (Some (js "1" ++ js "M" ++ [937])) = Fin 1 (-3)
  /\ parseSI (Some (js "1" ++ js "M")) = Fin 1 0.
Proof.
  pose proof (@parseSI_never_mega (js "1") ltac:(discriminate) eq_refl)
    as (_ & H1 & H2).
  split; [exact (H1 937 eq_refl)|exact H2].
Defined.

(** X21.  On digits followed by suffix letters (letters other than o and O,
    and the two mu signs), [parseSI] returns the number of the digits times
    the factor of the suffix, provided the suffix does not end with a
    character of the unit class; and one character of the unit class that
    follows the suffix is dropped.  A suffix that itself ends with such a
    character (m, M, f, F, a, A, h, H, v, V) loses it instead. *)
Theorem parseSI_number_suffix_unit (ds suf : str) :
  ds <> [] -> allDigits ds -> forallb siLetter suf = true ->
  (endsWithUnit suf = false ->
   parseSI (Some (ds ++ suf)) = mul (parseFloat ds) (siFactor suf))
  /\ (forall c, isUnitClassChar c = true ->
        parseSI (Some (ds ++ suf ++ [c]))
        = mul (parseFloat ds) (siFactor suf)).
Proof.
  intros Hne Hd Hs. split.
  - now apply parseSI_unit_absent.
  - intros c Hu. now apply parseSI_unit_dropped.
Qed.

Lemma parseSI_number_suffix_unit_witness :
  parseSI (Some (js "15" ++ js "k")) = Fin 15 3
  /\ parseSI (Some (js "15" ++ js "k" ++ [937])) = Fin 15 3
  /\ parseSI (Some (js "10" ++ js "m" ++ js "H")) = Fin 1 (-2)
  /\ parseSI (Some (js "10" ++ [] ++ js "m")) = Fin 1 1.
Proof.
  pose proof (@parseSI_number_suffix_unit (js "15") (js "k")
                ltac:(discriminate) eq_refl eq_refl) as [H1 H2].
  pose proof (@parseSI_number_suffix_unit (js "10") (js "m")
                ltac:(discriminate) eq_refl eq_refl) as [_ H3].
  pose proof (@parseSI_number_suffix_unit (js "10") []
                ltac:(discriminate) eq_refl eq_refl) as [_ H4].
  split; [exact (H1 eq_refl)|].
  split; [exact (H2 937 eq_refl)|].
  split; [exact (H3 72 eq_refl)|exact (H4 109 eq_refl)].
Defined.


End ParseSIFacts.

Section FormatFacts.
Import Units UnitsApi JsNumber.

Lemma Num_eqb_eq (x y : Num) : Num_eqb x y = true -> x = y.
Proof.
  destruct x as [|a|m e], y as [|b|m' e']; cbn [Num_eqb]; try discriminate.
  - reflexivity.
  - intros H. apply Bool.eqb_prop in H. now subst.
  - intros H. apply andb_true_iff in H as [H1 H2].
    apply Z.eqb_eq in H1, H2. now subst.
Qed.

Lemma Num_eqb_neq (x y : Num) : Num_eqb x y = false -> x <> y.
Proof.
  intros H ->. destruct y as [|b|m e]; cbn [Num_eqb] in H; try discriminate.
  - now destruct b.
  - now rewrite !Z.eqb_refl in H.
Qed.

Lemma readBackTable :
  forallb (fun d =>
    forallb (fun n =>
      negb (threeDigits n d) || forallb (readBackOk n d) siSuffixes)
      (List.map N.of_nat (seq 0 1000)))
    (seq 0 3) = true.
Proof. vm_compute. reflexivity. Qed.

Lemma readBack_all (n : N) (d : nat) (ks : Z * string) :
  threeDigits n d = true -> In ks siSuffixes -> readBackOk n d ks = true.
Proof.
  intros Ht Hk. pose proof readBackTable as T.
  assert (Hd : In d (seq 0 3)).
  { apply in_seq. unfold threeDigits in Ht.
    apply andb_true_iff in Ht as [Ht _]. apply andb_true_iff in Ht as [Ht _].
    apply Nat.leb_le in Ht. lia. }
  assert (Hn : In n (List.map N.of_nat (seq 0 1000))).
  { apply in_map_iff. exists (N.to_nat n). split; [lia|]. apply in_seq.
    unfold threeDigits in Ht. apply andb_true_iff in Ht as [_ Ht].
    apply N.ltb_lt in Ht. lia. }
  rewrite forallb_forall in T. specialize (T d Hd).
  rewrite forallb_forall in T. specialize (T n Hn).
  rewrite Ht in T. cbn [negb orb] in T.
  rewrite forallb_forall in T. now apply T.
Qed.

(** X22.  What [formatSpiceNumber] writes for a number of at most three
    digits times a power of ten with a suffix, and what [parseSI] makes of
    it.  The text is the number and the suffix.  [parseSI] reads the number
    and multiplies it by the power of ten of the suffix for k, no suffix, u,
    n and p, and by 1 for M and m, which it removes as unit characters: for
    these two the result is not the value that was written. *)
Theorem formatSpiceNumber_read_back (n : N) (d : nat) (k : Z) (suffix : string) :
  threeDigits n d = true -> In (k, suffix) siSuffixes ->
  formatSpiceNumber (mkFin (Z.of_N n) (k - Z.of_nat d)) true
  = Num_toString (scaled n d) ++ js suffix
  /\ parseSI (Some (formatSpiceNumber (mkFin (Z.of_N n) (k - Z.of_nat d)) true))
     = mul (scaled n d) (Fin 1 (readFactor k))
  /\ (k = 6%Z \/ k = (-3)%Z ->
      parseSI (Some (formatSpiceNumber (mkFin (Z.of_N n) (k - Z.of_nat d)) true))
      <> mkFin (Z.of_N n) (k - Z.of_nat d)).
Proof.
  intros Ht Hk. pose proof (@readBack_all n d (k, suffix) Ht Hk) as H.
  unfold readBackOk in H. cbn [fst snd] in H.
  apply andb_true_iff in H as [H H3]. apply andb_true_iff in H as [H1 H2].
  apply eqb_str_eq in H1. apply Num_eqb_eq in H2.
  split; [exact H1|]. split; [exact H2|].
  intros Hm.
  assert (E : ((k =? 6) || (k =? -3))%Z = true).
  { destruct Hm as [-> | ->]; reflexivity. }
  rewrite E in H3. cbn [negb orb] in H3. apply negb_true_iff in H3.
  now apply Num_eqb_neq.
Qed.

(** The value 4700 is written 4.7k and read as 4.7 times 1000; the value
    4700000 is written 4.7M and read as 4.7. *)
Lemma formatSpiceNumber_read_back_witness :
  (formatSpiceNumber (mkFin 47 (3 - 1)) true = js "4.7k"
   /\ parseSI (Some (formatSpiceNumber (mkFin 47 (3 - 1)) true))
      = mul (Fin 47 (-1)) (Fin 1 3))
  /\ (formatSpiceNumber (mkFin 47 (6 - 1)) true = js "4.7M"
      /\ parseSI (Some (formatSpiceNumber (mkFin 47 (6 - 1)) true))
         = mul (Fin 47 (-1)) (Fin 1 0)).
Proof.
  pose proof (@formatSpiceNumber_read_back 47 1 3 "k" eq_refl
                (or_intror (or_introl eq_refl))) as (A1 & A2 & _).
  pose proof (@formatSpiceNumber_read_back 47 1 6 "M" eq_refl
                (or_introl eq_refl)) as (B1 & B2 & _).
  split; split; assumption.
Defined.

End FormatFacts.
